(** * Abacus client runtime

    A shallow embedding of the client-side core of
    [backend/index/static/index/app.js]: the token store and the
    authenticated request helper [api], the debounced session invalidation
    [handleUnauthorizedResponse], the faction directory cache, the
    draft working sets behind the three "manage roster" dialogs, and, around
    them, the logout action, the user and state stores, [escapeHtml] and the
    ally and rival tag editors of the faction form.

    Conventions of the embedding.
    - A JS string is the [string] of its UTF-8 bytes, so that [===] is [=]
      and the separators the code looks for ([.], [-], [_], [&], [<] ...) are
      single bytes; [trim] and [toLowerCase] are built-ins of the host.
    - JS numbers that the code computes with (ids, [exp], [Date.now()],
      HTTP status codes) are integers, [Z].
    - A JS [Map] whose iteration order is observable is an insertion-ordered
      association list; maps that are only looked up are [gmap]s.
    - Asynchronous functions are run to completion: a call of [api] is a
      state transformer on the [World], which holds the module-level
      variables, [localStorage], the clock, the pending timers, the
      responses the network is going to give, and the trace of what the
      call did to the outside. *)

From Stdlib Require Import ZArith Lia Bool Ascii String List.
From stdpp Require Import base numbers option list gmap strings pretty.

Set Warnings "-register-all".
Local Open Scope string_scope.
Local Open Scope list_scope.
Local Open Scope Z_scope.

(** ** JSON values *)

Inductive json : Type :=
| JNull
| JBool (b : bool)
| JNum (n : Z)
| JStr (s : string)
| JArr (items : list json)
| JObj (members : list (string * json)).

(** The truth value JS gives a parsed JSON value in a condition. *)
Definition truthy (v : json) : bool :=
  match v with
  | JNull => false
  | JBool b => b
  | JNum n => negb (n =? 0)
  | JStr s => negb (String.eqb s "")
  | JArr _ | JObj _ => true
  end.

Fixpoint assoc (k : string) (ms : list (string * json)) : option json :=
  match ms with
  | [] => None
  | (k', v) :: ms' => if String.eqb k k' then Some v else assoc k ms'
  end.

(** [v.k] for a value that is not null: [None] is [undefined]. Only objects
    carry the members the code reads. *)
Definition member (k : string) (v : json) : option json :=
  match v with
  | JObj ms => assoc k ms
  | _ => None
  end.

Definition keys (v : json) : list string :=
  match v with
  | JObj ms => map fst ms
  | _ => []
  end.

(** ** String primitives used by the source *)

(** [s.split(c)] for a one-character separator. *)
Fixpoint split (c : ascii) (s : string) : list string :=
  match s with
  | EmptyString => [EmptyString]
  | String a s' =>
      if Ascii.eqb a c then EmptyString :: split c s'
      else match split c s' with
           | p :: ps => String a p :: ps
           | [] => [String a EmptyString]
           end
  end.

(** [s.replace(/c/g, d)] for single characters. *)
Fixpoint replace (c d : ascii) (s : string) : string :=
  match s with
  | EmptyString => EmptyString
  | String a s' => String (if Ascii.eqb a c then d else a) (replace c d s')
  end.

Definition hexDigit (n : N) : ascii :=
  if (n <? 10)%N then ascii_of_N (48 + n) else ascii_of_N (87 + n).

(** ['%' + ('00' + c.charCodeAt(0).toString(16)).slice(-2)] *)
Definition percentByte (c : ascii) : string :=
  let n := N_of_ascii c in
  String "%" (String (hexDigit (n / 16)) (String (hexDigit (n mod 16)) EmptyString)).

Fixpoint percentEncode (s : string) : string :=
  match s with
  | EmptyString => EmptyString
  | String c s' => percentByte c +:+ percentEncode s'
  end.

Definition isSpace (c : ascii) : bool :=
  let n := N_of_ascii c in
  ((9 <=? n) && (n <=? 13) || (n =? 32))%N.

(** ** Built-ins of the host

    The functions the source takes from the browser. [None] stands for a
    thrown exception ([atob], [decodeURIComponent], [JSON.parse]) or for
    [NaN] ([ToNumber], which is consulted only for strings, arrays and
    objects: numbers, booleans and [null] are converted below). [trim] is
    [String.prototype.trim] and [toLowerCase] is
    [String.prototype.toLowerCase], on the whole of Unicode; nothing is
    assumed of either. *)

Class Platform : Type := {
  atob : string -> option string;
  decodeURIComponent : string -> option string;
  JSON_parse : string -> option json;
  JSON_stringify : json -> string;
  ToNumber : json -> option Z;
  trim : string -> string;
  toLowerCase : string -> string
}.

(** ** HTTP messages *)

Record request : Type := {
  url : string;
  method : option string;
  headers : gmap string string;
  body : option string
}.

(** The [opts] argument of [api]: [opts.method], [opts.headers || {}],
    [opts.body]. *)
Record options : Type := {
  opt_method : option string;
  opt_headers : gmap string string;
  opt_body : option string
}.

Definition noOptions : options :=
  {| opt_method := None; opt_headers := ∅; opt_body := None |}.

(** A directory entry as the server lists it. [None] is a [null] element. *)
Record faction : Type := { faction_id : Z; faction_name : string }.

(** What [res.json()] resolves to, as far as this core reads it: the answer
    of the refresh endpoint ([access] is empty when the member is missing),
    the faction list, [null], or some other object. *)
Inductive data : Type :=
| DataToken (access : string)
| DataFactions (l : list (option faction))
| DataNull
| DataOther.

(** [payload = None]: the body is not JSON, [res.json()] rejects. *)
Record response : Type := { status : Z; payload : option data }.

Definition ok (r : response) : bool := (200 <=? status r) && (status r <=? 299).

(** ** The world *)

Record user : Type := { role : string; username : string; display_name : string }.

Record directory : Type := {
  dir_list : list (option faction);
  byName : gmap string faction;
  byId : gmap string faction;
  timestamp : Z
}.

(** The place in [api] a [fetch] is issued from (a label of the model). *)
Inductive site : Type := ProactiveRefresh | Request | ReactiveRefresh | Retry.

(** What a call does to the outside, in order. [EFetch] records the request
    and what came back ([None]: the promise rejected). *)
Inductive event : Type :=
| EFetch (s : site) (rq : request) (answer : option response)
| EMessage (msg type : string)
| ECloseModal
| EHide (selector : string)
| ESwitchTier (tier : string)
| ERenderFactionDetail (f : data)
| ERenderLoomOperationDetail (operation : data).

(** The only callback this core hands to [setTimeout] that touches its
    state: [() => { sessionInvalidated = false; }]. *)
Inductive callback : Type := ResetSessionInvalidated.

Record World : Type := {
  localStorage : gmap string string;
  sessionInvalidated : bool;
  currentUser : user;
  factionDirectoryCache : directory;
  clock : Z;                            (* Date.now() *)
  timers : list (Z * callback);         (* due time, callback *)
  network : list (option response);     (* answers of the coming fetches *)
  trace : list event;
  unauthorizedCalls : nat               (* calls of handleUnauthorizedResponse *)
}.

Definition withStorage (f : gmap string string -> gmap string string) (w : World) : World :=
  {| localStorage := f (localStorage w); sessionInvalidated := sessionInvalidated w;
     currentUser := currentUser w; factionDirectoryCache := factionDirectoryCache w;
     clock := clock w; timers := timers w; network := network w; trace := trace w;
     unauthorizedCalls := unauthorizedCalls w |}.

Definition withInvalidated (b : bool) (w : World) : World :=
  {| localStorage := localStorage w; sessionInvalidated := b;
     currentUser := currentUser w; factionDirectoryCache := factionDirectoryCache w;
     clock := clock w; timers := timers w; network := network w; trace := trace w;
     unauthorizedCalls := unauthorizedCalls w |}.

Definition withUser (u : user) (w : World) : World :=
  {| localStorage := localStorage w; sessionInvalidated := sessionInvalidated w;
     currentUser := u; factionDirectoryCache := factionDirectoryCache w;
     clock := clock w; timers := timers w; network := network w; trace := trace w;
     unauthorizedCalls := unauthorizedCalls w |}.

Definition withDirectory (d : directory) (w : World) : World :=
  {| localStorage := localStorage w; sessionInvalidated := sessionInvalidated w;
     currentUser := currentUser w; factionDirectoryCache := d;
     clock := clock w; timers := timers w; network := network w; trace := trace w;
     unauthorizedCalls := unauthorizedCalls w |}.

Definition withClock (t : Z) (w : World) : World :=
  {| localStorage := localStorage w; sessionInvalidated := sessionInvalidated w;
     currentUser := currentUser w; factionDirectoryCache := factionDirectoryCache w;
     clock := t; timers := timers w; network := network w; trace := trace w;
     unauthorizedCalls := unauthorizedCalls w |}.

Definition withTimers (ts : list (Z * callback)) (w : World) : World :=
  {| localStorage := localStorage w; sessionInvalidated := sessionInvalidated w;
     currentUser := currentUser w; factionDirectoryCache := factionDirectoryCache w;
     clock := clock w; timers := ts; network := network w; trace := trace w;
     unauthorizedCalls := unauthorizedCalls w |}.

Definition withNetwork (n : list (option response)) (w : World) : World :=
  {| localStorage := localStorage w; sessionInvalidated := sessionInvalidated w;
     currentUser := currentUser w; factionDirectoryCache := factionDirectoryCache w;
     clock := clock w; timers := timers w; network := n; trace := trace w;
     unauthorizedCalls := unauthorizedCalls w |}.

Definition emit (e : event) (w : World) : World :=
  {| localStorage := localStorage w; sessionInvalidated := sessionInvalidated w;
     currentUser := currentUser w; factionDirectoryCache := factionDirectoryCache w;
     clock := clock w; timers := timers w; network := network w;
     trace := trace w ++ [e]; unauthorizedCalls := unauthorizedCalls w |}.

Definition countCall (w : World) : World :=
  {| localStorage := localStorage w; sessionInvalidated := sessionInvalidated w;
     currentUser := currentUser w; factionDirectoryCache := factionDirectoryCache w;
     clock := clock w; timers := timers w; network := network w; trace := trace w;
     unauthorizedCalls := S (unauthorizedCalls w) |}.

(** ** Computations: state and exceptions *)

Inductive exn : Type :=
| Error (message : string)
| TypeError
| SyntaxError.

Inductive outcome (A : Type) : Type :=
| Return (a : A)
| Throw (e : exn).
Arguments Return {A} a.
Arguments Throw {A} e.

Definition M (A : Type) : Type := World -> outcome A * World.

Definition ret {A} (a : A) : M A := fun w => (Return a, w).

Definition throw {A} (e : exn) : M A := fun w => (Throw e, w).

Definition bind {A B} (m : M A) (k : A -> M B) : M B :=
  fun w => match m w with
           | (Return a, w') => k a w'
           | (Throw e, w') => (Throw e, w')
           end.

(** [try { m } catch (error) { h error }]: what [m] did before it threw stays
    done. *)
Definition tryCatch {A} (m : M A) (h : exn -> M A) : M A :=
  fun w => match m w with
           | (Return a, w') => (Return a, w')
           | (Throw e, w') => h e w'
           end.

Definition gets {A} (f : World -> A) : M A := fun w => (Return (f w), w).

Definition modify (f : World -> World) : M unit := fun w => (Return tt, f w).

Declare Scope js_scope.
Delimit Scope js_scope with js.
Notation "'let*' x := m 'in' k" := (bind m (fun x => k))
  (at level 10, x name, m at level 100, k at level 200) : js_scope.
Notation "m ';;;' k" := (bind m (fun _ => k))
  (at level 100, k at level 200, right associativity) : js_scope.
Local Open Scope js_scope.

Definition when (b : bool) (m : M unit) : M unit := if b then m else ret tt.

(** ** localStorage and the stores over it *)

Definition getItem (k : string) : M (option string) :=
  gets (fun w => localStorage w !! k).

Definition setItem (k v : string) : M unit := modify (withStorage (insert k v)).

Definition removeItem (k : string) : M unit := modify (withStorage (delete k)).

(** [const tokens = { get access() {...}, set access(v) {...}, ... }] *)
Module tokens.
Definition access : M string :=
  let* v := getItem "abx_access" in ret (default "" v).
Definition set_access (v : string) : M unit := setItem "abx_access" v.
Definition refresh : M string :=
  let* v := getItem "abx_refresh" in ret (default "" v).
Definition set_refresh (v : string) : M unit := setItem "abx_refresh" v.
Definition clear : M unit :=
  removeItem "abx_access" ;;; removeItem "abx_refresh".
End tokens.

Module userStore.
Definition get : M user :=
  let* r := getItem "abx_role" in
  let* u := getItem "abx_username" in
  let* d := getItem "abx_display_name" in
  ret {| role := default "" r; username := default "" u; display_name := default "" d |}.
(** [u = None] is the falsy argument of [if (!u) return]. *)
Definition set (u : option user) : M unit :=
  match u with
  | None => ret tt
  | Some u =>
      setItem "abx_role" (role u) ;;;
      setItem "abx_username" (username u) ;;;
      setItem "abx_display_name" (display_name u)
  end.
Definition clear : M unit :=
  removeItem "abx_role" ;;; removeItem "abx_username" ;;;
  removeItem "abx_display_name".
End userStore.

Module stateStore.
(** [try { const v = getItem(key); return v ? JSON.parse(v) : fallback }
    catch { return fallback }] *)
Definition get `{Platform} (key : string) (fallback : json) : M json :=
  let* v := getItem key in
  match v with
  | Some s => if String.eqb s "" then ret fallback else ret (default fallback (JSON_parse s))
  | None => ret fallback
  end.
Definition set `{Platform} (key : string) (val : json) : M unit :=
  setItem key (JSON_stringify val).
Definition del (key : string) : M unit := removeItem key.
End stateStore.

(** ** Timers *)

Definition setTimeout (cb : callback) (ms : Z) : M unit :=
  modify (fun w => withTimers (timers w ++ [(clock w + ms, cb)]) w).

Definition runCallback (cb : callback) (w : World) : World :=
  match cb with
  | ResetSessionInvalidated => withInvalidated false w
  end.

Definition isDue (t : Z) (tm : Z * callback) : bool := fst tm <=? t.

(** Let [dt] milliseconds pass: the clock moves on and the callbacks that
    are due by then run. *)
Definition advance (dt : Z) (w : World) : World :=
  let t := clock w + dt in
  let due := List.filter (isDue t) (timers w) in
  let later := List.filter (fun tm => negb (isDue t tm)) (timers w) in
  fold_left (fun w' tm => runCallback (snd tm) w') due
            (withTimers later (withClock t w)).

(** ** Session invalidation *)

Definition emptyDirectory : directory :=
  {| dir_list := []; byName := ∅; byId := ∅; timestamp := 0 |}.

Definition invalidateFactionDirectory : M unit :=
  modify (withDirectory emptyDirectory).

(** The DOM side of these helpers is the event they leave in the trace. *)
Definition closeModal : M unit := modify (emit ECloseModal).

Definition hide (selector : string) : M unit := modify (emit (EHide selector)).

Definition showMessage (msg type : string) : M unit :=
  modify (emit (EMessage msg type)).

Definition switchTier `{Platform} (tier : string) : M unit :=
  modify (emit (ESwitchTier tier)) ;;;
  stateStore.set "abx_tier" (JStr tier).

Definition sessionExpiredMessage : string :=
  "Session expired. Please log in again.".

Definition handleUnauthorizedResponse `{Platform} (message : string) : M unit :=
  modify countCall ;;;
  let* invalidated := gets sessionInvalidated in
  if invalidated then ret tt
  else
    modify (withInvalidated true) ;;;
    tokens.clear ;;;
    userStore.clear ;;;
    modify (withUser {| role := ""; username := ""; display_name := "" |}) ;;;
    stateStore.del "abx_tier" ;;;
    stateStore.del "abx_page" ;;;
    stateStore.del "abx_profile_id" ;;;
    stateStore.del "abx_index_filters" ;;;
    invalidateFactionDirectory ;;;
    closeModal ;;;
    hide "#shutdown-overlay" ;;;
    switchTier "login" ;;;
    showMessage message "error" ;;;
    setTimeout ResetSessionInvalidated 1500.

(** ** The request helper *)

Section Client.
Context `{Platform}.

Definition decodeJwt (token : string) : json :=
  match split "." token !! 1%nat with
  | None => JNull                       (* undefined.replace throws *)
  | Some base64Url =>
      let base64 := replace "_" "/" (replace "-" "+" base64Url) in
      match atob base64 with
      | None => JNull
      | Some bin =>
          match decodeURIComponent (percentEncode bin) with
          | None => JNull
          | Some jsonPayload => default JNull (JSON_parse jsonPayload)
          end
      end
  end.

(** [v * 1000] for [v = decodedToken.exp]; [None] is [NaN]. *)
Definition times1000 (v : option json) : option Z :=
  match v with
  | None => None
  | Some (JNum n) => Some (n * 1000)
  | Some JNull => Some 0
  | Some (JBool b) => Some (if b then 1000 else 0)
  | Some other => (fun n => n * 1000) <$> ToNumber other
  end.

Definition lessThan (a : option Z) (b : Z) : bool :=
  match a with
  | Some x => x <? b
  | None => false
  end.

(** [decodedToken && decodedToken.exp * 1000 < Date.now() + 60000] *)
Definition expiring (decodedToken : json) (now : Z) : bool :=
  truthy decodedToken && lessThan (times1000 (member "exp" decodedToken)) (now + 60000).

Definition fetch (s : site) (rq : request) : M response :=
  fun w => match network w with
           | Some r :: rest =>
               (Return r, emit (EFetch s rq (Some r)) (withNetwork rest w))
           | None :: rest =>
               (Throw TypeError, emit (EFetch s rq None) (withNetwork rest w))
           | [] => (Throw TypeError, emit (EFetch s rq None) w)
           end.

(** [await res.json()] *)
Definition json_of (r : response) : M data :=
  match payload r with
  | Some d => ret d
  | None => throw SyntaxError
  end.

(** [data.access] *)
Definition access_of (d : data) : M string :=
  match d with
  | DataToken a => ret a
  | DataNull => throw TypeError
  | DataFactions _ | DataOther => ret ""
  end.

Definition refreshRequest (refresh : string) : request :=
  {| url := "/api/auth/token/refresh/";
     method := Some "POST";
     headers := {[ "Content-Type" := "application/json" ]};
     body := Some (JSON_stringify (JObj [("refresh", JStr refresh)])) |}.

Definition jsonHeaders (opts : options) : gmap string string :=
  opt_headers opts ∪ {[ "Content-Type" := "application/json" ]}.

Definition bearer (h : gmap string string) (token : string) : gmap string string :=
  <[ "Authorization" := "Bearer " +:+ token ]> h.

Definition requestOf (path : string) (opts : options) (h : gmap string string) : request :=
  {| url := path; method := opt_method opts; headers := h; body := opt_body opts |}.

Definition nonEmpty (s : string) : bool := negb (String.eqb s "").

(** The first block of [api]: the proactive check on the stored access
    token. It yields the [accessToken] the request is sent with. *)
Definition refreshIfExpiring (accessToken0 : string) : M string :=
  if nonEmpty accessToken0 then
    let decodedToken := decodeJwt accessToken0 in
    let* now := gets clock in
    if expiring decodedToken now then
      let* refresh := tokens.refresh in
      if nonEmpty refresh then
        tryCatch
          (let* rf := fetch ProactiveRefresh (refreshRequest refresh) in
           if ok rf then
             let* d := json_of rf in
             let* access := access_of d in
             if nonEmpty access then
               tokens.set_access access ;;; ret access
             else
               handleUnauthorizedResponse sessionExpiredMessage ;;;
               throw (Error "Session expired.")
           else
             handleUnauthorizedResponse sessionExpiredMessage ;;;
             throw (Error "Session expired."))
          (fun error =>
             handleUnauthorizedResponse sessionExpiredMessage ;;;
             throw error)
      else
        handleUnauthorizedResponse sessionExpiredMessage ;;;
        throw (Error "Session expired.")
    else ret accessToken0
  else ret accessToken0.

(** The second block of [api]: the request, and on a 401 one refresh and
    one retry. *)
Definition sendWithRetry (path : string) (opts : options) (accessToken : string)
  : M response :=
  let headers :=
    if nonEmpty accessToken then bearer (jsonHeaders opts) accessToken
    else jsonHeaders opts in
  let* res := fetch Request (requestOf path opts headers) in
  if status res =? 401 then
    let* refresh := tokens.refresh in
    if nonEmpty refresh then
      tryCatch
        (let* rf := fetch ReactiveRefresh (refreshRequest refresh) in
         if ok rf then
           let* d := json_of rf in
           let* access := access_of d in
           if nonEmpty access then
             tokens.set_access access ;;;
             let* stored := tokens.access in
             let headers2 := bearer (jsonHeaders opts) stored in
             let* retry := fetch Retry (requestOf path opts headers2) in
             when (status retry =? 401)
                  (handleUnauthorizedResponse sessionExpiredMessage) ;;;
             ret retry
           else
             handleUnauthorizedResponse sessionExpiredMessage ;;; ret res
         else
           handleUnauthorizedResponse sessionExpiredMessage ;;; ret res)
        (fun _ => handleUnauthorizedResponse sessionExpiredMessage ;;; ret res)
    else
      handleUnauthorizedResponse sessionExpiredMessage ;;; ret res
  else ret res.

Definition api (path : string) (opts : options) : M response :=
  let* accessToken0 := tokens.access in
  let* accessToken := refreshIfExpiring accessToken0 in
  sendWithRetry path opts accessToken.

End Client.

(** ** The faction directory cache *)

Section Directory.
Context `{Platform}.

(** The body of [list.forEach((item) => {...})] over both indices. *)
Definition indexStep (acc : gmap string faction * gmap string faction)
    (item : option faction) : gmap string faction * gmap string faction :=
  match item with
  | Some f =>
      if nonEmpty (faction_name f)
      then (<[ faction_name f := f ]> (fst acc), <[ pretty (faction_id f) := f ]> (snd acc))
      else acc
  | None => acc
  end.

Definition buildIndices (l : list (option faction))
  : gmap string faction * gmap string faction :=
  fold_left indexStep l (∅, ∅).

Definition snapshotOf (l : list (option faction)) (now : Z) : directory :=
  {| dir_list := l;
     byName := fst (buildIndices l);
     byId := snd (buildIndices l);
     timestamp := now |}.

(** [list.forEach] on what [res.json()] gave: a [TypeError] unless it is
    an array. *)
Definition as_array (d : data) : M (list (option faction)) :=
  match d with
  | DataFactions l => ret l
  | DataToken _ | DataNull | DataOther => throw TypeError
  end.

Definition isFresh (force : bool) (cache : directory) (now : Z) : bool :=
  negb force && negb (Nat.eqb (length (dir_list cache)) 0)
  && (now - timestamp cache <? 60000).

Definition getFactionDirectory (force : bool) : M directory :=
  let* now := gets clock in
  let* cache := gets factionDirectoryCache in
  if isFresh force cache now then ret cache
  else
    let* res := api "/api/scales/factions/" noOptions in
    if ok res then
      let* d := json_of res in
      let* l := as_array d in
      modify (withDirectory (snapshotOf l now)) ;;;
      gets factionDirectoryCache
    else
      throw (Error ("Failed to fetch faction directory ("
                      +:+ pretty (status res) +:+ ")")).

(** [String(item?.name || '')] *)
Definition labelOf (item : option faction) : string :=
  match item with
  | Some f => faction_name f
  | None => ""
  end.

(** The [for (const item of list)] loop; [None]: it ran to its end. *)
Fixpoint scanLabels (lower : string) (l : list (option faction)) : option string :=
  match l with
  | [] => None
  | item :: rest =>
      let label := labelOf item in
      if String.eqb (toLowerCase label) lower then Some label
      else scanLabels lower rest
  end.

Definition resolveFactionName (value : string) : M string :=
  let name := trim value in
  if nonEmpty name then
    let* cache := gets factionDirectoryCache in
    match byName cache !! name with
    | Some exact =>
        if nonEmpty (faction_name exact) then ret (faction_name exact)
        else ret (default name (scanLabels (toLowerCase name) (dir_list cache)))
    | None => ret (default name (scanLabels (toLowerCase name) (dir_list cache)))
    end
  else ret "".

End Directory.

(** ** Insertion-ordered maps (JS [Map])

    [set] on a key that is present keeps its place, [set] on a new key
    appends, [values] lists in insertion order. *)

Section OMap.
Context {K : Type} `{EqDecision K} {V : Type}.

Fixpoint Map_get (k : K) (m : list (K * V)) : option V :=
  match m with
  | [] => None
  | (k', v) :: m' => if decide (k = k') then Some v else Map_get k m'
  end.

Fixpoint Map_set (k : K) (v : V) (m : list (K * V)) : list (K * V) :=
  match m with
  | [] => [(k, v)]
  | (k', v') :: m' =>
      if decide (k = k') then (k', v) :: m' else (k', v') :: Map_set k v m'
  end.

Fixpoint Map_delete (k : K) (m : list (K * V)) : list (K * V) :=
  match m with
  | [] => []
  | (k', v') :: m' =>
      if decide (k = k') then m' else (k', v') :: Map_delete k m'
  end.

Definition Map_has (k : K) (m : list (K * V)) : bool :=
  match Map_get k m with Some _ => true | None => false end.

Definition Map_values (m : list (K * V)) : list V := map snd m.
End OMap.

(** ** The faction roster dialog ([openManageMembersModal]) *)

Record entry : Type := {
  profile_id : Z;
  full_name : string;
  aliases : list string;
  affiliation : string;
  originalAffiliation : string;
  isNew : bool;
  isRemoved : bool
}.

Record candidate : Type := {
  cand_profile_id : Z;
  cand_full_name : string;
  cand_aliases : list string;
  cand_affiliation : string
}.

(** A row of [data.members] or [data.candidates]; an empty string stands for
    a missing member. *)
Record row : Type := {
  row_profile_id : Z;
  row_full_name : string;
  row_aliases : list string;
  row_affiliation : string
}.

(** The answer of [GET .../manage-members/]; [affiliation_options = []] when
    the member is missing or not an array. *)
Record rosterData : Type := {
  affiliation_options : list string;
  members : list row
}.

(** The variables the handlers of the dialog close over. *)
Record roster : Type := {
  affiliationOptions : list string;
  rosterState : list (Z * entry);
  candidateCache : list candidate;
  searchTerm : string;
  saveDisabled : bool                   (* saveBtn.disabled *)
}.

Definition AFFILIATION_DEFAULTS : list string :=
  ["Leader"; "High ranking member"; "Member"; "Associate"; "Hangaround";
   "Affiliate"; "Supporter"; "Informant"; "Unknown"].

Definition orElse (a b : string) : string := if nonEmpty a then a else b.

Definition includes (x : string) (l : list string) : bool :=
  existsb (String.eqb x) l.

Definition normaliseAffiliation (options : list string) (value : string) : string :=
  if includes value options then value
  else orElse (default "" (head options)) "Associate".

Definition withAffiliation (a : string) (e : entry) : entry :=
  {| profile_id := profile_id e; full_name := full_name e; aliases := aliases e;
     affiliation := a; originalAffiliation := originalAffiliation e;
     isNew := isNew e; isRemoved := isRemoved e |}.

Definition withRemoved (b : bool) (e : entry) : entry :=
  {| profile_id := profile_id e; full_name := full_name e; aliases := aliases e;
     affiliation := affiliation e; originalAffiliation := originalAffiliation e;
     isNew := isNew e; isRemoved := b |}.

Definition activeMembers (st : roster) : list entry :=
  List.filter (fun e => negb (isRemoved e)) (Map_values (rosterState st)).

(** The loop of [hasChanges], with its three early returns. *)
Fixpoint anyChange (entries : list entry) : bool :=
  match entries with
  | [] => false
  | e :: rest =>
      if isNew e && negb (isRemoved e) then true
      else if negb (isNew e) && isRemoved e then true
      else if negb (isNew e) && negb (isRemoved e)
              && negb (String.eqb (affiliation e) (originalAffiliation e)) then true
      else anyChange rest
  end.

Definition hasChanges (st : roster) : bool :=
  anyChange (Map_values (rosterState st)).

Definition withRoster (m : list (Z * entry)) (st : roster) : roster :=
  {| affiliationOptions := affiliationOptions st; rosterState := m;
     candidateCache := candidateCache st; searchTerm := searchTerm st;
     saveDisabled := saveDisabled st |}.

Definition withCandidates (term : string) (c : list candidate) (st : roster) : roster :=
  {| affiliationOptions := affiliationOptions st; rosterState := rosterState st;
     candidateCache := c; searchTerm := term; saveDisabled := saveDisabled st |}.

Definition withSaveDisabled (b : bool) (st : roster) : roster :=
  {| affiliationOptions := affiliationOptions st; rosterState := rosterState st;
     candidateCache := candidateCache st; searchTerm := searchTerm st;
     saveDisabled := b |}.

Definition updateSaveState (st : roster) : roster :=
  withSaveDisabled (negb (hasChanges st)) st.

(** The dialog as [openManageMembersModal] leaves it before any data came. *)
Definition openedRoster : roster :=
  {| affiliationOptions := AFFILIATION_DEFAULTS; rosterState := [];
     candidateCache := []; searchTerm := ""; saveDisabled := true |}.

Definition loadMember (options : list string) (m : list (Z * entry)) (mem : row)
  : list (Z * entry) :=
  let cleanAff := normaliseAffiliation options (row_affiliation mem) in
  Map_set (row_profile_id mem)
    {| profile_id := row_profile_id mem;
       full_name := orElse (row_full_name mem) "Unknown Operative";
       aliases := row_aliases mem;
       affiliation := cleanAff;
       originalAffiliation := cleanAff;
       isNew := false;
       isRemoved := false |} m.

Definition applyInitialData (d : rosterData) (st : roster) : roster :=
  let options :=
    if Nat.eqb (length (affiliation_options d)) 0 then AFFILIATION_DEFAULTS
    else affiliation_options d in
  updateSaveState
    {| affiliationOptions := options;
       rosterState := fold_left (loadMember options) (members d) [];
       candidateCache := [];
       searchTerm := "";
       saveDisabled := saveDisabled st |}.

Definition toCandidate (options : list string) (c : row) : candidate :=
  {| cand_profile_id := row_profile_id c;
     cand_full_name := orElse (row_full_name c) "Unknown Operative";
     cand_aliases := row_aliases c;
     cand_affiliation :=
       normaliseAffiliation options (orElse (row_affiliation c) "Associate") |}.

(** [!(existing && !existing.isRemoved)] *)
Definition offered (m : list (Z * entry)) (c : candidate) : bool :=
  match Map_get (cand_profile_id c) m with
  | Some existing => isRemoved existing
  | None => true
  end.

(** [loadCandidates(term)] once its request is answered: [answer] is
    [data.candidates] of an ok response, [None] when the response is not ok
    or the request throws. *)
Definition loadCandidates (term : string) (answer : option (list row)) (st : roster)
  : roster :=
  if nonEmpty term then
    match answer with
    | Some incoming =>
        withCandidates term
          (List.filter (offered (rosterState st))
             (map (toCandidate (affiliationOptions st)) incoming)) st
    | None => withCandidates term (candidateCache st) st
    end
  else withCandidates term [] st.

(** The [change] handler of the member list. *)
Definition memberAffChange (profileId : Z) (value : string) (st : roster) : roster :=
  match Map_get profileId (rosterState st) with
  | None => st
  | Some e =>
      updateSaveState
        (withRoster (Map_set profileId (withAffiliation value e) (rosterState st)) st)
  end.

(** The [click] handler of the member list ([data-role="member-remove"]). *)
Definition memberRemove (profileId : Z) (st : roster) : roster :=
  match Map_get profileId (rosterState st) with
  | None => st
  | Some e =>
      updateSaveState
        (withRoster
           (if isNew e then Map_delete profileId (rosterState st)
            else Map_set profileId (withRemoved true e) (rosterState st)) st)
  end.

Definition findCandidate (profileId : Z) (l : list candidate) : option candidate :=
  List.find (fun c => cand_profile_id c =? profileId) l.

Fixpoint setCandidateAff (profileId : Z) (value : string) (l : list candidate)
  : list candidate :=
  match l with
  | [] => []
  | c :: rest =>
      if cand_profile_id c =? profileId
      then {| cand_profile_id := cand_profile_id c; cand_full_name := cand_full_name c;
              cand_aliases := cand_aliases c; cand_affiliation := value |} :: rest
      else c :: setCandidateAff profileId value rest
  end.

(** The [change] handler of the candidate list. *)
Definition candidateAffChange (profileId : Z) (value : string) (st : roster) : roster :=
  withCandidates (searchTerm st)
    (setCandidateAff profileId value (candidateCache st)) st.

(** The [click] handler of the candidate list ([data-role="candidate-add"]);
    [selected] is [affSelect && affSelect.value], empty when there is none. *)
Definition candidateAdd (profileId : Z) (selected : string) (st : roster) : roster :=
  match findCandidate profileId (candidateCache st) with
  | None => st
  | Some cand =>
      let selectedAff :=
        orElse selected
          (orElse (cand_affiliation cand)
             (normaliseAffiliation (affiliationOptions st) "Associate")) in
      if nonEmpty selectedAff then
        let m :=
          match Map_get profileId (rosterState st) with
          | Some existing =>
              Map_set profileId
                (withAffiliation selectedAff (withRemoved false existing))
                (rosterState st)
          | None =>
              Map_set profileId
                {| profile_id := profileId;
                   full_name := cand_full_name cand;
                   aliases := cand_aliases cand;
                   affiliation := selectedAff;
                   originalAffiliation := selectedAff;
                   isNew := true;
                   isRemoved := false |} (rosterState st)
          end in
        updateSaveState
          (withCandidates (searchTerm st)
             (List.filter (fun c => negb (cand_profile_id c =? profileId))
                (candidateCache st))
             (withRoster m st))
      else st
  end.

(** ** Committing the roster *)

Record change : Type := { change_profile_id : Z; change_affiliation : string }.

Record buckets : Type := {
  add : list change;
  updates : list change;
  remove : list Z
}.

Definition changeOf (e : entry) : change :=
  {| change_profile_id := profile_id e; change_affiliation := affiliation e |}.

(** One round of the [for (const entry of rosterState.values())] loop of the
    save handler. *)
Definition diffStep (acc : buckets) (e : entry) : buckets :=
  if isNew e && negb (isRemoved e) then
    {| add := add acc ++ [changeOf e]; updates := updates acc; remove := remove acc |}
  else if isRemoved e && negb (isNew e) then
    {| add := add acc; updates := updates acc; remove := remove acc ++ [profile_id e] |}
  else if negb (String.eqb (affiliation e) (originalAffiliation e)) then
    {| add := add acc; updates := updates acc ++ [changeOf e]; remove := remove acc |}
  else acc.

Definition noBuckets : buckets := {| add := []; updates := []; remove := [] |}.

Definition rosterDiff (st : roster) : buckets :=
  fold_left diffStep (Map_values (rosterState st)) noBuckets.

Definition isNil {A} (l : list A) : bool :=
  match l with [] => true | _ :: _ => false end.

(** [!add.length && !updates.length && !remove.length] *)
Definition nothingToSave (d : buckets) : bool :=
  isNil (add d) && isNil (updates d) && isNil (remove d).

Definition changeJson (c : change) : json :=
  JObj [("profile_id", JNum (change_profile_id c));
        ("affiliation", JStr (change_affiliation c))].

(** [{ add, updates, remove }] *)
Definition membersPayload (d : buckets) : json :=
  JObj [("add", JArr (map changeJson (add d)));
        ("updates", JArr (map changeJson (updates d)));
        ("remove", JArr (map JNum (remove d)))].

(** The operation dialogs keep the assigned entries only. *)
Record agent : Type := { agent_id : Z; alias : string; role_in_op : string }.

Record target : Type := { target_id : Z; target_name : string; target_type : string }.

Definition agentJson (a : agent) : json :=
  JObj [("agent_id", JNum (agent_id a)); ("alias", JStr (alias a));
        ("role_in_op", JStr (role_in_op a))].

(** [{ assignments: Array.from(state.assigned.values()) }] *)
Definition personnelPayload (assigned : list (Z * agent)) : json :=
  JObj [("assignments", JArr (map agentJson (Map_values assigned)))].

Definition idsOfType (type : string) (l : list target) : list Z :=
  map target_id (List.filter (fun t => String.eqb (target_type t) type) l).

(** [{ profile_ids, faction_ids }], each filled in iteration order. *)
Definition targetsPayload (assigned : list (string * target)) : json :=
  JObj [("profile_ids", JArr (map JNum (idsOfType "profile" (Map_values assigned))));
        ("faction_ids", JArr (map JNum (idsOfType "faction" (Map_values assigned))))].

(** [e.message]; for an error of the host its name stands for its text. *)
Definition messageOf (e : exn) : string :=
  match e with
  | Error m => m
  | TypeError => "TypeError"
  | SyntaxError => "SyntaxError"
  end.

Section Commit.
Context `{Platform}.

Definition post (payload : json) : options :=
  {| opt_method := Some "POST"; opt_headers := ∅;
     opt_body := Some (JSON_stringify payload) |}.

(** A call of an async function that nobody awaits: what it throws rejects
    a promise and reaches no [catch] of the caller. *)
Definition detached (m : M unit) : M unit := tryCatch m (fun _ => ret tt).

(** [openFactionDetail(id)]. The view is drawn by [renderFactionDetailView],
    which is recorded as the event of its call with the faction it was given;
    what the drawn view loads in its turn is not followed. *)
Definition openFactionDetail (id : Z) : M unit :=
  if id =? 0 then ret tt
  else
    let* access := tokens.access in
    if nonEmpty access then
      let* res := api ("/api/scales/factions/" +:+ pretty id +:+ "/") noOptions in
      if status res =? 401 then ret tt
      else if ok res then
        let* f := json_of res in
        modify (emit (ERenderFactionDetail f))
      else showMessage ("Load failed (" +:+ pretty (status res) +:+ ")") "error"
    else handleUnauthorizedResponse "Please log in to view faction details.".

(** [openLoomOperationDetail(operationId)], with [renderLoomOperationDetail]
    recorded as the event of its call. *)
Definition openLoomOperationDetail (operationId : Z) : M unit :=
  tryCatch
    (let* res := api ("/api/loom/operations/" +:+ pretty operationId +:+ "/") noOptions in
     if ok res then
       let* operation := json_of res in
       modify (emit (ERenderLoomOperationDetail operation))
     else throw (Error "Failed to load operation details."))
    (fun e => showMessage (messageOf e) "error").

Definition membersUrl (factionId : Z) : string :=
  "/api/scales/factions/" +:+ pretty factionId +:+ "/manage-members/".

Definition personnelUrl (operationId : Z) : string :=
  "/api/loom/operations/" +:+ pretty operationId +:+ "/manage-personnel/".

Definition targetsUrl (operationId : Z) : string :=
  "/api/loom/operations/" +:+ pretty operationId +:+ "/manage-targets/".

(** The [try] ... [catch] of the [click] handler of [#mm-save], for the
    buckets [d] computed at the click. *)
Definition commitRoster (factionId : Z) (d : buckets) : M unit :=
  tryCatch
    (let* res := api (membersUrl factionId) (post (membersPayload d)) in
     if ok res then
       showMessage "Roster updated." "info" ;;;
       closeModal ;;;
       detached (openFactionDetail factionId)
     else showMessage "Failed to update roster." "error")
    (fun _ => showMessage "Failed to update roster." "error").

(** The [click] handler of [#mm-save]. With nothing to save it returns at
    once. Otherwise it disables the button, awaits the request, and enables
    the button in [finally]; [meanwhile] is what the other handlers of the
    dialog do to it while the request is pending. *)
Definition saveRosterThen (factionId : Z) (meanwhile : roster -> roster) (st : roster)
  : M roster :=
  let d := rosterDiff st in
  if nothingToSave d then
    showMessage "No roster changes to save." "info" ;;; ret st
  else
    commitRoster factionId d ;;;
    ret (withSaveDisabled false (meanwhile (withSaveDisabled true st))).

(** The handler when nothing else happens until the request is settled. *)
Definition saveRoster (factionId : Z) (st : roster) : M roster :=
  saveRosterThen factionId (fun st' => st') st.

(** The [click] handler of [#op-personnel-save]. *)
Definition savePersonnel (operationId : Z) (assigned : list (Z * agent)) : M unit :=
  tryCatch
    (let* res := api (personnelUrl operationId) (post (personnelPayload assigned)) in
     if ok res then
       showMessage "Personnel roster updated." "info" ;;;
       closeModal ;;;
       detached (openLoomOperationDetail operationId)
     else throw (Error "Failed to update personnel."))
    (fun e => showMessage (messageOf e) "error").

(** The [click] handler of [#op-targets-save]. *)
Definition saveTargets (operationId : Z) (assigned : list (string * target)) : M unit :=
  tryCatch
    (let* res := api (targetsUrl operationId) (post (targetsPayload assigned)) in
     if ok res then
       showMessage "Operation targets updated." "info" ;;;
       closeModal ;;;
       detached (openLoomOperationDetail operationId)
     else throw (Error "Failed to update targets."))
    (fun e => showMessage (messageOf e) "error").

End Commit.

(** ** A host for the examples

    A small host against which the statements below are run on concrete
    inputs: [atob] is the forgiving base64 decoder, [decodeURIComponent]
    undoes percent escapes of ASCII text, [JSON.parse] reads [null] and the
    one-member object of an expiry claim, [JSON.stringify] writes without
    escapes, [trim] and [toLowerCase] are right on ASCII text. Every theorem
    holds for any host. *)

Definition dquote : ascii := ascii_of_N 34.

Definition sextet (c : ascii) : option N :=
  let n := N_of_ascii c in
  if ((65 <=? n) && (n <=? 90))%N then Some (n - 65)%N
  else if ((97 <=? n) && (n <=? 122))%N then Some (n - 71)%N
  else if ((48 <=? n) && (n <=? 57))%N then Some (n + 4)%N
  else if (n =? 43)%N then Some 62%N
  else if (n =? 47)%N then Some 63%N
  else None.

Fixpoint sextets (s : string) : option (list N) :=
  match s with
  | EmptyString => Some []
  | String c s' =>
      match sextet c, sextets s' with
      | Some v, Some vs => Some (v :: vs)
      | _, _ => None
      end
  end.

Fixpoint octets (l : list N) : string :=
  match l with
  | a :: b :: c :: d :: rest =>
      String (ascii_of_N (a * 4 + b / 16))
        (String (ascii_of_N ((b mod 16) * 16 + c / 4))
           (String (ascii_of_N ((c mod 4) * 64 + d)) (octets rest)))
  | [a; b; c] =>
      String (ascii_of_N (a * 4 + b / 16))
        (String (ascii_of_N ((b mod 16) * 16 + c / 4)) EmptyString)
  | [a; b] => String (ascii_of_N (a * 4 + b / 16)) EmptyString
  | _ => EmptyString
  end.

Fixpoint dropSpaces (s : string) : string :=
  match s with
  | EmptyString => EmptyString
  | String c s' => if isSpace c then dropSpaces s' else String c (dropSpaces s')
  end.

Fixpoint dropPadding (n : nat) (rev : list ascii) : list ascii :=
  match n, rev with
  | S n', c :: rest => if Ascii.eqb c "=" then dropPadding n' rest else rev
  | _, _ => rev
  end.

Definition sample_atob (s : string) : option string :=
  let cs := list_ascii_of_string (dropSpaces s) in
  let cs' :=
    if Nat.eqb (length cs mod 4) 0 then List.rev (dropPadding 2 (List.rev cs)) else cs in
  if Nat.eqb (length cs' mod 4) 1 then None
  else octets <$> sextets (string_of_list_ascii cs').

Definition hexValue (c : ascii) : option N :=
  let n := N_of_ascii c in
  if ((48 <=? n) && (n <=? 57))%N then Some (n - 48)%N
  else if ((97 <=? n) && (n <=? 102))%N then Some (n - 87)%N
  else if ((65 <=? n) && (n <=? 70))%N then Some (n - 55)%N
  else None.

Fixpoint sample_decodeURIComponent (s : string) : option string :=
  match s with
  | EmptyString => Some EmptyString
  | String "%" (String h (String l rest)) =>
      match hexValue h, hexValue l, sample_decodeURIComponent rest with
      | Some a, Some b, Some r =>
          if (a <? 8)%N then Some (String (ascii_of_N (a * 16 + b)) r) else None
      | _, _, _ => None
      end
  | String "%" _ => None
  | String c rest => String c <$> sample_decodeURIComponent rest
  end.

Fixpoint digits (acc : Z) (s : string) : option (Z * string) :=
  match s with
  | String c rest =>
      let n := N_of_ascii c in
      if ((48 <=? n) && (n <=? 57))%N then digits (acc * 10 + Z.of_N (n - 48)) rest
      else Some (acc, s)
  | EmptyString => Some (acc, s)
  end.

Fixpoint stripPrefix (p s : string) : option string :=
  match p, s with
  | EmptyString, _ => Some s
  | String a p', String b s' => if Ascii.eqb a b then stripPrefix p' s' else None
  | String _ _, EmptyString => None
  end.

Definition quoted (s : string) : string :=
  String dquote s +:+ String dquote EmptyString.

Definition sample_JSON_parse (s : string) : option json :=
  if String.eqb s "null" then Some JNull
  else
    match stripPrefix ("{" +:+ quoted "exp" +:+ ":") s with
    | Some (String c rest) =>
        match digits 0 (String c rest) with
        | Some (n, "}") =>
            if isSpace c || Ascii.eqb c "}" then None
            else Some (JObj [("exp", JNum n)])
        | _ => None
        end
    | _ => None
    end.

Fixpoint joinWith (sep : string) (l : list string) : string :=
  match l with
  | [] => EmptyString
  | [x] => x
  | x :: rest => x +:+ sep +:+ joinWith sep rest
  end.

Fixpoint sample_JSON_stringify (v : json) : string :=
  match v with
  | JNull => "null"
  | JBool b => if b then "true" else "false"
  | JNum n => pretty n
  | JStr s => quoted s
  | JArr l => "[" +:+ joinWith "," (map sample_JSON_stringify l) +:+ "]"
  | JObj ms =>
      "{" +:+ joinWith ","
                (map (fun kv => let '(k, x) := kv in
                                quoted k +:+ ":" +:+ sample_JSON_stringify x) ms)
          +:+ "}"
  end.

(** [trim] and [toLowerCase] of the sample host act on the ASCII range: the
    blanks are the bytes 9 to 13 and 32, the capitals [A] to [Z]. *)
Fixpoint sample_trimStart (s : string) : string :=
  match s with
  | EmptyString => EmptyString
  | String c s' => if isSpace c then sample_trimStart s' else s
  end.

Fixpoint sample_trimEnd (s : string) : string :=
  match s with
  | EmptyString => EmptyString
  | String c s' =>
      match sample_trimEnd s' with
      | EmptyString => if isSpace c then EmptyString else String c EmptyString
      | t => String c t
      end
  end.

Definition sample_trim (s : string) : string := sample_trimEnd (sample_trimStart s).

Definition sample_lowerChar (c : ascii) : ascii :=
  let n := N_of_ascii c in
  if ((65 <=? n) && (n <=? 90))%N then ascii_of_N (n + 32) else c.

Fixpoint sample_toLowerCase (s : string) : string :=
  match s with
  | EmptyString => EmptyString
  | String c s' => String (sample_lowerChar c) (sample_toLowerCase s')
  end.

Definition sampleHost : Platform :=
  {| atob := sample_atob;
     decodeURIComponent := sample_decodeURIComponent;
     JSON_parse := sample_JSON_parse;
     JSON_stringify := sample_JSON_stringify;
     ToNumber := fun _ => None;
     trim := sample_trim;
     toLowerCase := sample_toLowerCase |}.

(** A world for the examples: the two tokens in [localStorage], the time,
    and the answers the network is going to give. *)
Definition sampleWorld (access refresh : string) (now : Z)
    (answers : list (option response)) : World :=
  {| localStorage := <[ "abx_access" := access ]> (<[ "abx_refresh" := refresh ]> ∅);
     sessionInvalidated := false;
     currentUser := {| role := "HQ"; username := "u"; display_name := "U" |};
     factionDirectoryCache := emptyDirectory;
     clock := now;
     timers := [];
     network := answers;
     trace := [];
     unauthorizedCalls := 0 |}.

(** A token whose payload is the claim set with [exp] 1700000000. *)
Definition sampleToken : string := "h.eyJleHAiOjE3MDAwMDAwMDB9.s".

(** Answers of the network in the examples. *)
Definition okResponse (d : data) : option response :=
  Some {| status := 200; payload := Some d |}.

Definition statusOnly (code : Z) : option response :=
  Some {| status := code; payload := None |}.

(** The body of a fetch. *)
Definition bodyOf (e : event) : option (option string) :=
  match e with
  | EFetch _ rq _ => Some (body rq)
  | _ => None
  end.

(** A directory fetched at time 100. *)
Definition staleDirectory : directory :=
  snapshotOf [Some {| faction_id := 4; faction_name := "Crows" |}] 100.

(** ** Vocabulary of the statements *)

(** The events a computation adds to the trace. *)
Definition emittedBy {A} (m : M A) (w : World) : list event :=
  drop (length (trace w)) (trace (snd (m w))).

Definition siteOf (e : event) : option site :=
  match e with
  | EFetch s _ _ => Some s
  | _ => None
  end.

(** The sites of the fetches among some events, in order. *)
Definition sitesOf (evs : list event) : list site := omap siteOf evs.

Definition isMessage (e : event) : bool :=
  match e with EMessage _ _ => true | _ => false end.

Definition isSwitchTier (e : event) : bool :=
  match e with ESwitchTier _ => true | _ => false end.

(** The world a call of the session handler leaves. *)
Definition invalidated `{Platform} (message : string) (w : World) : World :=
  snd (handleUnauthorizedResponse message w).

(** What the user sees of a call of the session handler. *)
Definition uiEvents (message : string) (w : World) : list event :=
  if sessionInvalidated w then []
  else [ECloseModal; EHide "#shutdown-overlay"; ESwitchTier "login";
        EMessage message "error"].

(** The headers [api] sends with an access token. *)
Definition authHeaders (opts : options) (token : string) : gmap string string :=
  if nonEmpty token then bearer (jsonHeaders opts) token else jsonHeaders opts.

(** [tokens.access] and [tokens.refresh] as the world has them. *)
Definition storedAccess (w : World) : string :=
  default "" (localStorage w !! "abx_access").

Definition storedRefresh (w : World) : string :=
  default "" (localStorage w !! "abx_refresh").

(** What [api] may do on a 401, over the events [evs] of a run. *)
Definition retriedOnce (w : World) (run : outcome response * World) (evs : list event)
  : Prop :=
  trace (snd run) = trace w ++ evs
  /\ (exists p s,
         sitesOf evs = p ++ s
         /\ (p = [] \/ p = [ProactiveRefresh])
         /\ (s = [] \/ s = [Request] \/ s = [Request; ReactiveRefresh]
             \/ s = [Request; ReactiveRefresh; Retry]))
  /\ (forall rq res,
         In (EFetch Request rq (Some res)) evs -> status res = 401 ->
         (exists rq' retry,
             In (EFetch Retry rq' (Some retry)) evs /\ status retry <> 401
             /\ fst run = Return retry
             /\ unauthorizedCalls (snd run) = unauthorizedCalls w)
         \/ (unauthorizedCalls (snd run) = S (unauthorizedCalls w)
             /\ (fst run = Return res
                 \/ exists rq' retry,
                     In (EFetch Retry rq' (Some retry)) evs /\ status retry = 401
                     /\ fst run = Return retry))).

(** A refresh answer that [api] accepts: an ok response whose body has a
    non-empty [access]. *)
Definition usable (answer : option response) : bool :=
  match answer with
  | Some rf =>
      ok rf && match payload rf with
               | Some (DataToken access) => nonEmpty access
               | _ => false
               end
  | None => false
  end.

(** What follows a request answered 401 with [res], over the events [more]
    that come after it: with no refresh token the handler is called and
    [res] returned; otherwise the refresh endpoint is asked once, and only a
    usable answer is followed by the retry, which is the request again with
    the new token; a retry answered 401 or not answered calls the handler.
    The handler is called through [unauthorizedCalls]. *)
Definition afterUnauthorized `{Platform} (w : World) (run : outcome response * World)
    (path : string) (opts : options) (res : response) (more : list event) : Prop :=
  if nonEmpty (storedRefresh w) then
    exists ans more',
      more = EFetch ReactiveRefresh (refreshRequest (storedRefresh w)) ans :: more'
      /\ if usable ans then
           exists rf access ans2 ui,
             ans = Some rf /\ payload rf = Some (DataToken access)
             /\ more' = EFetch Retry (requestOf path opts (bearer (jsonHeaders opts) access))
                          ans2 :: ui
             /\ sitesOf ui = []
             /\ match ans2 with
                | Some retry =>
                    fst run = Return retry
                    /\ unauthorizedCalls (snd run)
                       = if status retry =? 401 then S (unauthorizedCalls w)
                         else unauthorizedCalls w
                | None =>
                    fst run = Return res
                    /\ unauthorizedCalls (snd run) = S (unauthorizedCalls w)
                end
         else
           sitesOf more' = [] /\ fst run = Return res
           /\ unauthorizedCalls (snd run) = S (unauthorizedCalls w)
  else
    sitesOf more = [] /\ fst run = Return res
    /\ unauthorizedCalls (snd run) = S (unauthorizedCalls w).

(** What a call of [api] leaves of the directory cache: nothing but the
    session handler touches it, and the handler empties it. *)
Definition cacheAfterApi (w w1 : World) : Prop :=
  (unauthorizedCalls w1 = unauthorizedCalls w ->
   factionDirectoryCache w1 = factionDirectoryCache w)
  /\ (sessionInvalidated w = false -> (unauthorizedCalls w < unauthorizedCalls w1)%nat ->
      factionDirectoryCache w1 = emptyDirectory)
  /\ (factionDirectoryCache w1 = factionDirectoryCache w
      \/ factionDirectoryCache w1 = emptyDirectory).

(** The same with the debounce flag, as the model runs it: no time passes
    inside a call. *)
Definition cacheKept (w w1 : World) : Prop :=
  (unauthorizedCalls w1 = unauthorizedCalls w
   /\ factionDirectoryCache w1 = factionDirectoryCache w
   /\ sessionInvalidated w1 = sessionInvalidated w)
  \/ ((unauthorizedCalls w < unauthorizedCalls w1)%nat
      /\ sessionInvalidated w1 = true
      /\ factionDirectoryCache w1
         = if sessionInvalidated w then factionDirectoryCache w else emptyDirectory).

(** A burst around the session handler: calls of it, and time passing. *)
Inductive tick : Type :=
| Invalidate (message : string)
| Wait (dt : Z).

Definition runTick `{Platform} (t : tick) (w : World) : World :=
  match t with
  | Invalidate message => snd (handleUnauthorizedResponse message w)
  | Wait dt => advance dt w
  end.

Definition runTicks `{Platform} (ts : list tick) (w : World) : World :=
  fold_left (fun w' t => runTick t w') ts w.

Definition waitOf (t : tick) : Z :=
  match t with
  | Invalidate _ => 0
  | Wait dt => dt
  end.

Definition waited (ts : list tick) : Z := fold_right (fun t acc => waitOf t + acc) 0 ts.

(** What the program can read of two worlds is the same: everything but the
    clock and the count of handler calls. *)
Definition sameSession (w1 w2 : World) : Prop :=
  localStorage w1 = localStorage w2
  /\ sessionInvalidated w1 = sessionInvalidated w2
  /\ currentUser w1 = currentUser w2
  /\ factionDirectoryCache w1 = factionDirectoryCache w2
  /\ timers w1 = timers w2
  /\ network w1 = network w2
  /\ trace w1 = trace w2.

(** What the user does in the roster dialog, and what comes back from the
    server while it is open. *)
Inductive action : Type :=
| Load (d : rosterData)
| Candidates (term : string) (answer : option (list row))
| MemberAff (profileId : Z) (value : string)
| MemberRemove (profileId : Z)
| CandidateAff (profileId : Z) (value : string)
| CandidateAdd (profileId : Z) (selected : string).

Definition step (st : roster) (a : action) : roster :=
  match a with
  | Load d => applyInitialData d st
  | Candidates term answer => loadCandidates term answer st
  | MemberAff profileId value => memberAffChange profileId value st
  | MemberRemove profileId => memberRemove profileId st
  | CandidateAff profileId value => candidateAffChange profileId value st
  | CandidateAdd profileId selected => candidateAdd profileId selected st
  end.

(** The dialog after a sequence of actions. *)
Definition after (acts : list action) : roster := fold_left step acts openedRoster.

(** No entry is new and removed at once. *)
Definition consistent (e : entry) : bool := negb (isNew e && isRemoved e).

(** An entry as the server listed it, untouched. *)
Definition pristine (ke : Z * entry) : Prop :=
  profile_id (snd ke) = fst ke /\ isNew (snd ke) = false /\ isRemoved (snd ke) = false
  /\ affiliation (snd ke) = originalAffiliation (snd ke).

Definition wellFormed (st : roster) : Prop :=
  NoDup (map fst (rosterState st))
  /\ Forall (fun e => consistent e = true) (Map_values (rosterState st)).

(** The computation [m] only adds to the trace. *)
Definition grows {A} (m : M A) : Prop :=
  forall w, exists evs, trace (snd (m w)) = trace w ++ evs.

(** The computation [m] commits [payload] to [path]: its events begin with
    those of the call [api(path, { method: 'POST', body:
    JSON.stringify(payload) })]; the request and the retry of that call are
    POSTs of [payload] to [path]; and the request is sent, unless the stored
    token is about to expire and [api] throws before it. *)
Definition commits `{Platform} {A} (m : M A) (w : World) (path : string) (payload : json)
  : Prop :=
  let call := api path (post payload) in
  (exists after, emittedBy m w = emittedBy call w ++ after)
  /\ (forall s rq a,
        In (EFetch s rq a) (emittedBy call w) -> s = Request \/ s = Retry ->
        url rq = path /\ method rq = Some "POST"
        /\ body rq = Some (JSON_stringify payload))
  /\ (In Request (sitesOf (emittedBy call w))
      \/ (nonEmpty (storedAccess w) && expiring (decodeJwt (storedAccess w)) (clock w) = true
          /\ exists e, fst (call w) = Throw e)).

(** ** More of the client *)

(** [function logout() { tokens.clear(); }] *)
Definition logout : M unit := tokens.clear.

(** The [logout] case of the click delegation. [showMessage] is called
    without a type, which is then ['info']. *)
Definition logoutAction `{Platform} : M unit :=
  logout ;;;
  userStore.clear ;;;
  modify (withUser {| role := ""; username := ""; display_name := "" |}) ;;;
  stateStore.del "abx_tier" ;;;
  stateStore.del "abx_page" ;;;
  stateStore.del "abx_profile_id" ;;;
  stateStore.del "abx_index_filters" ;;;
  switchTier "facade" ;;;
  closeModal ;;;
  hide "#shutdown-overlay" ;;;
  showMessage "Logged out." "info".

(** [s.replace(/c/g, by)] for a one-character pattern. *)
Fixpoint replaceAll (c : ascii) (by_ : string) (s : string) : string :=
  match s with
  | EmptyString => EmptyString
  | String a s' =>
      if Ascii.eqb a c then by_ +:+ replaceAll c by_ s'
      else String a (replaceAll c by_ s')
  end.

Definition escapeHtml (str : string) : string :=
  replaceAll "'" "&#39;"
    (replaceAll dquote "&quot;"
       (replaceAll ">" "&gt;"
          (replaceAll "<" "&lt;"
             (replaceAll "&" "&amp;" str)))).

(** What [escapeHtml] makes of one character. *)
Definition escapeChar (c : ascii) : string :=
  if Ascii.eqb c "&" then "&amp;"
  else if Ascii.eqb c "<" then "&lt;"
  else if Ascii.eqb c ">" then "&gt;"
  else if Ascii.eqb c dquote then "&quot;"
  else if Ascii.eqb c "'" then "&#39;"
  else String c EmptyString.

Fixpoint escapeEach (s : string) : string :=
  match s with
  | EmptyString => EmptyString
  | String c s' => escapeChar c +:+ escapeEach s'
  end.

Fixpoint occurs (c : ascii) (s : string) : bool :=
  match s with
  | EmptyString => false
  | String a s' => Ascii.eqb a c || occurs c s'
  end.

(** *** The ally and rival tags of the faction editor *)

Inductive kind : Type := Allies | Rivals.

(** The two editors' lists and the module variable [currentDiplomacyDraft]. *)
Record diplomacy : Type := {
  allies : list string;
  rivals : list string;
  draftAllies : list string;
  draftRivals : list string
}.

Definition listOf (k : kind) (e : diplomacy) : list string :=
  match k with Allies => allies e | Rivals => rivals e end.

Definition withList (k : kind) (l : list string) (e : diplomacy) : diplomacy :=
  match k with
  | Allies => {| allies := l; rivals := rivals e;
                 draftAllies := draftAllies e; draftRivals := draftRivals e |}
  | Rivals => {| allies := allies e; rivals := l;
                 draftAllies := draftAllies e; draftRivals := draftRivals e |}
  end.

Definition syncDraft (e : diplomacy) : diplomacy :=
  {| allies := allies e; rivals := rivals e;
     draftAllies := allies e; draftRivals := rivals e |}.

(** The editors as the faction form opens them on [f.allies] and [f.rivals]. *)
Definition openedDiplomacy (alliesList rivalsList : list string) : diplomacy :=
  syncDraft {| allies := alliesList; rivals := rivalsList;
               draftAllies := []; draftRivals := [] |}.

Definition sameTag `{Platform} (a b : string) : bool :=
  String.eqb (toLowerCase a) (toLowerCase b).

Definition addTag `{Platform} (k : kind) (raw : string) (e : diplomacy) : M diplomacy :=
  let* value := resolveFactionName raw in
  if nonEmpty value then
    if existsb (fun n => sameTag n value) (listOf k e) then ret e
    else ret (syncDraft (withList k (listOf k e ++ [value]) e))
  else ret e.

(** [editor.list.splice(index, 1)] behind its bounds check. *)
Definition removeTag (k : kind) (index : Z) (e : diplomacy) : diplomacy :=
  if (index <? 0) || (Z.of_nat (length (listOf k e)) <=? index) then e
  else
    let i := Z.to_nat index in
    syncDraft (withList k (take i (listOf k e) ++ drop (S i) (listOf k e)) e).

(** *** The operation personnel dialog *)

Record personnel : Type := {
  assigned : list (Z * agent);
  candidates : list (Z * string)              (* id, alias *)
}.

(** [loadData(query)] once answered with [data.assigned] and
    [data.candidates || []]. *)
Definition loadPersonnel (query : string) (answerAssigned : list agent)
    (answerCandidates : list (Z * string)) (st : personnel) : personnel :=
  {| assigned :=
       if nonEmpty query then assigned st
       else fold_left (fun m a => Map_set (agent_id a) a m) answerAssigned [];
     candidates := answerCandidates |}.

(** The [input] handler of the assigned list. *)
Definition roleInput (agentId : Z) (value : string) (st : personnel) : personnel :=
  match Map_get agentId (assigned st) with
  | Some a =>
      {| assigned :=
           Map_set agentId
             {| agent_id := agent_id a; alias := alias a; role_in_op := value |}
             (assigned st);
         candidates := candidates st |}
  | None => st
  end.

(** The [click] handler of the assigned list ([data-role="remove-agent"]). *)
Definition removeAgent (agentId : Z) (st : personnel) : personnel :=
  {| assigned := Map_delete agentId (assigned st); candidates := candidates st |}.

(** The [click] handler of the candidate list ([data-role="add-agent"]). *)
Definition addAgent (agentId : Z) (alias_ : string) (st : personnel) : personnel :=
  if Map_has agentId (assigned st) then st
  else
    {| assigned :=
         Map_set agentId
           {| agent_id := agentId; alias := alias_; role_in_op := "Field Agent" |}
           (assigned st);
       candidates := List.filter (fun c => negb (fst c =? agentId)) (candidates st) |}.

(** *** The operation targets dialog *)

(** [`${type}-${id}`] *)
Definition targetKey (type : string) (id : Z) : string := type +:+ "-" +:+ pretty id.

(** The [click] handler of the candidate list ([data-role="add-target"]). *)
Definition addTarget (id : Z) (name type : string) (m : list (string * target))
  : list (string * target) :=
  if Map_has (targetKey type id) m then m
  else Map_set (targetKey type id)
         {| target_id := id; target_name := name; target_type := type |} m.

(** The [click] handler of the assigned list ([data-role="remove-target"]). *)
Definition removeTarget (key : string) (m : list (string * target))
  : list (string * target) := Map_delete key m.

(** *** Actions of the personnel dialog *)

(** What the user does in the personnel dialog, and what comes back from the
    server while it is open. *)
Inductive personnelAction : Type :=
| PersonnelLoaded (query : string) (answerAssigned : list agent)
    (answerCandidates : list (Z * string))
| RoleInput (agentId : Z) (value : string)
| RemoveAgent (agentId : Z)
| AddAgent (agentId : Z) (alias_ : string).

Definition personnelStep (st : personnel) (a : personnelAction) : personnel :=
  match a with
  | PersonnelLoaded query answerAssigned answerCandidates =>
      loadPersonnel query answerAssigned answerCandidates st
  | RoleInput agentId value => roleInput agentId value st
  | RemoveAgent agentId => removeAgent agentId st
  | AddAgent agentId alias_ => addAgent agentId alias_ st
  end.

(** [state] as [openManagePersonnelModal] creates it. *)
Definition openedPersonnel : personnel := {| assigned := []; candidates := [] |}.

Definition personnelAfter (acts : list personnelAction) : personnel :=
  fold_left personnelStep acts openedPersonnel.

(** *** Actions of the tag editors *)

Inductive tagAction : Type :=
| AddTag (k : kind) (raw : string)
| RemoveTag (k : kind) (index : Z).

Definition tagStep `{Platform} (a : tagAction) (e : diplomacy) : M diplomacy :=
  match a with
  | AddTag k raw => addTag k raw e
  | RemoveTag k index => ret (removeTag k index e)
  end.

(** *** More vocabulary *)

(** The keys of [localStorage] that belong to the session. *)
Definition sessionKeys : list string :=
  ["abx_access"; "abx_refresh"; "abx_role"; "abx_username"; "abx_display_name";
   "abx_page"; "abx_profile_id"; "abx_index_filters"].

(** Every candidate on offer is absent from the roster or marked removed. *)
Definition candidatesOffered (st : roster) : Prop :=
  Forall (fun c => offered (rosterState st) c = true) (candidateCache st).

(** Every entry sits under its own profile id. *)
Definition keyed (m : list (Z * entry)) : Prop :=
  Forall (fun ke => profile_id (snd ke) = fst ke) m.

(** The profile ids a commit names, bucket after bucket. *)
Definition namedIn (d : buckets) : list Z :=
  map change_profile_id (add d) ++ map change_profile_id (updates d) ++ remove d.

Definition agentKeyed (m : list (Z * agent)) : Prop :=
  NoDup (map fst m) /\ Forall (fun ka => agent_id (snd ka) = fst ka) m.

(** The characters that open or close markup or an attribute value. *)
Definition markup (c : ascii) : bool :=
  Ascii.eqb c "<" || Ascii.eqb c ">" || Ascii.eqb c dquote || Ascii.eqb c "'".

(** No two tags of a list are equal up to case, and none is empty. *)
Definition distinctTags `{Platform} (l : list string) : Prop :=
  NoDup (map toLowerCase l) /\ Forall (fun n => n <> "") l.

(** Both lists are so, and the draft is the two lists. *)
Definition tidy `{Platform} (e : diplomacy) : Prop :=
  distinctTags (allies e) /\ distinctTags (rivals e)
  /\ draftAllies e = allies e /\ draftRivals e = rivals e.

(** * Properties *)

Arguments refreshRequest : simpl never.
Arguments requestOf : simpl never.
Arguments authHeaders : simpl never.
Arguments bearer : simpl never.
Arguments jsonHeaders : simpl never.
Arguments invalidated : simpl never.
Arguments uiEvents : simpl never.
Arguments expiring : simpl never.
Arguments decodeJwt : simpl never.
Arguments nonEmpty : simpl never.

(** ** Session invalidation *)

Section SessionFacts.
Context `{Platform}.

Lemma handleUnauthorizedResponse_returns (message : string) (w : World) :
  handleUnauthorizedResponse message w
  = (Return tt, snd (handleUnauthorizedResponse message w)).
Proof.
  unfold handleUnauthorizedResponse, bind, modify, gets; simpl.
  destruct (sessionInvalidated w); reflexivity.
Qed.

Lemma handleUnauthorizedResponse_open (message : string) (w : World) :
  sessionInvalidated w = true ->
  handleUnauthorizedResponse message w = (Return tt, countCall w).
Proof.
  intros Hinv. unfold handleUnauthorizedResponse, bind, modify, gets; simpl.
  rewrite Hinv. reflexivity.
Qed.

Lemma handleUnauthorizedResponse_closed (message : string) (w : World) :
  sessionInvalidated w = false ->
  let w1 := snd (handleUnauthorizedResponse message w) in
  trace w1 = trace w ++ [ECloseModal; EHide "#shutdown-overlay"; ESwitchTier "login";
                         EMessage message "error"]
  /\ localStorage w1 !! "abx_access" = None
  /\ localStorage w1 !! "abx_refresh" = None
  /\ currentUser w1 = {| role := ""; username := ""; display_name := "" |}
  /\ factionDirectoryCache w1 = emptyDirectory
  /\ sessionInvalidated w1 = true
  /\ timers w1 = timers w ++ [(clock w + 1500, ResetSessionInvalidated)]
  /\ clock w1 = clock w
  /\ network w1 = network w.
Proof.
  intros Hinv. unfold handleUnauthorizedResponse, bind, modify, gets; simpl.
  rewrite Hinv. simpl.
  repeat split.
  - rewrite <- !app_assoc. reflexivity.
  - rewrite lookup_insert_ne by done. rewrite !lookup_delete_ne by done.
    apply lookup_delete_eq.
  - rewrite lookup_insert_ne by done. rewrite !lookup_delete_ne by done.
    apply lookup_delete_eq.
Qed.

Lemma sameSession_refl (w : World) : sameSession w w.
Proof. repeat split. Qed.

Lemma sameSession_trans (w1 w2 w3 : World) :
  sameSession w1 w2 -> sameSession w2 w3 -> sameSession w1 w3.
Proof.
  unfold sameSession. intros (?&?&?&?&?&?&?) (?&?&?&?&?&?&?).
  repeat split; congruence.
Qed.

(** While the one pending reset is still in the future, a tick of the burst
    changes nothing the program can read. *)
Lemma runTick_window (t : tick) (w : World) (due : Z) :
  sessionInvalidated w = true ->
  timers w = [(due, ResetSessionInvalidated)] ->
  0 <= waitOf t ->
  clock w + waitOf t < due ->
  sameSession w (runTick t w) /\ clock (runTick t w) = clock w + waitOf t.
Proof.
  intros Hinv Htm Hpos Hlt. destruct t as [message | dt]; simpl in *.
  - rewrite handleUnauthorizedResponse_open by assumption. simpl.
    split; [repeat split | simpl; lia].
  - unfold advance. rewrite Htm. simpl. unfold isDue. simpl.
    destruct (Z.leb_spec due (clock w + dt)) as [Hle | Hgt]; [lia |].
    simpl. split; [| reflexivity].
    unfold sameSession. simpl. rewrite Htm. repeat split.
Qed.

Lemma runTicks_window (ts : list tick) (w : World) (due : Z) :
  sessionInvalidated w = true ->
  timers w = [(due, ResetSessionInvalidated)] ->
  Forall (fun t => 0 <= waitOf t) ts ->
  clock w + waited ts < due ->
  sameSession w (runTicks ts w) /\ clock (runTicks ts w) = clock w + waited ts.
Proof.
  revert w. induction ts as [| t ts IH]; intros w Hinv Htm Hpos Hlt; simpl in *.
  - split; [apply sameSession_refl | lia].
  - inversion Hpos as [| ? ? Ht Hts]; subst.
    assert (Hw : 0 <= waited ts).
    { clear -Hts. induction Hts; simpl; lia. }
    destruct (runTick_window t w due Hinv Htm Ht) as [Hsame Hclock]; [lia |].
    pose proof Hsame as (_ & Hi & _ & _ & Hti & _).
    destruct (IH (runTick t w)) as [Hsame' Hclock'].
    + congruence.
    + congruence.
    + assumption.
    + lia.
    + split; [eapply sameSession_trans; eassumption | lia].
Qed.

Lemma advance_fires (w : World) (due dt : Z) :
  timers w = [(due, ResetSessionInvalidated)] ->
  due <= clock w + dt ->
  sessionInvalidated (advance dt w) = false /\ timers (advance dt w) = [].
Proof.
  intros Htm Hle. unfold advance. rewrite Htm. simpl. unfold isDue. simpl.
  destruct (Z.leb_spec due (clock w + dt)) as [_ | Hgt]; [| lia].
  simpl. split; reflexivity.
Qed.

(** C4. Within the 1.5 s after a call of [handleUnauthorizedResponse] that
    found the flag down, every further call is a no-op: whatever calls and
    waits follow, the tokens stay cleared, the directory stays empty, and
    the trace holds the one close, hide, tier switch and message of the
    first call; 1500 ms after the first call the flag is down again. *)
Theorem handleUnauthorizedResponse_debounced (w : World) (message : string) (ts : list tick) :
  sessionInvalidated w = false ->
  timers w = [] ->
  Forall (fun t => 0 <= waitOf t) ts ->
  waited ts < 1500 ->
  let w1 := snd (handleUnauthorizedResponse message w) in
  let w2 := runTicks ts w1 in
  (forall message', handleUnauthorizedResponse message' w2 = (Return tt, countCall w2))
  /\ trace w2 = trace w ++ [ECloseModal; EHide "#shutdown-overlay"; ESwitchTier "login";
                            EMessage message "error"]
  /\ localStorage w1 !! "abx_access" = None
  /\ localStorage w1 !! "abx_refresh" = None
  /\ factionDirectoryCache w1 = emptyDirectory
  /\ sameSession w1 w2
  /\ sessionInvalidated w2 = true
  /\ sessionInvalidated (advance (1500 - waited ts) w2) = false.
Proof.
  intros Hinv Htm Hpos Hlt w1 w2.
  destruct (handleUnauthorizedResponse_closed message w Hinv)
    as (Htr & Ha & Hr & _ & Hdir & Hinv1 & Htm1 & Hclk1 & _).
  fold w1 in Htr, Ha, Hr, Hdir, Hinv1, Htm1, Hclk1.
  rewrite Htm in Htm1. simpl in Htm1.
  destruct (runTicks_window ts w1 (clock w + 1500) Hinv1 Htm1 Hpos) as [Hsame Hclk2];
    [lia |].
  fold w2 in Hsame, Hclk2.
  pose proof Hsame as (_ & Hi & _ & _ & Hti & _ & Htr2).
  assert (Hinv2 : sessionInvalidated w2 = true) by congruence.
  repeat split; try assumption; try apply Hsame.
  - intros message'. apply handleUnauthorizedResponse_open. exact Hinv2.
  - congruence.
  - apply (advance_fires w2 (clock w + 1500)); [congruence | lia].
Qed.

Lemma handleUnauthorizedResponse_run message w :
  handleUnauthorizedResponse message w = (Return tt, invalidated message w).
Proof. unfold invalidated. apply handleUnauthorizedResponse_returns. Qed.

Lemma invalidated_trace message w :
  trace (invalidated message w) = trace w ++ uiEvents message w.
Proof.
  unfold invalidated, handleUnauthorizedResponse, uiEvents, bind, modify, gets; simpl.
  destruct (sessionInvalidated w); simpl.
  - now rewrite app_nil_r.
  - now rewrite <- !app_assoc.
Qed.

Lemma invalidated_calls message w :
  unauthorizedCalls (invalidated message w) = S (unauthorizedCalls w).
Proof.
  unfold invalidated, handleUnauthorizedResponse, bind, modify, gets; simpl.
  destruct (sessionInvalidated w); reflexivity.
Qed.

Lemma invalidated_network message w :
  network (invalidated message w) = network w.
Proof.
  unfold invalidated, handleUnauthorizedResponse, bind, modify, gets; simpl.
  destruct (sessionInvalidated w); reflexivity.
Qed.

Lemma sitesOf_uiEvents message w : sitesOf (uiEvents message w) = [].
Proof. unfold uiEvents. destruct (sessionInvalidated w); reflexivity. Qed.

Lemma uiEvents_no_fetch message w s rq a : ~ In (EFetch s rq a) (uiEvents message w).
Proof.
  unfold uiEvents. destruct (sessionInvalidated w); simpl; intuition discriminate.
Qed.

End SessionFacts.

(** ** Running a computation symbolically *)

Lemma sitesOf_fetch s rq a l : sitesOf (EFetch s rq a :: l) = s :: sitesOf l.
Proof. reflexivity. Qed.

Lemma sitesOf_app l1 l2 : sitesOf (l1 ++ l2) = sitesOf l1 ++ sitesOf l2.
Proof. apply omap_app. Qed.

Lemma sitesOf_nil : sitesOf [] = [].
Proof. reflexivity. Qed.

Lemma In_sitesOf s rq a l : In (EFetch s rq a) l -> In s (sitesOf l).
Proof.
  induction l as [| e l IH]; simpl; [tauto |].
  intros [-> | Hin]; [left; reflexivity |].
  destruct e; simpl; auto.
Qed.

Lemma emittedBy_spec {A} (m : M A) (w : World) (evs : list event) :
  trace (snd (m w)) = trace w ++ evs -> emittedBy m w = evs.
Proof. intros Htr. unfold emittedBy. rewrite Htr. apply drop_app_length. Qed.

(** Unfold the monad and split on every test the computation makes. *)
Ltac run_js :=
  unfold bind, ret, throw, tryCatch, gets, modify, when, fetch, json_of, access_of,
    tokens.access, tokens.refresh, tokens.set_access, getItem, setItem;
  simpl;
  repeat first
    [ rewrite handleUnauthorizedResponse_run; simpl
    | match goal with
      | |- context [match ?x with _ => _ end] =>
          lazymatch x with
          | context [match _ with _ => _ end] => fail
          | _ => destruct x eqn:?; simpl
          end
      end ].

Ltac tidy_world :=
  rewrite ?invalidated_trace, ?invalidated_calls, ?invalidated_network; simpl;
  rewrite <- ?app_assoc; simpl.

Ltac no_fetch_in H :=
  repeat (destruct H as [H | H]; [inversion H; subst; clear H |]);
  try solve [destruct H | exfalso; eapply uiEvents_no_fetch; eassumption].

(** ** The request helper *)

Section ApiFacts.
Context `{Platform}.

Lemma sendWithRetry_run path opts tok w :
  let run := sendWithRetry path opts tok w in
  exists ans rest,
    trace (snd run)
    = trace w ++ EFetch Request (requestOf path opts (authHeaders opts tok)) ans :: rest
    /\ (sitesOf rest = [] \/ sitesOf rest = [ReactiveRefresh]
        \/ sitesOf rest = [ReactiveRefresh; Retry])
    /\ (forall s rq a, In (EFetch s rq a) rest -> s = Retry ->
          url rq = path /\ method rq = opt_method opts /\ body rq = opt_body opts)
    /\ match ans with
       | None =>
           fst run = Throw TypeError /\ rest = []
           /\ unauthorizedCalls (snd run) = unauthorizedCalls w
       | Some res =>
           if status res =? 401 then
             (exists rq retry,
                 In (EFetch Retry rq (Some retry)) rest
                 /\ (status retry =? 401) = false
                 /\ fst run = Return retry
                 /\ unauthorizedCalls (snd run) = unauthorizedCalls w)
             \/ (unauthorizedCalls (snd run) = S (unauthorizedCalls w)
                 /\ (fst run = Return res
                     \/ exists rq retry,
                         In (EFetch Retry rq (Some retry)) rest
                         /\ (status retry =? 401) = true
                         /\ fst run = Return retry))
           else
             fst run = Return res /\ rest = []
             /\ unauthorizedCalls (snd run) = unauthorizedCalls w
       end.
Proof.
  unfold sendWithRetry. fold (authHeaders opts tok).
  run_js.
  all: tidy_world.
  all: do 2 eexists; split; [reflexivity |].
  all: rewrite ?sitesOf_fetch, ?sitesOf_uiEvents.
  all: (split; [auto |]).
  all: (split; [intros s' rq' a' Hin ->; simpl in Hin; no_fetch_in Hin; auto |]).
  all: repeat match goal with
              | Hs : (status ?r =? 401) = _
                |- context [if status ?r =? 401 then _ else _] => rewrite Hs
              end.
  all: try solve [repeat split; auto].
  all: try solve [right; split; [reflexivity | left; reflexivity]].
  - right. split; [reflexivity |]. right. do 2 eexists.
    split; [right; left; reflexivity |]. split; [assumption | reflexivity].
  - left. do 2 eexists. split; [right; left; reflexivity |].
    repeat split; assumption.
Qed.

Lemma refreshIfExpiring_run tok0 w :
  let run := refreshIfExpiring tok0 w in
  let refresh := default "" (localStorage w !! "abx_refresh") in
  if nonEmpty tok0 && expiring (decodeJwt tok0) (clock w) then
    if nonEmpty refresh then
      exists ans rest,
        trace (snd run) = trace w ++ EFetch ProactiveRefresh (refreshRequest refresh) ans :: rest
        /\ sitesOf rest = []
        /\ ((exists access,
                fst run = Return access /\ nonEmpty access = true /\ rest = []
                /\ unauthorizedCalls (snd run) = unauthorizedCalls w
                /\ localStorage (snd run) = <[ "abx_access" := access ]> (localStorage w))
            \/ (exists e, fst run = Throw e
                          /\ (unauthorizedCalls w < unauthorizedCalls (snd run))%nat))
    else
      fst run = Throw (Error "Session expired.")
      /\ trace (snd run) = trace w ++ uiEvents sessionExpiredMessage w
      /\ unauthorizedCalls (snd run) = S (unauthorizedCalls w)
  else run = (Return tok0, w).
Proof.
  unfold refreshIfExpiring.
  run_js.
  all: try (simpl in *; congruence).
  all: tidy_world.
  all: try reflexivity.
  all: try (do 2 eexists; split; [reflexivity |]).
  all: rewrite ?sitesOf_app, ?sitesOf_fetch, ?sitesOf_uiEvents, ?sitesOf_nil.
  all: try solve [repeat split; auto].
  all: try solve [split; [reflexivity |]; right; eexists; split; [reflexivity | lia]].
  all: try solve [split; [reflexivity |]; left; eexists; repeat split; auto].
Qed.

Lemma api_blocks path opts w :
  api path opts w
  = match refreshIfExpiring (storedAccess w) w with
    | (Return accessToken, w1) => sendWithRetry path opts accessToken w1
    | (Throw e, w1) => (Throw e, w1)
    end.
Proof. reflexivity. Qed.

Lemma api_no_refresh path opts w :
  nonEmpty (storedAccess w) && expiring (decodeJwt (storedAccess w)) (clock w) = false ->
  api path opts w = sendWithRetry path opts (storedAccess w) w.
Proof.
  intros Hc. rewrite api_blocks.
  pose proof (refreshIfExpiring_run (storedAccess w) w) as Hrun. simpl in Hrun.
  rewrite Hc in Hrun. rewrite Hrun. reflexivity.
Qed.

Lemma expiring_null now : expiring JNull now = false.
Proof. reflexivity. Qed.

(** C1 (amended). When [decodeJwt] gives [null] for the stored access token,
    [api] does not refresh first and does not throw from the decoding: it
    is the request block run with the token as it is, so the first thing it
    does is the request with [Authorization: Bearer <token>], and no
    proactive refresh is among its fetches. *)
Theorem api_undecodable_token_sent_as_is path opts w :
  nonEmpty (storedAccess w) = true ->
  decodeJwt (storedAccess w) = JNull ->
  api path opts w = sendWithRetry path opts (storedAccess w) w
  /\ exists ans rest,
      emittedBy (api path opts) w
      = EFetch Request
          (requestOf path opts (bearer (jsonHeaders opts) (storedAccess w))) ans :: rest
      /\ ~ In ProactiveRefresh (sitesOf (emittedBy (api path opts) w)).
Proof.
  intros Htok Hdec.
  assert (Heq : api path opts w = sendWithRetry path opts (storedAccess w) w).
  { apply api_no_refresh. rewrite Hdec, expiring_null. apply andb_false_r. }
  split; [exact Heq |].
  destruct (sendWithRetry_run path opts (storedAccess w) w) as (ans & rest & Htr & Hs & _).
  unfold authHeaders in Htr. rewrite Htok in Htr.
  exists ans, rest.
  assert (Hem : emittedBy (api path opts) w
                = EFetch Request
                    (requestOf path opts (bearer (jsonHeaders opts) (storedAccess w))) ans
                    :: rest).
  { apply emittedBy_spec. rewrite Heq. exact Htr. }
  split; [exact Hem |].
  rewrite Hem, sitesOf_fetch. simpl.
  destruct Hs as [-> | [-> | ->]]; simpl; intuition discriminate.
Qed.

Lemma expiring_exp v e now :
  member "exp" v = Some (JNum e) -> expiring v now = (e * 1000 <? now + 60000).
Proof.
  intros Hm. unfold expiring. rewrite Hm.
  destruct v; simpl in Hm; try discriminate. reflexivity.
Qed.

(** What [api] leaves in the trace, by the outcome of its first block. *)
Lemma api_run path opts w :
  let run := api path opts w in
  let expired :=
    nonEmpty (storedAccess w) && expiring (decodeJwt (storedAccess w)) (clock w) in
  (expired = false /\ run = sendWithRetry path opts (storedAccess w) w)
  \/ (expired = true /\ nonEmpty (storedRefresh w) = false
      /\ (exists e, fst run = Throw e)
      /\ trace (snd run) = trace w ++ uiEvents sessionExpiredMessage w
      /\ unauthorizedCalls (snd run) = S (unauthorizedCalls w))
  \/ (expired = true /\ nonEmpty (storedRefresh w) = true
      /\ exists ans rest,
          (exists e, fst run = Throw e)
          /\ trace (snd run)
             = trace w
               ++ EFetch ProactiveRefresh (refreshRequest (storedRefresh w)) ans :: rest
          /\ sitesOf rest = []
          /\ (unauthorizedCalls w < unauthorizedCalls (snd run))%nat)
  \/ (expired = true /\ nonEmpty (storedRefresh w) = true
      /\ exists ans access w1,
          trace w1
          = trace w ++ [EFetch ProactiveRefresh (refreshRequest (storedRefresh w)) ans]
          /\ unauthorizedCalls w1 = unauthorizedCalls w
          /\ nonEmpty access = true
          /\ run = sendWithRetry path opts access w1).
Proof.
  intros run expired. subst run. rewrite api_blocks.
  pose proof (refreshIfExpiring_run (storedAccess w) w) as Hrun. simpl in Hrun.
  fold (storedRefresh w) in Hrun. fold expired in Hrun.
  destruct expired.
  - destruct (nonEmpty (storedRefresh w)) eqn:Href.
    + destruct Hrun as (ans & rest & Htr & Hs & [Hok | Hthrow]).
      * destruct Hok as (access & Hret & Hne & -> & Hcalls & _).
        right; right; right. repeat split.
        destruct (refreshIfExpiring (storedAccess w) w) as [o w1]. simpl in *. subst o.
        exists ans, access, w1. repeat split; assumption.
      * destruct Hthrow as (e & Hthrow & Hcalls).
        right; right; left. repeat split.
        destruct (refreshIfExpiring (storedAccess w) w) as [o w1]. simpl in *. subst o.
        exists ans, rest. simpl. repeat split; eauto.
    + destruct Hrun as (Hthrow & Htr & Hcalls).
      right; left. repeat split.
      all: destruct (refreshIfExpiring (storedAccess w) w) as [o w1]; simpl in *; subst o;
        simpl; eauto.
  - left. rewrite Hrun. split; reflexivity.
Qed.

(** C2. With a stored access token whose decoded claims carry a number [exp]
    and a refresh token present, [api] makes the proactive refresh call if
    and only if [exp * 1000 < Date.now() + 60000], and then that call is the
    first thing it does, ahead of the request. *)
Theorem api_refreshes_iff_expiring path opts w e :
  nonEmpty (storedAccess w) = true ->
  member "exp" (decodeJwt (storedAccess w)) = Some (JNum e) ->
  nonEmpty (storedRefresh w) = true ->
  (In ProactiveRefresh (sitesOf (emittedBy (api path opts) w))
   <-> e * 1000 < clock w + 60000)
  /\ (e * 1000 < clock w + 60000 ->
      exists ans rest,
        emittedBy (api path opts) w
        = EFetch ProactiveRefresh (refreshRequest (storedRefresh w)) ans :: rest).
Proof.
  intros Htok Hexp Href.
  pose proof (api_run path opts w) as Hrun. simpl in Hrun.
  rewrite Htok, (expiring_exp _ e _ Hexp) in Hrun. simpl in Hrun.
  destruct (Z.ltb_spec (e * 1000) (clock w + 60000)) as [Hlt | Hge].
  - assert (Hfirst : exists ans rest,
               emittedBy (api path opts) w
               = EFetch ProactiveRefresh (refreshRequest (storedRefresh w)) ans :: rest).
    { destruct Hrun as [[Hc _] | [(_ & Hc & _) | [Hrun | Hrun]]]; try congruence.
      - destruct Hrun as (_ & _ & ans & rest & _ & Htr & _).
        exists ans, rest. apply emittedBy_spec. exact Htr.
      - destruct Hrun as (_ & _ & ans & access & w1 & Htr1 & _ & _ & Heq).
        destruct (sendWithRetry_run path opts access w1) as (a2 & r2 & Htr2 & _).
        exists ans. eexists. apply emittedBy_spec. rewrite Heq, Htr2, Htr1.
        rewrite <- app_assoc. reflexivity. }
    split; [| intros _; exact Hfirst].
    split; [intros _; exact Hlt |]. intros _.
    destruct Hfirst as (ans & rest & ->). rewrite sitesOf_fetch. left. reflexivity.
  - split; [| intros Hlt; lia].
    split; [| intros Hlt; lia]. intros Hin. exfalso.
    destruct Hrun as [[_ Heq] | [(Hc & _) | [(Hc & _) | (Hc & _)]]]; try congruence.
    destruct (sendWithRetry_run path opts (storedAccess w) w) as (a2 & r2 & Htr2 & Hs & _).
    rewrite (emittedBy_spec (api path opts) w _ (eq_trans (f_equal (fun r => trace (snd r)) Heq) Htr2)) in Hin.
    rewrite sitesOf_fetch in Hin.
    destruct Hs as [Hs | [Hs | Hs]]; rewrite Hs in Hin; simpl in Hin;
      intuition discriminate.
Qed.

Lemma sendWithRetry_retriedOnce path opts tok w w1 pre :
  trace w1 = trace w ++ pre ->
  sitesOf pre = [] \/ sitesOf pre = [ProactiveRefresh] ->
  unauthorizedCalls w1 = unauthorizedCalls w ->
  exists evs, retriedOnce w (sendWithRetry path opts tok w1) evs.
Proof.
  intros Htr1 Hpre Hcalls.
  destruct (sendWithRetry_run path opts tok w1) as (ans & rest & Htr & Hs & _ & Hans).
  exists (pre ++ EFetch Request (requestOf path opts (authHeaders opts tok)) ans :: rest).
  split; [| split].
  - rewrite Htr, Htr1, <- app_assoc. reflexivity.
  - exists (sitesOf pre), (Request :: sitesOf rest).
    rewrite sitesOf_app, sitesOf_fetch. split; [reflexivity |]. split; [exact Hpre |].
    destruct Hs as [-> | [-> | ->]]; auto.
  - intros rq res Hin H401.
    assert (Hnot : forall l, (sitesOf l = [] \/ sitesOf l = [ProactiveRefresh]
                              \/ sitesOf l = [ReactiveRefresh]
                              \/ sitesOf l = [ReactiveRefresh; Retry]) ->
                             ~ In (EFetch Request rq (Some res)) l).
    { intros l Hl Hinl. apply In_sitesOf in Hinl.
      destruct Hl as [Hl | [Hl | [Hl | Hl]]]; rewrite Hl in Hinl; simpl in Hinl;
        intuition discriminate. }
    apply in_app_or in Hin. destruct Hin as [Hin | [Heq | Hin]].
    + exfalso. apply (Hnot pre); [tauto | exact Hin].
    + inversion Heq; subst. simpl in Hans.
      rewrite (proj2 (Z.eqb_eq _ _) H401) in Hans. rewrite Hcalls in Hans.
      destruct Hans as [(rq' & retry & Hin' & Hst & Hret & Hc) | (Hc & Hret)].
      * left. exists rq', retry. repeat split; auto.
        -- apply in_or_app. right. right. exact Hin'.
        -- apply Z.eqb_neq. exact Hst.
      * right. split; [exact Hc |].
        destruct Hret as [Hret | (rq' & retry & Hin' & Hst & Hret)]; [left; exact Hret |].
        right. exists rq', retry. repeat split; auto.
        -- apply in_or_app. right. right. exact Hin'.
        -- apply Z.eqb_eq. exact Hst.
    + exfalso. apply (Hnot rest); [tauto | exact Hin].
Qed.

Lemma api_events path opts w : exists evs, retriedOnce w (api path opts w) evs.
Proof.
  pose proof (api_run path opts w) as Hrun. simpl in Hrun.
  destruct Hrun as [[_ Heq] | [Hrun | [Hrun | Hrun]]].
  - rewrite Heq. apply (sendWithRetry_retriedOnce path opts _ w w []); auto.
    now rewrite app_nil_r.
  - destruct Hrun as (_ & _ & _ & Htr & _).
    exists (uiEvents sessionExpiredMessage w). split; [exact Htr |]. split.
    + exists [], []. rewrite sitesOf_uiEvents. auto.
    + intros rq res Hin. exfalso. eapply uiEvents_no_fetch; eassumption.
  - destruct Hrun as (_ & _ & ans & rest & _ & Htr & Hs & _).
    eexists. split; [exact Htr |]. split.
    + exists [ProactiveRefresh], []. rewrite sitesOf_fetch, Hs. auto.
    + intros rq res Hin. exfalso. apply In_sitesOf in Hin.
      rewrite sitesOf_fetch, Hs in Hin. simpl in Hin. intuition discriminate.
  - destruct Hrun as (_ & _ & ans & access & w1 & Htr1 & Hcalls & _ & Heq).
    rewrite Heq. eapply sendWithRetry_retriedOnce; eauto.
Qed.

Lemma sendWithRetry_shape path opts tok w :
  let run := sendWithRetry path opts tok w in
  exists ans more,
    trace (snd run)
    = trace w ++ EFetch Request (requestOf path opts (authHeaders opts tok)) ans :: more
    /\ match ans with
       | Some res =>
           if status res =? 401 then afterUnauthorized w run path opts res more
           else more = [] /\ fst run = Return res
                /\ unauthorizedCalls (snd run) = unauthorizedCalls w
       | None =>
           more = [] /\ fst run = Throw TypeError
           /\ unauthorizedCalls (snd run) = unauthorizedCalls w
       end.
Proof.
  unfold sendWithRetry, afterUnauthorized, storedRefresh. fold (authHeaders opts tok).
  run_js.
  all: tidy_world.
  all: do 2 eexists; split; [reflexivity |].
  all: cbv beta iota.
  all: repeat match goal with
              | Hs : (status ?r =? 401) = _
                |- context [if status ?r =? 401 then _ else _] => rewrite Hs
              | Hs : nonEmpty ?r = _ |- context [if nonEmpty ?r then _ else _] => rewrite Hs
              end.
  all: try solve [repeat split; auto].
  all: try solve [repeat split; rewrite ?sitesOf_uiEvents; auto].
  all: do 2 eexists; (split; [reflexivity |]).
  all: unfold usable; simpl.
  all: repeat match goal with
              | Hs : ?x = _ |- context [?x] => rewrite Hs
              end; simpl.
  all: try solve [repeat split; rewrite ?sitesOf_uiEvents; auto].
  all: do 4 eexists; (split; [reflexivity |]); (split; [eassumption || reflexivity |]).
  all: rewrite ?lookup_insert_eq; simpl.
  all: (split; [reflexivity |]).
  all: repeat match goal with
              | Hs : ?x = _ |- context [?x] => rewrite Hs
              end; simpl.
  all: repeat split; rewrite ?sitesOf_uiEvents; auto.
  all: repeat match goal with
              | Hs : (status _ =? 401) = _ |- _ => rewrite Hs
              end; reflexivity.
Qed.

Lemma refreshIfExpiring_outcome tok0 w :
  let run := refreshIfExpiring tok0 w in
  exists pre,
    trace (snd run) = trace w ++ pre
    /\ match fst run with
       | Return _ =>
           (sitesOf pre = [] \/ sitesOf pre = [ProactiveRefresh])
           /\ storedRefresh (snd run) = storedRefresh w
           /\ unauthorizedCalls (snd run) = unauthorizedCalls w
       | Throw _ => sitesOf pre = [] \/ sitesOf pre = [ProactiveRefresh]
       end.
Proof.
  pose proof (refreshIfExpiring_run tok0 w) as Hrun. simpl in Hrun. simpl.
  destruct (nonEmpty tok0 && expiring (decodeJwt tok0) (clock w)).
  - destruct (nonEmpty (default "" (localStorage w !! "abx_refresh"))).
    + destruct Hrun as (ans & rest & Htr & Hs & [Hok | Hthrow]).
      * destruct Hok as (access & Hret & _ & -> & Hcalls & Hst).
        eexists. split; [exact Htr |]. rewrite Hret. split; [right; reflexivity |].
        split; [| exact Hcalls]. unfold storedRefresh. rewrite Hst.
        rewrite lookup_insert_ne by discriminate. reflexivity.
      * destruct Hthrow as (e & Hthrow & _).
        eexists. split; [exact Htr |]. rewrite Hthrow, sitesOf_fetch, Hs.
        right. reflexivity.
    + destruct Hrun as (Hthrow & Htr & _).
      eexists. split; [exact Htr |]. rewrite Hthrow, sitesOf_uiEvents. left. reflexivity.
  - rewrite Hrun. exists []. simpl. rewrite app_nil_r. auto.
Qed.

Lemma afterUnauthorized_from w w1 run path opts res more :
  storedRefresh w1 = storedRefresh w -> unauthorizedCalls w1 = unauthorizedCalls w ->
  afterUnauthorized w1 run path opts res more -> afterUnauthorized w run path opts res more.
Proof. unfold afterUnauthorized. intros -> ->. exact (fun H => H). Qed.

Lemma api_unauthorized path opts w rq res :
  In (EFetch Request rq (Some res)) (emittedBy (api path opts) w) -> status res = 401 ->
  exists pre more tok,
    emittedBy (api path opts) w = pre ++ EFetch Request rq (Some res) :: more
    /\ (sitesOf pre = [] \/ sitesOf pre = [ProactiveRefresh])
    /\ rq = requestOf path opts (authHeaders opts tok)
    /\ afterUnauthorized w (api path opts w) path opts res more.
Proof.
  intros Hin H401.
  destruct (refreshIfExpiring_outcome (storedAccess w) w) as (pre & Htr1 & Hout).
  simpl in Htr1, Hout. revert Hin. rewrite api_blocks.
  assert (Hem : forall r,
             api path opts w = r ->
             forall evs, trace (snd r) = trace w ++ evs -> emittedBy (api path opts) w = evs).
  { intros r <- evs Hevs. apply emittedBy_spec. exact Hevs. }
  specialize (Hem _ (api_blocks path opts w)).
  destruct (refreshIfExpiring (storedAccess w) w) as [[tok | e] w1]; simpl in *.
  - destruct Hout as (Hpre & Href & Hcalls).
    destruct (sendWithRetry_shape path opts tok w1) as (ans & more & Htr & Hshape).
    destruct (sendWithRetry_run path opts tok w1) as (ans' & rest & Htr' & Hs & _).
    simpl in Htr, Hshape, Htr'.
    assert (Hsame : ans' = ans /\ rest = more).
    { rewrite Htr in Htr'. apply app_inv_head in Htr'. inversion Htr'. auto. }
    destruct Hsame as [-> ->].
    rewrite (Hem (pre ++ EFetch Request (requestOf path opts (authHeaders opts tok)) ans
                      :: more))
      by (rewrite Htr, Htr1, <- app_assoc; reflexivity).
    intros Hin. apply in_app_or in Hin. destruct Hin as [Hin | [Heq | Hin]].
    + exfalso. apply In_sitesOf in Hin.
      destruct Hpre as [Hp | Hp]; rewrite Hp in Hin; simpl in Hin; intuition discriminate.
    + inversion Heq; subst. exists pre, more, tok.
      split; [reflexivity |]. split; [exact Hpre |]. split; [reflexivity |].
      rewrite (proj2 (Z.eqb_eq _ _) H401) in Hshape.
      eapply afterUnauthorized_from; eassumption.
    + exfalso. apply In_sitesOf in Hin.
      destruct Hs as [Hp | [Hp | Hp]]; rewrite Hp in Hin; simpl in Hin;
        intuition discriminate.
  - rewrite (Hem pre Htr1). intros Hin. exfalso. apply In_sitesOf in Hin.
    destruct Hout as [Hp | Hp]; rewrite Hp in Hin; simpl in Hin; intuition discriminate.
Qed.

(** C3. A call of [api] fetches at most once from each of its four places,
    in the order proactive refresh, request, reactive refresh, retry. When
    the request is answered 401: with no refresh token stored the handler is
    called, nothing more is fetched and the 401 answer is returned; with one,
    the refresh endpoint is asked once; if its answer is not usable the
    handler is called, there is no retry and the 401 answer is returned; if
    it is, the request is sent once more, the same but for the new bearer
    token, and its answer is returned, the handler being called exactly when
    that answer is a 401 again; if the retry gets no answer the handler is
    called and the first 401 is returned. *)
Theorem api_retries_once path opts w :
  retriedOnce w (api path opts w) (emittedBy (api path opts) w)
  /\ forall rq res,
       In (EFetch Request rq (Some res)) (emittedBy (api path opts) w) ->
       status res = 401 ->
       exists pre more tok,
         emittedBy (api path opts) w = pre ++ EFetch Request rq (Some res) :: more
         /\ (sitesOf pre = [] \/ sitesOf pre = [ProactiveRefresh])
         /\ rq = requestOf path opts (authHeaders opts tok)
         /\ afterUnauthorized w (api path opts w) path opts res more.
Proof.
  split; [| apply api_unauthorized].
  destruct (api_events path opts w) as (evs & Hr).
  rewrite (emittedBy_spec (api path opts) w evs (proj1 Hr)). exact Hr.
Qed.

End ApiFacts.

(** ** Insertion-ordered maps *)

Section OMapFacts.
Context {K : Type} `{EqDecision K} {V : Type}.
Implicit Types (m : list (K * V)) (k : K) (v : V).

Lemma Map_get_set_eq k v m : Map_get k (Map_set k v m) = Some v.
Proof.
  induction m as [| [k' v'] m IH]; simpl.
  - destruct (decide (k = k)); congruence.
  - destruct (decide (k = k')) as [-> | Hne]; simpl.
    + destruct (decide (k' = k')); congruence.
    + destruct (decide (k = k')); [congruence | exact IH].
Qed.

Lemma Map_get_set_ne k k' v m : k <> k' -> Map_get k' (Map_set k v m) = Map_get k' m.
Proof.
  intros Hne. induction m as [| [k0 v0] m IH]; simpl.
  - destruct (decide (k' = k)); congruence.
  - destruct (decide (k = k0)) as [-> | Hne0]; simpl.
    + destruct (decide (k' = k0)); congruence.
    + destruct (decide (k' = k0)); [reflexivity | exact IH].
Qed.

Lemma Map_keys_set k v m :
  map fst (Map_set k v m)
  = if Map_has k m then map fst m else map fst m ++ [k].
Proof.
  unfold Map_has. induction m as [| [k' v'] m IH]; simpl; [reflexivity |].
  destruct (decide (k = k')) as [-> | Hne]; simpl; [reflexivity |].
  rewrite IH. destruct (Map_get k m); reflexivity.
Qed.

Lemma Map_get_None k m : Map_get k m = None <-> ~ In k (map fst m).
Proof.
  induction m as [| [k' v'] m IH]; simpl; [tauto |].
  destruct (decide (k = k')) as [-> | Hne].
  - split; [discriminate | tauto].
  - rewrite IH. split; [intros Hn [Heq | Hin]; [congruence | tauto] | tauto].
Qed.

Lemma Map_set_NoDup k v m : NoDup (map fst m) -> NoDup (map fst (Map_set k v m)).
Proof.
  intros Hnd. rewrite Map_keys_set. unfold Map_has.
  destruct (Map_get k m) eqn:Hg; [exact Hnd |].
  apply NoDup_app. split; [exact Hnd |]. split.
  - intros x Hx Hin. apply list_elem_of_In in Hx. apply list_elem_of_In in Hin.
    simpl in Hin. destruct Hin as [<- | []].
    apply Map_get_None in Hg. tauto.
  - apply NoDup_singleton.
Qed.

Lemma Map_keys_delete k m x : In x (map fst (Map_delete k m)) -> In x (map fst m).
Proof.
  induction m as [| [k' v'] m IH]; simpl; [tauto |].
  destruct (decide (k = k')); simpl; tauto.
Qed.

Lemma Map_delete_NoDup k m : NoDup (map fst m) -> NoDup (map fst (Map_delete k m)).
Proof.
  induction m as [| [k' v'] m IH]; simpl; [tauto |].
  intros Hnd. apply NoDup_cons in Hnd. destruct Hnd as [Hk Hnd].
  destruct (decide (k = k')); [exact Hnd |]. simpl.
  apply NoDup_cons. split; [| auto].
  intros Hin. apply Hk. apply list_elem_of_In. apply list_elem_of_In in Hin.
  eapply Map_keys_delete; eassumption.
Qed.

Lemma Map_get_delete_eq k m : NoDup (map fst m) -> Map_get k (Map_delete k m) = None.
Proof.
  induction m as [| [k' v'] m IH]; simpl; [reflexivity |].
  intros Hnd. apply NoDup_cons in Hnd. destruct Hnd as [Hk Hnd].
  destruct (decide (k = k')) as [-> | Hne]; simpl.
  - apply Map_get_None. intros Hin. apply Hk. apply list_elem_of_In. exact Hin.
  - destruct (decide (k = k')); [congruence | auto].
Qed.

Lemma Map_get_delete_ne k k' m : k <> k' -> Map_get k' (Map_delete k m) = Map_get k' m.
Proof.
  intros Hne. induction m as [| [k0 v0] m IH]; simpl; [reflexivity |].
  destruct (decide (k = k0)) as [-> | Hne0]; simpl.
  - destruct (decide (k' = k0)); congruence.
  - destruct (decide (k' = k0)); [reflexivity | exact IH].
Qed.

(** Every value of the map after a [set] is the new value or an old one. *)
Lemma Map_values_set k v m x :
  In x (Map_values (Map_set k v m)) -> x = v \/ In x (Map_values m).
Proof.
  unfold Map_values. induction m as [| [k' v'] m IH]; simpl; [intuition congruence |].
  destruct (decide (k = k')); simpl; intuition congruence.
Qed.

Lemma Map_values_delete k m x :
  In x (Map_values (Map_delete k m)) -> In x (Map_values m).
Proof.
  unfold Map_values. induction m as [| [k' v'] m IH]; simpl; [tauto |].
  destruct (decide (k = k')); simpl; tauto.
Qed.

(** A [set] on a key that is present changes the value in place. *)
Lemma Map_set_present k v m v0 :
  Map_get k m = Some v0 ->
  exists m1 m2,
    m = m1 ++ (k, v0) :: m2
    /\ Map_get k m1 = None
    /\ Map_set k v m = m1 ++ (k, v) :: m2.
Proof.
  induction m as [| [k' v'] m IH]; simpl; [discriminate |].
  destruct (decide (k = k')) as [-> | Hne].
  - intros [= ->]. exists [], m. repeat split.
  - intros Hg. destruct (IH Hg) as (m1 & m2 & -> & Hn & Hs).
    exists ((k', v') :: m1), m2. simpl. rewrite Hs.
    destruct (decide (k = k')); [congruence |]. repeat split. exact Hn.
Qed.
End OMapFacts.

(** ** The roster dialog *)

Lemma Map_set_set {K V} `{EqDecision K} (k : K) (v v' : V) (m : list (K * V)) :
  Map_set k v (Map_set k v' m) = Map_set k v m.
Proof.
  induction m as [| [k0 v0] m IH]; simpl.
  - destruct (decide (k = k)); congruence.
  - destruct (decide (k = k0)) as [-> | Hne]; simpl.
    + destruct (decide (k0 = k0)); congruence.
    + destruct (decide (k = k0)); [congruence | now rewrite IH].
Qed.

Lemma Map_set_Forall {K V} `{EqDecision K} (P : K * V -> Prop) (k : K) (v : V)
    (m : list (K * V)) :
  Forall P m -> P (k, v) -> Forall P (Map_set k v m).
Proof.
  intros Hm Hkv. induction m as [| [k0 v0] m IH]; simpl.
  - constructor; [exact Hkv | constructor].
  - apply Forall_cons in Hm. destruct Hm as [H0 Hm].
    destruct (decide (k = k0)) as [-> | Hne].
    + constructor; assumption.
    + constructor; [assumption | auto].
Qed.

Lemma loadMember_pristine options rows m :
  Forall pristine m -> Forall pristine (fold_left (loadMember options) rows m).
Proof.
  revert m. induction rows as [| r rows IH]; intros m Hm; simpl; [exact Hm |].
  apply IH. unfold loadMember. apply Map_set_Forall; [exact Hm |].
  repeat split.
Qed.

Lemma loadMember_NoDup options rows (m : list (Z * entry)) :
  NoDup (map fst m) -> NoDup (map fst (fold_left (loadMember options) rows m)).
Proof.
  revert m. induction rows as [| r rows IH]; intros m Hm; simpl; [exact Hm |].
  apply IH. unfold loadMember. apply Map_set_NoDup. exact Hm.
Qed.

Lemma applyInitialData_pristine d st : Forall pristine (rosterState (applyInitialData d st)).
Proof. simpl. apply loadMember_pristine. constructor. Qed.

Lemma consistent_values_set k e (m : list (Z * entry)) :
  Forall (fun e => consistent e = true) (Map_values m) ->
  consistent e = true ->
  Forall (fun e => consistent e = true) (Map_values (Map_set k e m)).
Proof.
  intros Hm He. apply List.Forall_forall. intros x Hx.
  apply Map_values_set in Hx. destruct Hx as [-> | Hx]; [exact He |].
  eapply List.Forall_forall in Hm; eassumption.
Qed.

Lemma consistent_values_delete k (m : list (Z * entry)) :
  Forall (fun e => consistent e = true) (Map_values m) ->
  Forall (fun e => consistent e = true) (Map_values (Map_delete k m)).
Proof.
  intros Hm. apply List.Forall_forall. intros x Hx.
  apply Map_values_delete in Hx. eapply List.Forall_forall in Hm; eassumption.
Qed.

Lemma Map_get_value {K V} `{EqDecision K} (k : K) (m : list (K * V)) (v : V) :
  Map_get k m = Some v -> In v (Map_values m).
Proof.
  unfold Map_values. induction m as [| [k0 v0] m IH]; simpl; [discriminate |].
  destruct (decide (k = k0)); [intros [= ->]; auto | auto].
Qed.

Lemma pristine_consistent (m : list (Z * entry)) :
  Forall pristine m -> Forall (fun e => consistent e = true) (Map_values m).
Proof.
  unfold Map_values. induction 1 as [| [k e] m (_ & Hn & Hr & _) _ IH]; simpl;
    constructor; auto.
  simpl in *. unfold consistent. rewrite Hn. reflexivity.
Qed.

Lemma orElse_nonEmpty a b : nonEmpty a = true -> orElse a b = a.
Proof. intros Ha. unfold orElse. rewrite Ha. reflexivity. Qed.

Lemma step_consistent st a :
  Forall (fun e => consistent e = true) (Map_values (rosterState st)) ->
  Forall (fun e => consistent e = true) (Map_values (rosterState (step st a))).
Proof.
  intros Hc.
  destruct a as [d | term answer | id value | id | id value | id selected]; simpl.
  - apply pristine_consistent. apply (applyInitialData_pristine d st).
  - unfold loadCandidates. destruct (nonEmpty term); [destruct answer |]; assumption.
  - unfold memberAffChange. destruct (Map_get id (rosterState st)) as [e |] eqn:Hg;
      [| assumption].
    simpl. apply consistent_values_set; [exact Hc |].
    apply Map_get_value in Hg. eapply List.Forall_forall in Hc; [| exact Hg]. exact Hc.
  - unfold memberRemove. destruct (Map_get id (rosterState st)) as [e |] eqn:Hg;
      [| assumption].
    destruct (isNew e) eqn:Hn; simpl.
    + apply consistent_values_delete. exact Hc.
    + apply consistent_values_set; [exact Hc |]. unfold consistent. simpl.
      rewrite Hn. reflexivity.
  - assumption.
  - unfold candidateAdd.
    destruct (findCandidate id (candidateCache st)) as [cand |]; [| assumption].
    match goal with |- context [if nonEmpty ?a then _ else _] =>
      destruct (nonEmpty a) end; [| assumption].
    destruct (Map_get id (rosterState st)) as [e |] eqn:Hg; simpl.
    + apply consistent_values_set; [exact Hc |]. unfold consistent. simpl.
      apply negb_true_iff. apply andb_false_r.
    + apply consistent_values_set; [exact Hc |]. reflexivity.
Qed.

Lemma step_NoDup st a :
  NoDup (map fst (rosterState st)) -> NoDup (map fst (rosterState (step st a))).
Proof.
  intros Hnd.
  destruct a as [d | term answer | id value | id | id value | id selected]; simpl.
  - apply loadMember_NoDup. constructor.
  - unfold loadCandidates. destruct (nonEmpty term); [destruct answer |]; assumption.
  - unfold memberAffChange. destruct (Map_get id (rosterState st)); [| assumption].
    simpl. apply Map_set_NoDup. exact Hnd.
  - unfold memberRemove. destruct (Map_get id (rosterState st)) as [e |]; [| assumption].
    destruct (isNew e); simpl; [apply Map_delete_NoDup | apply Map_set_NoDup]; exact Hnd.
  - assumption.
  - unfold candidateAdd.
    destruct (findCandidate id (candidateCache st)) as [cand |]; [| assumption].
    match goal with |- context [if nonEmpty ?a then _ else _] =>
      destruct (nonEmpty a) end; [| assumption].
    destruct (Map_get id (rosterState st)); simpl; apply Map_set_NoDup; exact Hnd.
Qed.

Lemma step_wellFormed st a : wellFormed st -> wellFormed (step st a).
Proof.
  intros [Hnd Hc]. split; [apply step_NoDup | apply step_consistent]; assumption.
Qed.

Lemma after_snoc acts a : after (acts ++ [a]) = step (after acts) a.
Proof. unfold after. rewrite fold_left_app. reflexivity. Qed.

Lemma after_wellFormed acts : wellFormed (after acts).
Proof.
  induction acts as [| a acts IH] using rev_ind.
  - split; constructor.
  - rewrite after_snoc. apply step_wellFormed. exact IH.
Qed.

(** C10. No entry of the roster working set is ever new and removed at once:
    this holds after any sequence of actions in the dialog and is kept by
    each of them; the initial load makes every entry neither new nor
    removed; removing an entry that is new takes it out of the map; adding
    a candidate whose id is in the map clears [isRemoved] and leaves [isNew]
    as it was. *)
Theorem roster_never_new_and_removed :
  (forall acts, Forall (fun e => consistent e = true) (Map_values (rosterState (after acts))))
  /\ (forall st a,
        Forall (fun e => consistent e = true) (Map_values (rosterState st)) ->
        Forall (fun e => consistent e = true) (Map_values (rosterState (step st a))))
  /\ (forall d st,
        Forall (fun e => isNew e = false /\ isRemoved e = false)
               (Map_values (rosterState (applyInitialData d st))))
  /\ (forall acts id e,
        Map_get id (rosterState (after acts)) = Some e -> isNew e = true ->
        Map_get id (rosterState (memberRemove id (after acts))) = None)
  /\ (forall st id selected e cand,
        Map_get id (rosterState st) = Some e ->
        findCandidate id (candidateCache st) = Some cand ->
        nonEmpty selected = true ->
        exists e',
          Map_get id (rosterState (candidateAdd id selected st)) = Some e'
          /\ isRemoved e' = false /\ isNew e' = isNew e /\ affiliation e' = selected).
Proof.
  split; [| split; [| split; [| split]]].
  - intros acts. apply after_wellFormed.
  - apply step_consistent.
  - intros d st. pose proof (applyInitialData_pristine d st) as Hp.
    unfold Map_values. induction Hp as [| [k e] m (_ & Hn & Hr & _) _ IH]; simpl;
      constructor; auto.
  - intros acts id e Hg Hn. unfold memberRemove. rewrite Hg, Hn. simpl.
    apply Map_get_delete_eq. apply after_wellFormed.
  - intros st id selected e cand Hg Hf Hsel. unfold candidateAdd. rewrite Hf.
    rewrite !(orElse_nonEmpty selected) by exact Hsel. rewrite Hsel, Hg. simpl.
    rewrite Map_get_set_eq. eexists. split; [reflexivity |]. repeat split.
Qed.



Lemma isNil_snoc {A} (l : list A) (x : A) : isNil (l ++ [x]) = false.
Proof. destruct l; reflexivity. Qed.

Lemma diff_anyChange (entries : list entry) (acc : buckets) :
  Forall (fun e => consistent e = true) entries ->
  nothingToSave (fold_left diffStep entries acc)
  = nothingToSave acc && negb (anyChange entries).
Proof.
  intros Hc. revert acc. induction Hc as [| e entries He _ IH]; intros acc; simpl.
  - now rewrite andb_true_r.
  - rewrite IH. unfold diffStep, consistent in *.
    destruct (isNew e), (isRemoved e); simpl in *; try discriminate;
      unfold nothingToSave; simpl; rewrite ?isNil_snoc, ?andb_false_r; try reflexivity.
    destruct (String.eqb (affiliation e) (originalAffiliation e)); simpl;
      rewrite ?isNil_snoc, ?andb_false_r; reflexivity.
Qed.

Section SaveFacts.
Context `{Platform}.

(** C6. After any sequence of actions in the dialog, [hasChanges()] is true
    exactly when one of the three buckets of the commit diff is not empty;
    and with all three empty the save handler only shows the message
    "No roster changes to save." and fetches nothing. *)
Theorem hasChanges_iff_something_to_save (acts : list action) :
  let st := after acts in
  (hasChanges st = true <-> nothingToSave (rosterDiff st) = false)
  /\ forall factionId w,
      nothingToSave (rosterDiff st) = true ->
      saveRoster factionId st w
      = (Return st, emit (EMessage "No roster changes to save." "info") w).
Proof.
  intros st. split.
  - unfold hasChanges, rosterDiff.
    rewrite diff_anyChange by apply after_wellFormed. simpl.
    destruct (anyChange (Map_values (rosterState st))); simpl; intuition congruence.
  - intros factionId w Hn. unfold saveRoster, saveRosterThen. rewrite Hn. reflexivity.
Qed.
End SaveFacts.


Lemma diff_pristine (m : list (Z * entry)) (acc : buckets) :
  Forall pristine m -> fold_left diffStep (Map_values m) acc = acc.
Proof.
  unfold Map_values. intros Hm. revert acc.
  induction Hm as [| [k e] m (_ & Hn & Hr & Ha) _ IH]; intros acc; simpl; [reflexivity |].
  simpl in *. rewrite IH. unfold diffStep. rewrite Hn, Hr, Ha. simpl.
  rewrite String.eqb_refl. reflexivity.
Qed.

Lemma Map_values_app {K V} (m1 m2 : list (K * V)) :
  Map_values (m1 ++ m2) = Map_values m1 ++ Map_values m2.
Proof. apply map_app. Qed.

(** The place of the first entry under a key is determined. *)
Lemma Map_split_unique {K V} `{EqDecision K} (k : K) (v v' : V)
    (m1 m2 m1' m2' : list (K * V)) :
  m1 ++ (k, v) :: m2 = m1' ++ (k, v') :: m2' ->
  Map_get k m1 = None -> Map_get k m1' = None ->
  m1 = m1' /\ m2 = m2'.
Proof.
  revert m1'. induction m1 as [| [k1 v1] m1 IH]; intros [| [k1' v1'] m1']; simpl;
    intros Heq Hn Hn'.
  - injection Heq as _ Heq. auto.
  - injection Heq as Hk _ _. subst k1'. destruct (decide (k = k)); congruence.
  - injection Heq as Hk _ _. subst k1. destruct (decide (k = k)); congruence.
  - injection Heq as Hk Hv Heq. subst k1' v1'.
    destruct (decide (k = k1)); [discriminate |].
    destruct (IH m1' Heq Hn Hn') as [-> ->]. auto.
Qed.

Lemma findCandidate_exists id (l : list candidate) :
  (exists c, In c l /\ cand_profile_id c = id) ->
  exists c, findCandidate id l = Some c.
Proof.
  intros (c & Hin & Hid). unfold findCandidate.
  destruct (List.find (fun c0 => cand_profile_id c0 =? id) l) as [c' |] eqn:Hf;
    [eauto |].
  exfalso. apply (List.find_none _ _ Hf) in Hin. rewrite Hid, Z.eqb_refl in Hin.
  discriminate.
Qed.

(** C5. From a baseline that holds member [k], removing [k] and adding it
    again with another affiliation gives a commit diff with empty add and
    remove buckets and exactly the one update [{k, affiliation}]; in
    between, the tombstone is the one entry of the remove bucket. *)
Theorem restored_tombstone_is_an_update (d : rosterData) (st0 : roster) (k : Z)
    (e0 : entry) (aff term : string) (incoming : list row) :
  Map_get k (rosterState (applyInitialData d st0)) = Some e0 ->
  nonEmpty term = true ->
  (exists r, In r incoming /\ row_profile_id r = k) ->
  nonEmpty aff = true ->
  let st1 := applyInitialData d st0 in
  let st2 := memberRemove k st1 in
  let st3 := candidateAdd k aff (loadCandidates term (Some incoming) st2) in
  rosterDiff st1 = noBuckets
  /\ rosterDiff st2 = {| add := []; updates := []; remove := [k] |}
  /\ rosterDiff st3
     = {| add := [];
          updates :=
            if String.eqb aff (originalAffiliation e0) then []
            else [{| change_profile_id := k; change_affiliation := aff |}];
          remove := [] |}.
Proof.
  intros Hg Hterm Hrow Haff st1 st2 st3.
  pose proof (applyInitialData_pristine d st0) as Hp. fold st1 in Hp, Hg.
  destruct (Map_set_present k (withRemoved true e0) _ _ Hg) as (m1 & m2 & Hm & Hn1 & Hs).
  assert (Hp1 : Forall pristine m1 /\ pristine (k, e0) /\ Forall pristine m2).
  { rewrite Hm in Hp. apply Forall_app in Hp. destruct Hp as [Hp1 Hp2].
    apply Forall_cons in Hp2. tauto. }
  destruct Hp1 as (Hp1 & (Hid & Hnew & Hrem & Horig) & Hp2).
  simpl in Hid, Hnew, Hrem, Horig.
  assert (Hst2 : rosterState st2 = m1 ++ (k, withRemoved true e0) :: m2).
  { unfold st2, memberRemove. rewrite Hg, Hnew. simpl. exact Hs. }
  split; [| split].
  - unfold rosterDiff. apply diff_pristine. exact Hp.
  - unfold rosterDiff. rewrite Hst2, Map_values_app, fold_left_app. simpl.
    rewrite (diff_pristine m2) by exact Hp2. rewrite (diff_pristine m1) by exact Hp1.
    unfold diffStep. simpl. rewrite Hnew, Hid. reflexivity.
  - assert (Hg2 : Map_get k (rosterState st2) = Some (withRemoved true e0)).
    { unfold st2, memberRemove. rewrite Hg, Hnew. simpl. apply Map_get_set_eq. }
    set (st2' := loadCandidates term (Some incoming) st2).
    assert (Hr2 : rosterState st2' = rosterState st2).
    { unfold st2', loadCandidates. rewrite Hterm. reflexivity. }
    assert (Hfind : exists c, findCandidate k (candidateCache st2') = Some c).
    { apply findCandidate_exists. destruct Hrow as (r & Hin & Hrk).
      exists (toCandidate (affiliationOptions st2) r). split; [| exact Hrk].
      unfold st2', loadCandidates. rewrite Hterm. simpl.
      apply List.filter_In. split; [apply in_map; exact Hin |].
      unfold offered. simpl. rewrite Hrk, Hg2. reflexivity. }
    destruct Hfind as (c & Hfind).
    assert (Hst3 : rosterState st3
                   = m1 ++ (k, withAffiliation aff (withRemoved false (withRemoved true e0)))
                        :: m2).
    { unfold st3, candidateAdd. fold st2'. rewrite Hfind.
      rewrite !(orElse_nonEmpty aff) by exact Haff. rewrite Haff, Hr2, Hg2. simpl.
      rewrite Hst2.
      destruct (Map_set_present k
                  (withAffiliation aff (withRemoved false (withRemoved true e0)))
                  (rosterState st1) e0 Hg) as (m1' & m2' & Hm' & Hn1' & Hs').
      rewrite <- Hs. rewrite Map_set_set. rewrite Hs'.
      destruct (Map_split_unique k _ _ m1' m2' m1 m2 (eq_trans (eq_sym Hm') Hm) Hn1' Hn1)
        as [Hsame1 Hsame2].
      subst m1' m2'. reflexivity. }
    unfold rosterDiff. rewrite Hst3, Map_values_app, fold_left_app. simpl.
    rewrite (diff_pristine m2) by exact Hp2. rewrite (diff_pristine m1) by exact Hp1.
    unfold diffStep, changeOf. simpl. rewrite Hnew. simpl.
    destruct (String.eqb aff (originalAffiliation e0)); simpl; rewrite ?Hid; reflexivity.
Qed.

(** ** The faction directory *)

Lemma nonEmpty_true s : nonEmpty s = true <-> s <> "".
Proof.
  unfold nonEmpty. rewrite negb_true_iff. split.
  - intros Hs ->. rewrite String.eqb_refl in Hs. discriminate.
  - intros Hs. apply String.eqb_neq. exact Hs.
Qed.

Lemma nonEmpty_false s : nonEmpty s = false <-> s = "".
Proof.
  unfold nonEmpty. rewrite negb_false_iff. apply String.eqb_eq.
Qed.

Section DirectoryFacts.
Context `{Platform}.

Lemma indices_sound (l : list (option faction)) acc n f :
  (fst (fold_left indexStep l acc) !! n = Some f ->
   fst acc !! n = Some f \/ (In (Some f) l /\ faction_name f = n /\ n <> ""))
  /\ (snd (fold_left indexStep l acc) !! n = Some f ->
      snd acc !! n = Some f
      \/ (In (Some f) l /\ pretty (faction_id f) = n /\ faction_name f <> "")).
Proof.
  revert acc. induction l as [| item l IH]; intros acc; simpl; [tauto |].
  destruct (IH (indexStep acc item)) as [IH1 IH2]. clear IH.
  assert (Hstep :
    (fst (indexStep acc item) !! n = Some f ->
     fst acc !! n = Some f \/ (item = Some f /\ faction_name f = n /\ n <> ""))
    /\ (snd (indexStep acc item) !! n = Some f ->
        snd acc !! n = Some f
        \/ (item = Some f /\ pretty (faction_id f) = n /\ faction_name f <> ""))).
  { unfold indexStep. destruct item as [g |]; [| tauto].
    destruct (nonEmpty (faction_name g)) eqn:Hg; [| tauto].
    apply nonEmpty_true in Hg. simpl. split; intros Hl.
    - destruct (decide (faction_name g = n)) as [<- | Hne].
      + rewrite lookup_insert_eq in Hl. injection Hl as <-. right. auto.
      + rewrite lookup_insert_ne in Hl by exact Hne. left. exact Hl.
    - destruct (decide (pretty (faction_id g) = n)) as [<- | Hne].
      + rewrite lookup_insert_eq in Hl. injection Hl as <-. right. auto.
      + rewrite lookup_insert_ne in Hl by exact Hne. left. exact Hl. }
  destruct Hstep as [Hs1 Hs2]. split; intros Hl.
  - destruct (IH1 Hl) as [Hacc | (Hin & Hn & Hne)]; [| right; auto].
    destruct (Hs1 Hacc) as [Hacc' | (-> & Hn & Hne)]; [left; exact Hacc' | right; auto].
  - destruct (IH2 Hl) as [Hacc | (Hin & Hn & Hne)]; [| right; auto].
    destruct (Hs2 Hacc) as [Hacc' | (-> & Hn & Hne)]; [left; exact Hacc' | right; auto].
Qed.

Lemma indexStep_keeps acc item n :
  (is_Some (fst acc !! n) -> is_Some (fst (indexStep acc item) !! n))
  /\ (is_Some (snd acc !! n) -> is_Some (snd (indexStep acc item) !! n)).
Proof.
  unfold indexStep. destruct item as [g |]; [| tauto].
  destruct (nonEmpty (faction_name g)); [| tauto]. simpl.
  split; intros Hs; rewrite lookup_insert; case_decide; eauto.
Qed.

Lemma indices_keep (l : list (option faction)) acc n :
  (is_Some (fst acc !! n) -> is_Some (fst (fold_left indexStep l acc) !! n))
  /\ (is_Some (snd acc !! n) -> is_Some (snd (fold_left indexStep l acc) !! n)).
Proof.
  revert acc. induction l as [| item l IH]; intros acc; simpl; [tauto |].
  destruct (IH (indexStep acc item)) as [IH1 IH2].
  destruct (indexStep_keeps acc item n) as [Hk1 Hk2]. split; auto.
Qed.

Lemma indices_complete (l : list (option faction)) acc f :
  In (Some f) l -> faction_name f <> "" ->
  is_Some (fst (fold_left indexStep l acc) !! faction_name f)
  /\ is_Some (snd (fold_left indexStep l acc) !! pretty (faction_id f)).
Proof.
  intros Hin Hne. revert acc. induction l as [| item l IH]; intros acc; simpl;
    [destruct Hin |].
  destruct Hin as [-> | Hin]; [| apply IH; exact Hin].
  split; apply indices_keep; unfold indexStep;
    rewrite (proj2 (nonEmpty_true _) Hne); simpl; rewrite lookup_insert_eq; eauto.
Qed.

Lemma invalidated_cache message w :
  factionDirectoryCache (invalidated message w)
  = if sessionInvalidated w then factionDirectoryCache w else emptyDirectory.
Proof.
  unfold invalidated, handleUnauthorizedResponse, bind, modify, gets; simpl.
  destruct (sessionInvalidated w); reflexivity.
Qed.

Lemma invalidated_flag message w : sessionInvalidated (invalidated message w) = true.
Proof.
  unfold invalidated, handleUnauthorizedResponse, bind, modify, gets; simpl.
  destruct (sessionInvalidated w) eqn:Hf; simpl; [exact Hf | reflexivity].
Qed.

Lemma sendWithRetry_cache path opts tok w :
  cacheKept w (snd (sendWithRetry path opts tok w)).
Proof.
  unfold sendWithRetry, cacheKept.
  run_js.
  all: rewrite ?invalidated_calls, ?invalidated_cache, ?invalidated_flag; simpl.
  all: repeat match goal with
              | Hs : sessionInvalidated _ = _ |- _ => rewrite Hs
              end.
  all: try solve [left; repeat split; reflexivity].
  all: right; repeat split; try lia; reflexivity.
Qed.

Lemma refreshIfExpiring_cache tok w :
  cacheKept w (snd (refreshIfExpiring tok w)).
Proof.
  unfold refreshIfExpiring, cacheKept.
  run_js.
  all: rewrite ?invalidated_calls, ?invalidated_cache, ?invalidated_flag; simpl.
  all: repeat match goal with
              | Hs : sessionInvalidated _ = _ |- _ => rewrite Hs
              end.
  all: try solve [left; repeat split; reflexivity].
  all: try solve [right; repeat split; try lia; reflexivity].
Qed.

Lemma cacheKept_trans w w1 w2 : cacheKept w w1 -> cacheKept w1 w2 -> cacheKept w w2.
Proof.
  unfold cacheKept.
  intros [(Hc & Hd & Hf) | (Hc & Hf & Hd)] [(Hc' & Hd' & Hf') | (Hc' & Hf' & Hd')].
  - left. repeat split; congruence.
  - right. rewrite Hf', Hd', Hd, Hf. repeat split. lia.
  - right. rewrite Hf', Hd', Hd. repeat split; [lia | exact Hf].
  - right. rewrite Hf', Hd', Hf, Hd. repeat split. lia.
Qed.

Lemma api_cache path opts w : cacheKept w (snd (api path opts w)).
Proof.
  rewrite api_blocks.
  pose proof (refreshIfExpiring_cache (storedAccess w) w) as H1.
  destruct (refreshIfExpiring (storedAccess w) w) as [[tok | e] w1]; simpl in *;
    [| exact H1].
  eapply cacheKept_trans; [exact H1 | apply sendWithRetry_cache].
Qed.

Lemma cacheKept_after w w1 : cacheKept w w1 -> cacheAfterApi w w1.
Proof.
  unfold cacheKept, cacheAfterApi.
  intros [(Hc & Hd & Hf) | (Hc & Hf & Hd)].
  - split; [auto |]. split; [intros _ Hlt; lia | auto].
  - split; [intros Heq; lia |]. split.
    + intros Hdown _. rewrite Hd, Hdown. reflexivity.
    + rewrite Hd. destruct (sessionInvalidated w); auto.
Qed.

(** C8 (amended). Without [force], a cache with a non-empty list and a
    timestamp less than 60 s old is returned as it is and nothing else
    happens. With [force] the list is always asked of [api], whatever the
    cache holds, and nothing else is fetched; when [api] returns an ok
    response carrying an array, the snapshot is replaced in one assignment
    by the list, both indices built from it and the time of the call, and
    returned; in every other case the call throws and assigns nothing
    itself, so that the cache is what [api] left: the old snapshot when the
    session handler was not called, the empty one when the handler ran
    from a flag that was down. Both indices hold only entries of the list
    under their name and id, and every named entry is indexed. *)
Theorem getFactionDirectory_spec (w : World) :
  let cache := factionDirectoryCache w in
  (dir_list cache <> [] -> clock w - timestamp cache < 60000 ->
   getFactionDirectory false w = (Return cache, w))
  /\ getFactionDirectory true w
     = match api "/api/scales/factions/" noOptions w with
       | (Return res, w1) =>
           if ok res then
             match payload res with
             | Some (DataFactions l) =>
                 (Return (snapshotOf l (clock w)),
                  withDirectory (snapshotOf l (clock w)) w1)
             | Some _ => (Throw TypeError, w1)
             | None => (Throw SyntaxError, w1)
             end
           else
             (Throw (Error ("Failed to fetch faction directory ("
                              +:+ pretty (status res) +:+ ")")), w1)
       | (Throw e, w1) => (Throw e, w1)
       end
  /\ cacheAfterApi w (snd (api "/api/scales/factions/" noOptions w))
  /\ emittedBy (getFactionDirectory true) w
     = emittedBy (api "/api/scales/factions/" noOptions) w
  /\ forall l now n f,
      (byName (snapshotOf l now) !! n = Some f ->
       In (Some f) l /\ faction_name f = n /\ n <> "")
      /\ (byId (snapshotOf l now) !! n = Some f ->
          In (Some f) l /\ pretty (faction_id f) = n /\ faction_name f <> "")
      /\ (In (Some f) l -> faction_name f <> "" ->
          is_Some (byName (snapshotOf l now) !! faction_name f)
          /\ is_Some (byId (snapshotOf l now) !! pretty (faction_id f))).
Proof.
  intros cache.
  assert (Hforce : getFactionDirectory true w
     = match api "/api/scales/factions/" noOptions w with
       | (Return res, w1) =>
           if ok res then
             match payload res with
             | Some (DataFactions l) =>
                 (Return (snapshotOf l (clock w)),
                  withDirectory (snapshotOf l (clock w)) w1)
             | Some _ => (Throw TypeError, w1)
             | None => (Throw SyntaxError, w1)
             end
           else
             (Throw (Error ("Failed to fetch faction directory ("
                              +:+ pretty (status res) +:+ ")")), w1)
       | (Throw e, w1) => (Throw e, w1)
       end).
  { unfold getFactionDirectory, bind, gets, ret, isFresh. simpl.
    destruct (api "/api/scales/factions/" noOptions w) as [[res | e] w1];
      [| reflexivity].
    destruct (ok res); [| reflexivity].
    unfold json_of. destruct (payload res) as [[a | l | |] |]; reflexivity. }
  split; [| split; [exact Hforce | split; [| split]]].
  - intros Hne Hfresh. unfold getFactionDirectory, bind, gets, ret. simpl.
    fold cache. unfold isFresh. simpl.
    destruct (dir_list cache) as [| x xs]; [congruence |]. simpl.
    rewrite (proj2 (Z.ltb_lt _ _) Hfresh). reflexivity.
  - apply cacheKept_after, api_cache.
  - unfold emittedBy. rewrite Hforce.
    destruct (api "/api/scales/factions/" noOptions w) as [[res | e] w1];
      [| reflexivity].
    destruct (ok res); [| reflexivity].
    destruct (payload res) as [[a | l | |] |]; reflexivity.
  - intros l now n f. unfold snapshotOf, buildIndices. simpl.
    destruct (indices_sound l (∅, ∅) n f) as [H1 H2]. simpl in H1, H2.
    split; [| split].
    + intros Hl. destruct (H1 Hl) as [He | ?]; [| assumption].
      rewrite lookup_empty in He. discriminate.
    + intros Hl. destruct (H2 Hl) as [He | ?]; [| assumption].
      rewrite lookup_empty in He. discriminate.
    + apply indices_complete.
Qed.

Lemma scanLabels_first lower before item after :
  toLowerCase (labelOf item) = lower ->
  (forall x, In x before -> toLowerCase (labelOf x) <> lower) ->
  scanLabels lower (before ++ item :: after) = Some (labelOf item).
Proof.
  intros Hit Hbefore. induction before as [| x before IH]; simpl.
  - rewrite Hit, String.eqb_refl. reflexivity.
  - rewrite (proj2 (String.eqb_neq _ _) (Hbefore x (or_introl eq_refl))).
    apply IH. intros y Hy. apply Hbefore. right. exact Hy.
Qed.

Lemma scanLabels_none lower l :
  (forall x, In x l -> toLowerCase (labelOf x) <> lower) -> scanLabels lower l = None.
Proof.
  induction l as [| x l IH]; intros Hl; simpl; [reflexivity |].
  rewrite (proj2 (String.eqb_neq _ _) (Hl x (or_introl eq_refl))).
  apply IH. intros y Hy. apply Hl. right. exact Hy.
Qed.

(** C9 (amended). [resolveFactionName] never throws and changes nothing. It
    trims the input; an entry with a name under the trimmed input in the
    by-name index wins; otherwise the first entry of the list whose name
    equals it up to case gives its name; otherwise the trimmed input is
    returned (the empty string for blank input). Trimming and case are those
    of the host, [String.prototype.trim] and [String.prototype.toLowerCase],
    of which nothing is assumed: the statement holds for every input
    string. *)
Theorem resolveFactionName_spec (value : string) (w : World) :
  let name := trim value in
  let cache := factionDirectoryCache w in
  exists r,
    resolveFactionName value w = (Return r, w)
    /\ (name = "" -> r = "")
    /\ (forall exact,
          name <> "" -> byName cache !! name = Some exact -> faction_name exact <> "" ->
          r = faction_name exact)
    /\ (name <> "" ->
        (byName cache !! name = None
         \/ exists exact, byName cache !! name = Some exact /\ faction_name exact = "") ->
        (forall before item after,
            dir_list cache = before ++ item :: after ->
            toLowerCase (labelOf item) = toLowerCase name ->
            (forall x, In x before -> toLowerCase (labelOf x) <> toLowerCase name) ->
            r = labelOf item)
        /\ ((forall x, In x (dir_list cache) ->
                       toLowerCase (labelOf x) <> toLowerCase name) ->
            r = name)).
Proof.
  intros name cache. unfold resolveFactionName. fold name.
  destruct (nonEmpty name) eqn:Hname.
  - apply nonEmpty_true in Hname. unfold bind, gets, ret. simpl. fold cache.
    destruct (byName cache !! name) as [exact |] eqn:Hexact.
    + destruct (nonEmpty (faction_name exact)) eqn:Hex.
      * apply nonEmpty_true in Hex. eexists. split; [reflexivity |].
        split; [congruence |]. split; [intros ? _ [= <-] _; reflexivity |].
        intros _ [Hnone | (ex & [= <-] & Hemp)]; congruence.
      * eexists. split; [reflexivity |]. split; [congruence |].
        split; [intros ? _ [= <-] Hne; apply nonEmpty_false in Hex; congruence |].
        intros _ _. split.
        -- intros before item after Hl Hit Hb. rewrite Hl.
           rewrite (scanLabels_first _ before item after Hit Hb). reflexivity.
        -- intros Hall. rewrite (scanLabels_none _ _ Hall). reflexivity.
    + eexists. split; [reflexivity |]. split; [congruence |].
      split; [intros ? _ [=] |].
      intros _ _. split.
      * intros before item after Hl Hit Hb. rewrite Hl.
        rewrite (scanLabels_first _ before item after Hit Hb). reflexivity.
      * intros Hall. rewrite (scanLabels_none _ _ Hall). reflexivity.
  - apply nonEmpty_false in Hname. exists "". split; [reflexivity |].
    split; [reflexivity |]. split; intros; congruence.
Qed.
End DirectoryFacts.

(** ** Commits *)

Section CommitFacts.
Context `{Platform}.

Lemma api_trace path opts w :
  trace (snd (api path opts w)) = trace w ++ emittedBy (api path opts) w.
Proof.
  destruct (api_events path opts w) as (evs & Hr).
  rewrite (emittedBy_spec (api path opts) w evs (proj1 Hr)). apply Hr.
Qed.

Lemma sendWithRetry_requests path opts tok w evs s rq a :
  trace (snd (sendWithRetry path opts tok w)) = trace w ++ evs ->
  In (EFetch s rq a) evs -> s = Request \/ s = Retry ->
  url rq = path /\ method rq = opt_method opts /\ body rq = opt_body opts.
Proof.
  intros Htr Hin Hs.
  destruct (sendWithRetry_run path opts tok w) as (ans & rest & Htr' & Hsites & Hretry & _).
  rewrite Htr' in Htr. apply app_inv_head in Htr. subst evs.
  destruct Hin as [Heq | Hin].
  - inversion Heq; subst. repeat split.
  - destruct Hs as [-> | ->]; [| eapply Hretry; eauto].
    exfalso. apply In_sitesOf in Hin.
    destruct Hsites as [Hx | [Hx | Hx]]; rewrite Hx in Hin; simpl in Hin;
      intuition discriminate.
Qed.

Lemma api_requests path opts w s rq a :
  In (EFetch s rq a) (emittedBy (api path opts) w) -> s = Request \/ s = Retry ->
  url rq = path /\ method rq = opt_method opts /\ body rq = opt_body opts.
Proof.
  intros Hin Hs. pose proof (api_trace path opts w) as Htr.
  pose proof (api_run path opts w) as Hrun. simpl in Hrun.
  destruct Hrun as [[_ Heq] | [Hrun | [Hrun | Hrun]]].
  - rewrite Heq in Htr. eapply sendWithRetry_requests; eassumption.
  - destruct Hrun as (_ & _ & _ & Htr' & _). rewrite Htr' in Htr.
    apply app_inv_head in Htr. rewrite <- Htr in Hin.
    exfalso. eapply uiEvents_no_fetch; eassumption.
  - destruct Hrun as (_ & _ & ans & rest & _ & Htr' & Hsites & _). rewrite Htr' in Htr.
    apply app_inv_head in Htr. rewrite <- Htr in Hin.
    exfalso. apply In_sitesOf in Hin. rewrite sitesOf_fetch, Hsites in Hin.
    simpl in Hin. destruct Hs; intuition congruence.
  - destruct Hrun as (_ & _ & ans & access & w1 & Htr1 & _ & _ & Heq).
    destruct (sendWithRetry_run path opts access w1) as (a2 & r2 & Htr2 & _).
    rewrite Heq, Htr2, Htr1, <- app_assoc in Htr. apply app_inv_head in Htr.
    rewrite <- Htr in Hin. simpl in Hin. destruct Hin as [Hin | Hin].
    + inversion Hin; subst. destruct Hs; discriminate.
    + eapply (sendWithRetry_requests path opts access w1); [exact Htr2 | exact Hin | exact Hs].
Qed.

Lemma grows_ret {A} (x : A) : grows (ret x).
Proof. intros w. exists []. simpl. rewrite app_nil_r. reflexivity. Qed.

Lemma grows_throw {A} (e : exn) : grows (@throw A e).
Proof. intros w. exists []. simpl. rewrite app_nil_r. reflexivity. Qed.

Lemma grows_bind {A B} (m : M A) (k : A -> M B) :
  grows m -> (forall x, grows (k x)) -> grows (bind m k).
Proof.
  intros Hm Hk w. unfold bind. destruct (Hm w) as (evs & Hevs).
  destruct (m w) as [[x | e] w1]; simpl in *.
  - destruct (Hk x w1) as (evs' & Hevs'). exists (evs ++ evs').
    rewrite Hevs', Hevs, app_assoc. reflexivity.
  - exists evs. exact Hevs.
Qed.

Lemma grows_tryCatch {A} (m : M A) (h : exn -> M A) :
  grows m -> (forall e, grows (h e)) -> grows (tryCatch m h).
Proof.
  intros Hm Hh w. unfold tryCatch. destruct (Hm w) as (evs & Hevs).
  destruct (m w) as [[x | e] w1]; simpl in *.
  - exists evs. exact Hevs.
  - destruct (Hh e w1) as (evs' & Hevs'). exists (evs ++ evs').
    rewrite Hevs', Hevs, app_assoc. reflexivity.
Qed.

Lemma grows_emit (e : event) : grows (modify (emit e)).
Proof. intros w. exists [e]. reflexivity. Qed.

Lemma grows_api path opts : grows (api path opts).
Proof. intros w. eexists. apply api_trace. Qed.

Lemma grows_handler message : grows (handleUnauthorizedResponse message).
Proof.
  intros w. rewrite handleUnauthorizedResponse_run. eexists. apply invalidated_trace.
Qed.

Lemma grows_access : grows tokens.access.
Proof. intros w. exists []. simpl. rewrite app_nil_r. reflexivity. Qed.

Lemma grows_json_of r : grows (json_of r).
Proof. unfold json_of. destruct (payload r); [apply grows_ret | apply grows_throw]. Qed.

Lemma grows_openFactionDetail id : grows (openFactionDetail id).
Proof.
  unfold openFactionDetail. destruct (id =? 0); [apply grows_ret |].
  apply grows_bind; [apply grows_access |]. intros access.
  destruct (nonEmpty access); [| apply grows_handler].
  apply grows_bind; [apply grows_api |]. intros res.
  destruct (status res =? 401); [apply grows_ret |].
  destruct (ok res); [| apply grows_emit].
  apply grows_bind; [apply grows_json_of |]. intros f. apply grows_emit.
Qed.

Lemma grows_openLoomOperationDetail id : grows (openLoomOperationDetail id).
Proof.
  unfold openLoomOperationDetail. apply grows_tryCatch; [| intros e; apply grows_emit].
  apply grows_bind; [apply grows_api |]. intros res.
  destruct (ok res); [| apply grows_throw].
  apply grows_bind; [apply grows_json_of |]. intros f. apply grows_emit.
Qed.

Lemma grows_detached m : grows m -> grows (detached m).
Proof. intros Hm. apply grows_tryCatch; [exact Hm | intros e; apply grows_ret]. Qed.

(** A handler that awaits [api] first begins with the events of that call. *)
Lemma begins_with_api {A} path opts (k : response -> M A) (h : exn -> M A) w :
  (forall r, grows (k r)) -> (forall e, grows (h e)) ->
  exists after,
    emittedBy (tryCatch (bind (api path opts) k) h) w
    = emittedBy (api path opts) w ++ after.
Proof.
  intros Hk Hh.
  assert (Hg : exists after,
             trace (snd (tryCatch (bind (api path opts) k) h w))
             = trace (snd (api path opts w)) ++ after).
  { unfold tryCatch, bind. destruct (api path opts w) as [[res | e] w1]; simpl.
    - destruct (Hk res w1) as (evs & Hevs).
      destruct (k res w1) as [[x | e] w2]; simpl in *.
      + exists evs. exact Hevs.
      + destruct (Hh e w2) as (evs' & Hevs'). exists (evs ++ evs').
        rewrite Hevs', Hevs, app_assoc. reflexivity.
    - apply Hh. }
  destruct Hg as (after & Hafter). exists after. apply emittedBy_spec.
  rewrite Hafter, api_trace, app_assoc. reflexivity.
Qed.

Lemma api_sends path opts w :
  In Request (sitesOf (emittedBy (api path opts) w))
  \/ (nonEmpty (storedAccess w) && expiring (decodeJwt (storedAccess w)) (clock w) = true
      /\ exists e, fst (api path opts w) = Throw e).
Proof.
  pose proof (api_trace path opts w) as Htr.
  pose proof (api_run path opts w) as Hrun. simpl in Hrun.
  destruct Hrun as [[_ Heq] | [Hrun | [Hrun | Hrun]]].
  - left. destruct (sendWithRetry_run path opts (storedAccess w) w) as (ans & rest & Htr' & _).
    rewrite Heq, Htr' in Htr. apply app_inv_head in Htr. rewrite <- Htr.
    rewrite sitesOf_fetch. left. reflexivity.
  - right. destruct Hrun as (Hexp & _ & Hthrow & _). auto.
  - right. destruct Hrun as (Hexp & _ & ans & rest & Hthrow & _). auto.
  - left. destruct Hrun as (_ & _ & ans & access & w1 & Htr1 & _ & _ & Heq).
    destruct (sendWithRetry_run path opts access w1) as (a2 & r2 & Htr2 & _).
    rewrite Heq, Htr2, Htr1, <- app_assoc in Htr. apply app_inv_head in Htr.
    rewrite <- Htr. rewrite sitesOf_app, !sitesOf_fetch. simpl. right. left. reflexivity.
Qed.

Lemma commits_handler {A} path payload (k : response -> M A) (h : exn -> M A) w :
  (forall r, grows (k r)) -> (forall e, grows (h e)) ->
  commits (tryCatch (bind (api path (post payload)) k) h) w path payload.
Proof.
  intros Hk Hh. split; [| split].
  - apply begins_with_api; assumption.
  - intros s rq a Hin Hs. apply (api_requests _ (post payload) w s rq a Hin Hs).
  - apply api_sends.
Qed.

(** C7 (amended). Each commit begins with one call of [api] that POSTs one
    payload to its own manage path, request and retry alike, and the request
    is sent unless the stored token is about to expire and cannot be
    refreshed: the faction roster, when it has something to save, posts the
    three buckets [add], [updates], [remove] of the draft diff as it was at
    the click, whatever is done to the dialog meanwhile; the operation
    personnel dialog posts the whole assigned list under [assignments]; the
    operation targets dialog posts [profile_ids] and [faction_ids]. What the
    handlers fetch afterwards, to draw the detail view again, comes after
    that call. *)
Theorem commits_post_their_payloads :
  (forall factionId meanwhile st w,
      nothingToSave (rosterDiff st) = false ->
      commits (saveRosterThen factionId meanwhile st) w (membersUrl factionId)
              (membersPayload (rosterDiff st)))
  /\ (forall operationId assigned w,
        commits (savePersonnel operationId assigned) w (personnelUrl operationId)
                (personnelPayload assigned))
  /\ (forall operationId assigned w,
        commits (saveTargets operationId assigned) w (targetsUrl operationId)
                (targetsPayload assigned)).
Proof.
  split; [| split].
  - intros factionId meanwhile st w Hn.
    assert (Hsame : emittedBy (saveRosterThen factionId meanwhile st) w
                    = emittedBy (commitRoster factionId (rosterDiff st)) w).
    { unfold emittedBy, saveRosterThen. rewrite Hn. unfold bind, ret.
      destruct (commitRoster factionId (rosterDiff st) w) as [[x | e] w1]; reflexivity. }
    destruct (commits_handler (membersUrl factionId) (membersPayload (rosterDiff st))
                (fun res => if ok res then
                               showMessage "Roster updated." "info" ;;;
                               closeModal ;;;
                               detached (openFactionDetail factionId)
                             else showMessage "Failed to update roster." "error")
                (fun _ => showMessage "Failed to update roster." "error") w)
      as (Hbegin & Hrest).
    + intros r. destruct (ok r); [| apply grows_emit].
      apply grows_bind; [apply grows_emit |]. intros _.
      apply grows_bind; [apply grows_emit |]. intros _.
      apply grows_detached, grows_openFactionDetail.
    + intros e. apply grows_emit.
    + split; [| exact Hrest]. rewrite Hsame. exact Hbegin.
  - intros operationId assigned w. apply commits_handler.
    + intros r. destruct (ok r); [| apply grows_throw].
      apply grows_bind; [apply grows_emit |]. intros _.
      apply grows_bind; [apply grows_emit |]. intros _.
      apply grows_detached, grows_openLoomOperationDetail.
    + intros e. apply grows_emit.
  - intros operationId assigned w. apply commits_handler.
    + intros r. destruct (ok r); [| apply grows_throw].
      apply grows_bind; [apply grows_emit |]. intros _.
      apply grows_bind; [apply grows_emit |]. intros _.
      apply grows_detached, grows_openLoomOperationDetail.
    + intros e. apply grows_emit.
Qed.
End CommitFacts.

(** ** Examples on the sample host *)

(** C1 as stated fails: a stored token that does not decode is sent with the
    request, and no refresh comes first. *)
Lemma api_undecodable_token_counterexample :
  let w0 := sampleWorld "not-a-jwt" "refresh-1" 1000 [statusOnly 200] in
  @decodeJwt sampleHost (storedAccess w0) = JNull
  /\ sitesOf (emittedBy (@api sampleHost "/api/index/profiles/" noOptions) w0) = [Request].
Proof. vm_compute. split; reflexivity. Qed.

Lemma api_undecodable_token_witness :
  let w0 := sampleWorld "not-a-jwt" "refresh-1" 1000 [statusOnly 200] in
  nonEmpty (storedAccess w0) = true
  /\ @decodeJwt sampleHost (storedAccess w0) = JNull
  /\ @api sampleHost "/api/index/profiles/" noOptions w0
     = @sendWithRetry sampleHost "/api/index/profiles/" noOptions (storedAccess w0) w0.
Proof.
  intros w0.
  assert (H1 : nonEmpty (storedAccess w0) = true) by (vm_compute; reflexivity).
  assert (H2 : @decodeJwt sampleHost (storedAccess w0) = JNull) by (vm_compute; reflexivity).
  split; [exact H1 |]. split; [exact H2 |].
  exact (proj1 (@api_undecodable_token_sent_as_is sampleHost "/api/index/profiles/"
                  noOptions w0 H1 H2)).
Defined.

Lemma api_refreshes_iff_expiring_witness :
  let w0 := sampleWorld sampleToken "refresh-1" 1699999970000
              [okResponse (DataToken "fresh"); statusOnly 200] in
  In ProactiveRefresh
     (sitesOf (emittedBy (@api sampleHost "/api/index/profiles/" noOptions) w0))
  <-> 1700000000 * 1000 < clock w0 + 60000.
Proof.
  intros w0.
  refine (proj1 (@api_refreshes_iff_expiring sampleHost "/api/index/profiles/" noOptions
                   w0 1700000000 _ _ _)); vm_compute; reflexivity.
Defined.

Lemma handleUnauthorizedResponse_debounced_witness :
  let w0 := sampleWorld "a" "r" 5000 [] in
  let ts := [Invalidate "again"; Wait 700; Invalidate "and again"; Wait 799] in
  let w2 := @runTicks sampleHost ts (snd (@handleUnauthorizedResponse sampleHost "gone" w0)) in
  trace w2 = [ECloseModal; EHide "#shutdown-overlay"; ESwitchTier "login";
              EMessage "gone" "error"]
  /\ sessionInvalidated w2 = true
  /\ sessionInvalidated (advance (1500 - waited ts) w2) = false.
Proof.
  intros w0 ts w2.
  assert (Hw : Forall (fun t => 0 <= waitOf t) ts).
  { repeat constructor; simpl; lia. }
  destruct (@handleUnauthorizedResponse_debounced sampleHost w0 "gone" ts
              eq_refl eq_refl Hw ltac:(vm_compute; reflexivity))
    as (_ & Htr & _ & _ & _ & _ & Hinv & Hreset).
  split; [exact Htr |]. split; [exact Hinv | exact Hreset].
Defined.

Lemma restored_tombstone_is_an_update_witness :
  let baseline := {| affiliation_options := [];
                     members := [{| row_profile_id := 1; row_full_name := "Ada";
                                    row_aliases := []; row_affiliation := "Member" |}] |} in
  let offeredAgain := [{| row_profile_id := 1; row_full_name := "Ada";
                          row_aliases := []; row_affiliation := "" |}] in
  rosterDiff
    (candidateAdd 1 "Leader"
       (loadCandidates "ad" (Some offeredAgain)
          (memberRemove 1 (applyInitialData baseline openedRoster))))
  = {| add := [];
       updates := [{| change_profile_id := 1; change_affiliation := "Leader" |}];
       remove := [] |}.
Proof.
  intros baseline offeredAgain.
  refine (proj2 (proj2 (restored_tombstone_is_an_update baseline openedRoster 1
            {| profile_id := 1; full_name := "Ada"; aliases := []; affiliation := "Member";
               originalAffiliation := "Member"; isNew := false; isRemoved := false |}
            "Leader" "ad" offeredAgain eq_refl eq_refl _ eq_refl))).
  eexists. split; [left; reflexivity | reflexivity].
Defined.

Lemma api_retries_once_witness :
  let w0 := sampleWorld "not-a-jwt" "" 1000 [statusOnly 401; statusOnly 200] in
  let res := {| status := 401; payload := None |} in
  let rq := requestOf "/api/index/profiles/" noOptions (authHeaders noOptions "not-a-jwt") in
  exists pre more tok,
    emittedBy (@api sampleHost "/api/index/profiles/" noOptions) w0
    = pre ++ EFetch Request rq (Some res) :: more
    /\ (sitesOf pre = [] \/ sitesOf pre = [ProactiveRefresh])
    /\ rq = requestOf "/api/index/profiles/" noOptions (authHeaders noOptions tok)
    /\ @afterUnauthorized sampleHost w0 (@api sampleHost "/api/index/profiles/" noOptions w0)
         "/api/index/profiles/" noOptions res more.
Proof.
  intros w0 res rq.
  apply (proj2 (@api_retries_once sampleHost "/api/index/profiles/" noOptions w0) rq res).
  - vm_compute. left. reflexivity.
  - reflexivity.
Defined.

(** C7 as stated fails: the personnel commit posts one member,
    [assignments], and the targets commit two id lists. The second fetch is
    the reload of the operation, a GET. *)
Lemma commit_personnel_counterexample :
  let assigned := [(7, {| agent_id := 7; alias := "Kite"; role_in_op := "Field Agent" |})] in
  let w0 := sampleWorld "" "" 1000 [statusOnly 200; okResponse DataOther] in
  omap bodyOf (emittedBy (@savePersonnel sampleHost 3 assigned) w0)
  = [Some (sample_JSON_stringify
             (JObj [("assignments",
                     JArr [JObj [("agent_id", JNum 7); ("alias", JStr "Kite");
                                 ("role_in_op", JStr "Field Agent")]])]));
     None]
  /\ keys (personnelPayload assigned) = ["assignments"]
  /\ keys (personnelPayload assigned) <> ["add"; "updates"; "remove"]
  /\ keys (targetsPayload [("profile-2", {| target_id := 2; target_name := "Ada";
                                            target_type := "profile" |})])
     = ["profile_ids"; "faction_ids"].
Proof. vm_compute. repeat split; try reflexivity. discriminate. Qed.

Lemma commits_post_their_payloads_witness :
  let baseline := {| affiliation_options := [];
                     members := [{| row_profile_id := 1; row_full_name := "Ada";
                                    row_aliases := []; row_affiliation := "Member" |}] |} in
  let st := memberRemove 1 (applyInitialData baseline openedRoster) in
  let w0 := sampleWorld "" "" 1000 [statusOnly 200; okResponse DataOther] in
  @commits sampleHost _ (@saveRosterThen sampleHost 5 (memberAffChange 1 "Leader") st) w0
    (membersUrl 5) (membersPayload (rosterDiff st)).
Proof.
  intros baseline st w0.
  apply (proj1 (@commits_post_their_payloads sampleHost) 5 (memberAffChange 1 "Leader") st
           w0).
  reflexivity.
Defined.

(** C8 as stated fails: a forced call whose fetch is answered 500 throws and
    leaves the old snapshot; one whose token has expired with no refresh
    token at hand fetches nothing at all, and the session handler, called
    by [api], leaves the cache empty. *)
Lemma getFactionDirectory_force_counterexample :
  let w0 := withDirectory staleDirectory (sampleWorld "" "" 2000 [statusOnly 500]) in
  let w1 := withDirectory staleDirectory
              (sampleWorld sampleToken "" 1700000000000 [statusOnly 200]) in
  (fst (@getFactionDirectory sampleHost true w0)
   = Throw (Error "Failed to fetch faction directory (500)")
   /\ factionDirectoryCache (snd (@getFactionDirectory sampleHost true w0)) = staleDirectory)
  /\ (fst (@getFactionDirectory sampleHost true w1) = Throw (Error "Session expired.")
      /\ sitesOf (emittedBy (@getFactionDirectory sampleHost true) w1) = []
      /\ factionDirectoryCache (snd (@getFactionDirectory sampleHost true w1))
         = emptyDirectory).
Proof. vm_compute. repeat split; reflexivity. Qed.

Lemma getFactionDirectory_spec_witness :
  let w0 := withDirectory staleDirectory (sampleWorld "" "" 2000 [statusOnly 500]) in
  dir_list (factionDirectoryCache w0) <> []
  /\ clock w0 - timestamp (factionDirectoryCache w0) < 60000
  /\ @getFactionDirectory sampleHost false w0 = (Return staleDirectory, w0).
Proof.
  intros w0.
  assert (H1 : dir_list (factionDirectoryCache w0) <> []) by discriminate.
  assert (H2 : clock w0 - timestamp (factionDirectoryCache w0) < 60000)
    by (vm_compute; reflexivity).
  split; [exact H1 |]. split; [exact H2 |].
  exact (proj1 (@getFactionDirectory_spec sampleHost w0) H1 H2).
Defined.

(** C9 as stated fails: without a match the result is the trimmed input, not
    the input. *)
Lemma resolveFactionName_counterexample :
  let w0 := withDirectory staleDirectory (sampleWorld "" "" 2000 []) in
  fst (@resolveFactionName sampleHost " Ravens" w0) = Return "Ravens"
  /\ "Ravens" <> " Ravens"
  /\ fst (@resolveFactionName sampleHost "   " w0) = Return "".
Proof. vm_compute. repeat split; try reflexivity. discriminate. Qed.

(** * More properties *)

(** ** The request helper, case by case *)

Section MoreApiFacts.
Context `{Platform}.

Lemma invalidated_open message w :
  sessionInvalidated w = true -> invalidated message w = countCall w.
Proof.
  intros Hf. unfold invalidated. rewrite handleUnauthorizedResponse_open by exact Hf.
  reflexivity.
Qed.

(** X1. With a stored token that is not about to expire (or none), and an
    answer whose status is not 401, [api] makes one fetch, returns that
    answer as it is, whatever its status, and changes nothing else: no
    token is touched and the session handler is not called. *)
Theorem api_passes_through path opts w res rest :
  nonEmpty (storedAccess w) && expiring (decodeJwt (storedAccess w)) (clock w) = false ->
  network w = Some res :: rest ->
  status res <> 401 ->
  api path opts w
  = (Return res,
     emit (EFetch Request (requestOf path opts (authHeaders opts (storedAccess w)))
             (Some res))
          (withNetwork rest w)).
Proof.
  intros Hfresh Hnet Hst. rewrite api_no_refresh by exact Hfresh.
  unfold sendWithRetry. fold (authHeaders opts (storedAccess w)).
  unfold bind, fetch. rewrite Hnet.
  rewrite (proj2 (Z.eqb_neq _ _) Hst). reflexivity.
Qed.

Lemma authHeaders_lookup opts token k :
  authHeaders opts token !! k
  = if decide (k = "Authorization") then
      if nonEmpty token then Some ("Bearer " +:+ token)
      else opt_headers opts !! "Authorization"
    else if decide (k = "Content-Type") then
      Some (default "application/json" (opt_headers opts !! "Content-Type"))
    else opt_headers opts !! k.
Proof.
  unfold authHeaders, bearer, jsonHeaders.
  assert (Hj : forall k',
             (opt_headers opts ∪ {["Content-Type" := "application/json"]}) !! k'
             = if decide (k' = "Content-Type")
               then Some (default "application/json" (opt_headers opts !! "Content-Type"))
               else opt_headers opts !! k').
  { intros k'. rewrite lookup_union.
    destruct (decide (k' = "Content-Type")) as [-> | Hne].
    - rewrite lookup_singleton_eq. destruct (opt_headers opts !! "Content-Type"); reflexivity.
    - rewrite lookup_singleton_ne by congruence.
      destruct (opt_headers opts !! k'); reflexivity. }
  destruct (decide (k = "Authorization")) as [-> | Hne].
  - destruct (nonEmpty token).
    + apply lookup_insert_eq.
    + rewrite Hj. destruct (decide ("Authorization" = "Content-Type")); [discriminate |].
      reflexivity.
  - destruct (nonEmpty token).
    + rewrite lookup_insert_ne by congruence. apply Hj.
    + apply Hj.
Qed.

(** The token a proactive refresh hands to the request is the one its
    answer carried. *)
Lemma refreshIfExpiring_token tok0 w tok w1 :
  refreshIfExpiring tok0 w = (Return tok, w1) ->
  (tok = tok0 /\ trace w1 = trace w)
  \/ exists rq rf,
      trace w1 = trace w ++ [EFetch ProactiveRefresh rq (Some rf)]
      /\ payload rf = Some (DataToken tok) /\ nonEmpty tok = true.
Proof.
  unfold refreshIfExpiring.
  run_js.
  all: intros [= <- <-]; simpl.
  all: try solve [left; split; reflexivity].
  right. do 2 eexists. split; [reflexivity |]. split; assumption.
Qed.

Lemma usable_token rf access :
  usable (Some rf) = true -> payload rf = Some (DataToken access) -> nonEmpty access = true.
Proof.
  unfold usable. intros Hu Hp. rewrite Hp in Hu. apply andb_true_iff in Hu. apply Hu.
Qed.

(** Where the token of a request or retry of [api] comes from. *)
Lemma api_request_token path opts w s rq a :
  In (EFetch s rq a) (emittedBy (api path opts) w) -> s = Request \/ s = Retry ->
  exists token,
    rq = requestOf path opts (authHeaders opts token)
    /\ (s = Request ->
        (token = storedAccess w
         /\ ~ In ProactiveRefresh (sitesOf (emittedBy (api path opts) w)))
        \/ exists rq0 rf,
            In (EFetch ProactiveRefresh rq0 (Some rf)) (emittedBy (api path opts) w)
            /\ payload rf = Some (DataToken token) /\ nonEmpty token = true)
    /\ (s = Retry ->
        exists rq0 rf,
          In (EFetch ReactiveRefresh rq0 (Some rf)) (emittedBy (api path opts) w)
          /\ payload rf = Some (DataToken token) /\ nonEmpty token = true).
Proof.
  intros Hin Hs.
  destruct (refreshIfExpiring_outcome (storedAccess w) w) as (pre & Htr1 & Hout).
  simpl in Htr1, Hout.
  pose proof (refreshIfExpiring_token (storedAccess w) w) as Htok.
  assert (Hem : forall evs, trace (snd (api path opts w)) = trace w ++ evs ->
                            emittedBy (api path opts) w = evs).
  { intros evs Hevs. apply emittedBy_spec. exact Hevs. }
  rewrite api_blocks in Hem.
  destruct (refreshIfExpiring (storedAccess w) w) as [[tok | e] w1]; simpl in *.
  - destruct Hout as (Hpre & Href & Hcalls).
    destruct (sendWithRetry_shape path opts tok w1) as (ans & more & Htr & Hshape).
    destruct (sendWithRetry_run path opts tok w1) as (ans' & rest & Htr' & Hsites & _).
    simpl in Htr, Hshape, Htr'.
    assert (Hsame : ans' = ans /\ rest = more).
    { rewrite Htr in Htr'. apply app_inv_head in Htr'. inversion Htr'. auto. }
    destruct Hsame as [-> ->].
    assert (Hevs : emittedBy (api path opts) w
                   = pre ++ EFetch Request (requestOf path opts (authHeaders opts tok)) ans
                       :: more).
    { apply Hem. rewrite Htr, Htr1, <- app_assoc. reflexivity. }
    rewrite Hevs in Hin |- *. clear Hem.
    apply in_app_or in Hin. destruct Hin as [Hin | [Heq | Hin]].
    + exfalso. apply In_sitesOf in Hin.
      destruct Hs as [-> | ->], Hpre as [Hp | Hp]; rewrite Hp in Hin; simpl in Hin;
        intuition discriminate.
    + inversion Heq; subst. exists tok. split; [reflexivity |]. split; [| discriminate].
      intros _. destruct (Htok tok w1 eq_refl) as [[-> Htrw] | (rq0 & rf & Htrw & Hp & Hne)].
      * left. split; [reflexivity |].
        assert (pre = []) as ->.
        { rewrite Htrw in Htr1. rewrite <- (app_nil_r (trace w)) in Htr1 at 1.
          apply app_inv_head in Htr1. auto. }
        rewrite sitesOf_app, sitesOf_fetch. simpl.
        destruct Hsites as [Hp | [Hp | Hp]]; rewrite Hp; simpl; intuition discriminate.
      * right. exists rq0, rf. split; [| split; assumption].
        assert (pre = [EFetch ProactiveRefresh rq0 (Some rf)]) as ->.
        { rewrite Htrw in Htr1. apply app_inv_head in Htr1. auto. }
        left. reflexivity.
    + destruct Hs as [-> | ->].
      { exfalso. apply In_sitesOf in Hin.
        destruct Hsites as [Hp | [Hp | Hp]]; rewrite Hp in Hin; simpl in Hin;
          intuition discriminate. }
      destruct ans as [res |].
      2:{ destruct Hshape as (-> & _). destruct Hin. }
      destruct (status res =? 401).
      2:{ destruct Hshape as (-> & _). destruct Hin. }
      unfold afterUnauthorized in Hshape.
      destruct (nonEmpty (storedRefresh w1)).
      2:{ destruct Hshape as (Hnone & _). apply In_sitesOf in Hin.
          rewrite Hnone in Hin. destruct Hin. }
      destruct Hshape as (ans1 & more' & -> & Hshape).
      destruct Hin as [Hin | Hin]; [discriminate |].
      destruct (usable ans1) eqn:Hu.
      2:{ destruct Hshape as (Hnone & _). apply In_sitesOf in Hin.
          rewrite Hnone in Hin. destruct Hin. }
      destruct Hshape as (rf & access & ans2 & ui & -> & Hp & -> & Hui & _).
      pose proof (usable_token rf access Hu Hp) as Hne.
      destruct Hin as [Heq | Hin].
      2:{ apply In_sitesOf in Hin. rewrite Hui in Hin. destruct Hin. }
      inversion Heq; subst. exists access.
      split; [unfold authHeaders; rewrite Hne; reflexivity |].
      split; [discriminate |]. intros _. eexists _, rf. split; [| split; assumption].
      apply in_or_app. right. right. left. reflexivity.
  - exfalso. rewrite (Hem pre Htr1) in Hin. apply In_sitesOf in Hin.
    destruct Hs as [-> | ->], Hout as [Hp | Hp]; rewrite Hp in Hin; simpl in Hin;
      intuition discriminate.
Qed.

(** X2. Every request and retry of [api] carries the headers of
    [opts.headers] with two exceptions: [Content-Type] is
    [application/json] unless [opts.headers] gives another, and
    [Authorization] is [Bearer <token>] whenever the token is not empty. The
    token of the request is the stored access token, or the one a proactive
    refresh has just returned; the token of the retry is the one the
    reactive refresh returned. *)
Theorem api_request_headers path opts w s rq a :
  In (EFetch s rq a) (emittedBy (api path opts) w) -> s = Request \/ s = Retry ->
  exists token,
    (s = Request ->
     (token = storedAccess w
      /\ ~ In ProactiveRefresh (sitesOf (emittedBy (api path opts) w)))
     \/ exists rq0 rf,
         In (EFetch ProactiveRefresh rq0 (Some rf)) (emittedBy (api path opts) w)
         /\ payload rf = Some (DataToken token) /\ nonEmpty token = true)
    /\ (s = Retry ->
        exists rq0 rf,
          In (EFetch ReactiveRefresh rq0 (Some rf)) (emittedBy (api path opts) w)
          /\ payload rf = Some (DataToken token) /\ nonEmpty token = true)
    /\ headers rq !! "Authorization"
       = (if nonEmpty token then Some ("Bearer " +:+ token)
          else opt_headers opts !! "Authorization")
    /\ headers rq !! "Content-Type"
       = Some (default "application/json" (opt_headers opts !! "Content-Type"))
    /\ (forall k, k <> "Content-Type" -> k <> "Authorization" ->
                  headers rq !! k = opt_headers opts !! k).
Proof.
  intros Hin Hs.
  destruct (api_request_token path opts w s rq a Hin Hs) as (token & -> & Hreq & Hretry).
  exists token. split; [exact Hreq |]. split; [exact Hretry |].
  change (headers (requestOf path opts (authHeaders opts token)))
    with (authHeaders opts token).
  split; [| split].
  - rewrite authHeaders_lookup. reflexivity.
  - rewrite authHeaders_lookup. reflexivity.
  - intros k Hc Ha. rewrite authHeaders_lookup.
    destruct (decide (k = "Authorization")); [congruence |].
    destruct (decide (k = "Content-Type")); [congruence |]. reflexivity.
Qed.

Lemma storedAccess_insert access w :
  storedAccess (withStorage (insert "abx_access" access) w) = access.
Proof. unfold storedAccess. simpl. rewrite lookup_insert_eq. reflexivity. Qed.

Lemma refreshIfExpiring_success w rf access rest :
  nonEmpty (storedAccess w) && expiring (decodeJwt (storedAccess w)) (clock w) = true ->
  nonEmpty (storedRefresh w) = true ->
  network w = Some rf :: rest ->
  ok rf = true -> payload rf = Some (DataToken access) -> nonEmpty access = true ->
  refreshIfExpiring (storedAccess w) w
  = (Return access,
     withStorage (insert "abx_access" access)
       (emit (EFetch ProactiveRefresh (refreshRequest (storedRefresh w)) (Some rf))
          (withNetwork rest w))).
Proof.
  intros Hexp Href Hnet Hok Hpay Hacc. apply andb_true_iff in Hexp. destruct Hexp as [Ht He].
  unfold refreshIfExpiring. rewrite Ht.
  unfold bind at 1, gets at 1. rewrite He.
  unfold bind at 1, tokens.refresh, bind at 1, getItem, gets, ret.
  fold (storedRefresh w). rewrite Href.
  unfold tryCatch, bind, fetch. rewrite Hnet, Hok.
  unfold json_of. simpl. rewrite Hpay. simpl. rewrite Hacc. reflexivity.
Qed.

(** X3. When the stored access token is about to expire, a refresh token is
    stored and the refresh endpoint answers ok with a non-empty [access],
    [api] stores the new token and goes on exactly as a call with it would:
    the first two fetches are the refresh and then the request, which
    carries the new token. *)
Theorem api_proactive_refresh_success path opts w rf access rest :
  nonEmpty (storedAccess w) && expiring (decodeJwt (storedAccess w)) (clock w) = true ->
  nonEmpty (storedRefresh w) = true ->
  network w = Some rf :: rest ->
  ok rf = true -> payload rf = Some (DataToken access) -> nonEmpty access = true ->
  let w1 := withStorage (insert "abx_access" access)
              (emit (EFetch ProactiveRefresh (refreshRequest (storedRefresh w)) (Some rf))
                 (withNetwork rest w)) in
  api path opts w = sendWithRetry path opts access w1
  /\ storedAccess w1 = access
  /\ exists ans more,
      emittedBy (api path opts) w
      = EFetch ProactiveRefresh (refreshRequest (storedRefresh w)) (Some rf)
          :: EFetch Request (requestOf path opts (bearer (jsonHeaders opts) access)) ans
          :: more.
Proof.
  intros Hexp Href Hnet Hok Hpay Hacc w1.
  assert (Heq : api path opts w = sendWithRetry path opts access w1).
  { rewrite api_blocks.
    rewrite (refreshIfExpiring_success w rf access rest Hexp Href Hnet Hok Hpay Hacc).
    reflexivity. }
  split; [exact Heq |]. split; [apply storedAccess_insert |].
  destruct (sendWithRetry_run path opts access w1) as (ans & more & Htr & _).
  exists ans, more. apply emittedBy_spec. rewrite Heq, Htr.
  unfold authHeaders. rewrite Hacc. unfold w1. simpl. rewrite <- app_assoc. reflexivity.
Qed.

Lemma invalidated_storage_closed message w :
  sessionInvalidated w = false ->
  storedAccess (invalidated message w) = "" /\ storedRefresh (invalidated message w) = "".
Proof.
  intros Hf. destruct (handleUnauthorizedResponse_closed message w Hf)
    as (_ & Ha & Hr & _).
  unfold storedAccess, storedRefresh, invalidated. rewrite Ha, Hr. split; reflexivity.
Qed.

Lemma invalidated_twice message w :
  invalidated message (invalidated message w) = countCall (invalidated message w).
Proof. apply invalidated_open. apply invalidated_flag. Qed.

Lemma count_messages_ui message w :
  sessionInvalidated w = false ->
  List.filter isMessage (uiEvents message w) = [EMessage message "error"].
Proof. intros Hf. unfold uiEvents. rewrite Hf. reflexivity. Qed.

Lemma uiEvents_after message message' w :
  uiEvents message (invalidated message' w) = [].
Proof. unfold uiEvents. rewrite invalidated_flag. reflexivity. Qed.

Lemma uiEvents_fetched message e w :
  uiEvents message (emit e w) = uiEvents message w.
Proof. reflexivity. Qed.

Lemma uiEvents_network message n w :
  uiEvents message (withNetwork n w) = uiEvents message w.
Proof. reflexivity. Qed.

Ltac closed_session :=
  let Hf := fresh "Hf" in
  intros Hf;
  match goal with
  | |- context [invalidated ?m ?X] =>
      let Ha := fresh "Ha" in
      let Hr := fresh "Hr" in
      let Hm := fresh "Hm" in
      destruct (invalidated_storage_closed m X Hf) as [Ha Hr];
      pose proof (count_messages_ui m X Hf) as Hm;
      split; [exact Ha | split; [exact Hr |]];
      simpl; rewrite ?app_nil_r; exact Hm
  end.

Lemma countCall_trace w : trace (countCall w) = trace w.
Proof. reflexivity. Qed.

Lemma countCall_calls w : unauthorizedCalls (countCall w) = S (unauthorizedCalls w).
Proof. reflexivity. Qed.

Lemma countCall_flag w : sessionInvalidated (countCall w) = sessionInvalidated w.
Proof. reflexivity. Qed.

Lemma refreshIfExpiring_failure w :
  nonEmpty (storedAccess w) && expiring (decodeJwt (storedAccess w)) (clock w) = true ->
  nonEmpty (storedRefresh w) && usable (default None (head (network w))) = false ->
  let run := refreshIfExpiring (storedAccess w) w in
  exists e evs,
    fst run = Throw e
    /\ trace (snd run) = trace w ++ evs
    /\ ~ In Request (sitesOf evs)
    /\ (unauthorizedCalls w < unauthorizedCalls (snd run))%nat
    /\ sessionInvalidated (snd run) = true
    /\ (sessionInvalidated w = false ->
        storedAccess (snd run) = "" /\ storedRefresh (snd run) = ""
        /\ List.filter isMessage evs = [EMessage sessionExpiredMessage "error"]).
Proof.
  intros Hexp Hbad run. apply andb_true_iff in Hexp. destruct Hexp as [Ht He].
  destruct run as [o w'] eqn:Hrun. subst run. simpl. revert Hrun.
  unfold refreshIfExpiring. rewrite Ht.
  unfold usable, storedRefresh in Hbad.
  unfold bind, ret, throw, tryCatch, gets, modify, when, fetch, json_of, access_of,
    tokens.access, tokens.refresh, tokens.set_access, getItem, setItem;
  simpl. rewrite He.
  run_js.
  all: try congruence.
  all: simpl in Hbad.
  all: repeat match goal with
              | Hx : ?x = _, Hb : context [?x] |- _ =>
                  lazymatch type of Hb with
                  | _ = false => rewrite Hx in Hb; simpl in Hb
                  end
              end.
  all: try discriminate Hbad.
  all: intros [= <- <-].
  all: rewrite ?invalidated_twice, ?countCall_trace, ?countCall_calls, ?countCall_flag;
    tidy_world.
  all: (do 2 eexists; split; [reflexivity |]; split; [reflexivity |]).
  all: rewrite ?sitesOf_app, ?sitesOf_fetch, ?sitesOf_uiEvents, ?sitesOf_nil,
         ?invalidated_flag, ?uiEvents_after, ?app_nil_r; simpl.
  all: (split; [intuition discriminate |]).
  all: (split; [lia |]).
  all: (split; [reflexivity |]).
  all: closed_session.
Qed.

(** X4. When the stored access token is about to expire and the proactive
    refresh cannot succeed (no refresh token, or an answer that is missing,
    not ok or without [access]), [api] throws, never sends the request,
    calls the session handler, and, unless the handler was debounced, leaves
    no token in storage and shows one message, the session-expired one. *)
Theorem api_refresh_failure_fails_closed path opts w :
  nonEmpty (storedAccess w) && expiring (decodeJwt (storedAccess w)) (clock w) = true ->
  nonEmpty (storedRefresh w) && usable (default None (head (network w))) = false ->
  let run := api path opts w in
  (exists e, fst run = Throw e)
  /\ ~ In Request (sitesOf (emittedBy (api path opts) w))
  /\ (unauthorizedCalls w < unauthorizedCalls (snd run))%nat
  /\ sessionInvalidated (snd run) = true
  /\ (sessionInvalidated w = false ->
      storedAccess (snd run) = "" /\ storedRefresh (snd run) = ""
      /\ List.filter isMessage (emittedBy (api path opts) w)
         = [EMessage sessionExpiredMessage "error"]).
Proof.
  intros Hexp Hbad run. subst run.
  destruct (refreshIfExpiring_failure w Hexp Hbad) as (e & evs & Hthrow & Htr & Hrest).
  assert (Heq : api path opts w = (Throw e, snd (refreshIfExpiring (storedAccess w) w))).
  { rewrite api_blocks. destruct (refreshIfExpiring (storedAccess w) w) as [o w1].
    simpl in Hthrow. subst o. reflexivity. }
  rewrite (emittedBy_spec (api path opts) w evs) by (rewrite Heq; exact Htr).
  rewrite Heq. simpl. split; [eauto | exact Hrest].
Qed.

(** X5. A 401 on the request, then a successful refresh, then a retry that
    is not a 401: [api] returns the retry's answer, the retry carries the
    new token, the new token is the stored one, and the session handler is
    not called. *)
Theorem api_reactive_refresh_retries_with_new_token path opts w res rf retry rest access :
  nonEmpty (storedAccess w) && expiring (decodeJwt (storedAccess w)) (clock w) = false ->
  network w = Some res :: Some rf :: Some retry :: rest ->
  status res = 401 ->
  nonEmpty (storedRefresh w) = true ->
  ok rf = true -> payload rf = Some (DataToken access) -> nonEmpty access = true ->
  status retry <> 401 ->
  let run := api path opts w in
  fst run = Return retry
  /\ storedAccess (snd run) = access
  /\ unauthorizedCalls (snd run) = unauthorizedCalls w
  /\ network (snd run) = rest
  /\ emittedBy (api path opts) w
     = [EFetch Request (requestOf path opts (authHeaders opts (storedAccess w))) (Some res);
        EFetch ReactiveRefresh (refreshRequest (storedRefresh w)) (Some rf);
        EFetch Retry (requestOf path opts (bearer (jsonHeaders opts) access)) (Some retry)].
Proof.
  intros Hfresh Hnet H401 Href Hok Hpay Hacc Hretry run.
  assert (Hrun : run
    = (Return retry,
       emit (EFetch Retry (requestOf path opts (bearer (jsonHeaders opts) access))
               (Some retry))
         (withNetwork rest
            (withStorage (insert "abx_access" access)
               (emit (EFetch ReactiveRefresh (refreshRequest (storedRefresh w)) (Some rf))
                  (withNetwork (Some retry :: rest)
                     (emit (EFetch Request
                              (requestOf path opts (authHeaders opts (storedAccess w)))
                              (Some res))
                        (withNetwork (Some rf :: Some retry :: rest) w)))))))).
  { subst run. rewrite api_no_refresh by exact Hfresh.
    unfold sendWithRetry. fold (authHeaders opts (storedAccess w)).
    unfold bind, ret, throw, tryCatch, gets, modify, when, fetch, json_of, access_of,
      tokens.access, tokens.refresh, tokens.set_access, getItem, setItem.
    simpl. rewrite Hnet. simpl. rewrite H401. simpl.
    fold (storedRefresh w). rewrite Href. simpl. rewrite Hok. simpl. rewrite Hpay. simpl.
    rewrite Hacc. simpl. rewrite lookup_insert_eq. simpl.
    rewrite (proj2 (Z.eqb_neq _ _) Hretry). reflexivity. }
  rewrite Hrun. simpl. split; [reflexivity |]. split; [apply storedAccess_insert |].
  split; [reflexivity |]. split; [reflexivity |].
  apply emittedBy_spec. fold run. rewrite Hrun. simpl. rewrite <- !app_assoc. reflexivity.
Qed.

(** X6. With no token stored, as the session handler and the logout action
    leave the storage, [api] makes exactly one fetch: the request, with no
    bearer token added, and no refresh whatever the answer. The answer is
    returned; the session handler is called exactly when it is a 401. *)
Theorem api_without_tokens path opts w :
  storedAccess w = "" -> storedRefresh w = "" ->
  exists ans ui,
    emittedBy (api path opts) w
    = EFetch Request (requestOf path opts (jsonHeaders opts)) ans :: ui
    /\ sitesOf ui = []
    /\ match ans with
       | Some res =>
           fst (api path opts w) = Return res
           /\ unauthorizedCalls (snd (api path opts w))
              = if status res =? 401 then S (unauthorizedCalls w)
                else unauthorizedCalls w
       | None =>
           fst (api path opts w) = Throw TypeError
           /\ unauthorizedCalls (snd (api path opts w)) = unauthorizedCalls w
       end.
Proof.
  intros Ha Hr.
  assert (Heq : api path opts w = sendWithRetry path opts "" w).
  { rewrite api_no_refresh; rewrite Ha; reflexivity. }
  destruct (sendWithRetry_shape path opts "" w) as (ans & more & Htr & Hshape).
  simpl in Htr, Hshape. exists ans, more. rewrite Heq.
  split; [apply emittedBy_spec; rewrite Heq; exact Htr |].
  destruct ans as [res |].
  - destruct (status res =? 401).
    + unfold afterUnauthorized in Hshape. rewrite Hr in Hshape. simpl in Hshape.
      destruct Hshape as (Hs & Hret & Hc). auto.
    + destruct Hshape as (-> & Hret & Hc). auto.
  - destruct Hshape as (-> & Hret & Hc). auto.
Qed.

Lemma invalidated_refresh message w :
  storedRefresh (invalidated message w) = if sessionInvalidated w then storedRefresh w else "".
Proof.
  destruct (sessionInvalidated w) eqn:Hf.
  - rewrite invalidated_open by exact Hf. reflexivity.
  - apply invalidated_storage_closed. exact Hf.
Qed.

Lemma sendWithRetry_refresh_token path opts tok w :
  storedRefresh (snd (sendWithRetry path opts tok w)) = storedRefresh w
  \/ storedRefresh (snd (sendWithRetry path opts tok w)) = "".
Proof.
  unfold sendWithRetry.
  run_js.
  all: rewrite ?invalidated_refresh; simpl.
  all: repeat match goal with
              | |- context [if ?b then _ else _] => destruct b
              end.
  all: unfold storedRefresh; simpl; rewrite ?lookup_insert_ne by discriminate; auto.
Qed.

Lemma refreshIfExpiring_refresh_token tok w :
  storedRefresh (snd (refreshIfExpiring tok w)) = storedRefresh w
  \/ storedRefresh (snd (refreshIfExpiring tok w)) = "".
Proof.
  unfold refreshIfExpiring.
  run_js.
  all: rewrite ?invalidated_refresh; simpl.
  all: repeat match goal with
              | |- context [if ?b then _ else _] => destruct b
              end.
  all: unfold storedRefresh; simpl; rewrite ?lookup_insert_ne by discriminate; auto.
Qed.

(** X30. [api] never writes the refresh token: after a call, whatever the
    network answered, the stored refresh token is the one stored before or
    there is none. *)
Theorem api_never_writes_refresh_token path opts w :
  storedRefresh (snd (api path opts w)) = storedRefresh w
  \/ storedRefresh (snd (api path opts w)) = "".
Proof.
  rewrite api_blocks.
  pose proof (refreshIfExpiring_refresh_token (storedAccess w) w) as H1.
  destruct (refreshIfExpiring (storedAccess w) w) as [[tok | e] w1]; simpl in *.
  - destruct (sendWithRetry_refresh_token path opts tok w1) as [H2 | H2];
      rewrite H2; [exact H1 | auto].
  - exact H1.
Qed.
End MoreApiFacts.

(** ** Session, logout and the stores *)

Section MoreSessionFacts.
Context `{Platform}.

(** X7. A call of the session handler that is not debounced removes the
    eight session keys from [localStorage], leaves [abx_tier] at the
    stringified ["login"], and touches no other key. *)
Theorem handleUnauthorizedResponse_storage message w :
  sessionInvalidated w = false ->
  let w1 := invalidated message w in
  (forall k, In k sessionKeys -> localStorage w1 !! k = None)
  /\ localStorage w1 !! "abx_tier" = Some (JSON_stringify (JStr "login"))
  /\ (forall k, ~ In k sessionKeys -> k <> "abx_tier" ->
                localStorage w1 !! k = localStorage w !! k).
Proof.
  intros Hf w1. subst w1.
  unfold invalidated, handleUnauthorizedResponse, bind, modify, gets; simpl.
  rewrite Hf. simpl. split; [| split].
  - intros k Hk. unfold sessionKeys in Hk. simpl in Hk.
    rewrite lookup_insert_ne by (intuition (subst; discriminate)).
    repeat (rewrite lookup_delete; case_decide; [reflexivity |]).
    exfalso. intuition congruence.
  - apply lookup_insert_eq.
  - intros k Hk Ht. unfold sessionKeys in Hk. simpl in Hk.
    rewrite lookup_insert_ne by congruence.
    rewrite !lookup_delete_ne by (intros <-; apply Hk; auto 12). reflexivity.
Qed.

(** X8. The debounce is no latch: with no other timer pending, a call that
    comes 1.5 s or more after a call that invalidated the session
    invalidates it afresh, shows its own message, and arms a new timer. *)
Theorem handleUnauthorizedResponse_again_after_window message message' w dt :
  sessionInvalidated w = false -> timers w = [] -> 1500 <= dt ->
  let w1 := invalidated message w in
  let w2 := invalidated message' (advance dt w1) in
  trace w2
  = trace w ++ [ECloseModal; EHide "#shutdown-overlay"; ESwitchTier "login";
                EMessage message "error";
                ECloseModal; EHide "#shutdown-overlay"; ESwitchTier "login";
                EMessage message' "error"]
  /\ sessionInvalidated w2 = true
  /\ timers w2 = [(clock w + dt + 1500, ResetSessionInvalidated)].
Proof.
  intros Hf Htm Hdt w1 w2.
  destruct (handleUnauthorizedResponse_closed message w Hf)
    as (Htr & _ & _ & _ & _ & Hinv1 & Htm1 & Hclk1 & _).
  fold (invalidated message w) in Htr, Hinv1, Htm1, Hclk1. fold w1 in Htr, Hinv1, Htm1, Hclk1.
  rewrite Htm in Htm1. simpl in Htm1.
  destruct (advance_fires w1 (clock w + 1500) dt Htm1 ltac:(lia)) as [Hf2 Htm2].
  destruct (handleUnauthorizedResponse_closed message' (advance dt w1) Hf2)
    as (Htr' & _ & _ & _ & _ & Hinv' & Htm' & _).
  fold (invalidated message' (advance dt w1)) in Htr', Hinv', Htm'. fold w2 in Htr', Hinv', Htm'.
  assert (Hadv : trace (advance dt w1) = trace w1 /\ clock (advance dt w1) = clock w1 + dt).
  { unfold advance. rewrite Htm1. simpl. unfold isDue. simpl.
    destruct (Z.leb_spec (clock w + 1500) (clock w1 + dt)); simpl; split; reflexivity. }
  destruct Hadv as [Htra Hclka].
  split; [| split].
  - rewrite Htr', Htra, Htr, <- app_assoc. reflexivity.
  - exact Hinv'.
  - rewrite Htm', Htm2, Hclka, Hclk1. reflexivity.
Qed.

(** X9. The logout action never throws; it removes the eight session keys,
    leaves [abx_tier] at the stringified ["facade"], resets [currentUser],
    shows the facade, closes the modal, hides the overlay and says
    "Logged out." as an [info] message; it touches neither the faction
    directory cache nor the debounce flag nor the timers. *)
Theorem logoutAction_spec w :
  let w1 := snd (logoutAction w) in
  fst (logoutAction w) = Return tt
  /\ (forall k, In k sessionKeys -> localStorage w1 !! k = None)
  /\ localStorage w1 !! "abx_tier" = Some (JSON_stringify (JStr "facade"))
  /\ currentUser w1 = {| role := ""; username := ""; display_name := "" |}
  /\ trace w1 = trace w ++ [ESwitchTier "facade"; ECloseModal; EHide "#shutdown-overlay";
                            EMessage "Logged out." "info"]
  /\ factionDirectoryCache w1 = factionDirectoryCache w
  /\ sessionInvalidated w1 = sessionInvalidated w
  /\ timers w1 = timers w.
Proof.
  unfold logoutAction, logout, bind, modify, gets; simpl.
  split; [reflexivity |]. split; [| split; [| split; [| split]]].
  - intros k Hk. unfold sessionKeys in Hk. simpl in Hk.
    rewrite lookup_insert_ne by (intuition (subst; discriminate)).
    repeat (rewrite lookup_delete; case_decide; [reflexivity |]).
    exfalso. intuition congruence.
  - apply lookup_insert_eq.
  - reflexivity.
  - rewrite <- !app_assoc. reflexivity.
  - repeat split.
Qed.

(** X10. Unlike the session handler, the logout action keeps the faction
    directory cache: a snapshot that was fresh before logout is served
    after it, without a fetch. *)
Theorem directory_survives_logout w :
  dir_list (factionDirectoryCache w) <> [] ->
  clock w - timestamp (factionDirectoryCache w) < 60000 ->
  let w1 := snd (logoutAction w) in
  getFactionDirectory false w1 = (Return (factionDirectoryCache w), w1).
Proof.
  intros Hne Hfresh w1.
  assert (Hc : factionDirectoryCache w1 = factionDirectoryCache w) by reflexivity.
  assert (Hk : clock w1 = clock w) by reflexivity.
  unfold getFactionDirectory, bind, gets, ret. rewrite Hc, Hk. unfold isFresh. simpl.
  destruct (dir_list (factionDirectoryCache w)) as [| x xs]; [congruence |]. simpl.
  rewrite (proj2 (Z.ltb_lt _ _) Hfresh). reflexivity.
Qed.

(** X11. [userStore.get] after [userStore.set(u)] gives [u] back, after
    [userStore.clear()] it gives the three empty strings, and
    [userStore.set] of a falsy argument does nothing. *)
Theorem userStore_round_trip u w :
  fst ((userStore.set (Some u) ;;; userStore.get) w) = Return u
  /\ fst ((userStore.clear ;;; userStore.get) w)
     = Return {| role := ""; username := ""; display_name := "" |}
  /\ userStore.set None w = (Return tt, w).
Proof.
  unfold userStore.set, userStore.get, userStore.clear, bind, setItem, removeItem, getItem,
    modify, gets, ret; simpl.
  split; [| split; [| reflexivity]].
  - rewrite lookup_insert_ne by discriminate. rewrite lookup_insert_ne by discriminate.
    rewrite lookup_insert_eq.
    rewrite lookup_insert_ne by discriminate. rewrite lookup_insert_eq.
    rewrite lookup_insert_eq. destruct u; reflexivity.
  - rewrite lookup_delete_ne by discriminate. rewrite lookup_delete_ne by discriminate.
    rewrite lookup_delete_eq.
    rewrite lookup_delete_ne by discriminate. rewrite lookup_delete_eq.
    rewrite lookup_delete_eq. reflexivity.
Qed.

(** X12. [stateStore.get] gives the fallback for a deleted key and for a
    stored text that does not parse; after [stateStore.set(key, val)] it
    gives what [JSON.parse] makes of [JSON.stringify(val)], or the fallback
    when that text is empty or does not parse. *)
Theorem stateStore_get_spec key fallback val w :
  fst ((stateStore.del key ;;; stateStore.get key fallback) w) = Return fallback
  /\ fst ((stateStore.set key val ;;; stateStore.get key fallback) w)
     = Return (if String.eqb (JSON_stringify val) "" then fallback
               else default fallback (JSON_parse (JSON_stringify val)))
  /\ (forall s, localStorage w !! key = Some s -> s <> "" -> JSON_parse s = None ->
                stateStore.get key fallback w = (Return fallback, w)).
Proof.
  unfold stateStore.del, stateStore.set, stateStore.get, bind, setItem, removeItem, getItem,
    modify, gets, ret; simpl.
  split; [| split].
  - rewrite lookup_delete_eq. reflexivity.
  - rewrite lookup_insert_eq. destruct (String.eqb (JSON_stringify val) ""); reflexivity.
  - intros s Hs Hne Hp. rewrite Hs. rewrite (proj2 (String.eqb_neq _ _) Hne), Hp. reflexivity.
Qed.
End MoreSessionFacts.

(** ** The faction directory, continued *)

Section MoreDirectoryFacts.
Context `{Platform}.

(** X13. A cache whose list is empty is never served: without [force] the
    call does exactly what a forced call does. This is the cache at start
    and after [invalidateFactionDirectory], and it stays so when the server
    lists no faction. *)
Theorem getFactionDirectory_empty_cache_refetches (w : World) :
  dir_list (factionDirectoryCache w) = [] ->
  getFactionDirectory false w = getFactionDirectory true w.
Proof.
  intros Hempty. unfold getFactionDirectory, bind, gets, ret, isFresh. simpl.
  rewrite Hempty. reflexivity.
Qed.

Lemma getFactionDirectory_forced_result w d w1 :
  getFactionDirectory true w = (Return d, w1) ->
  factionDirectoryCache w1 = d /\ exists l, d = snapshotOf l (clock w).
Proof.
  unfold getFactionDirectory, bind, gets, ret, isFresh, json_of, as_array, modify, throw.
  simpl.
  destruct (api "/api/scales/factions/" noOptions w) as [[res | e] w0]; [| discriminate].
  destruct (ok res); [| discriminate].
  destruct (payload res) as [[a | l | |] |]; simpl; try discriminate.
  intros [= <- <-]. simpl. split; [reflexivity | eauto].
Qed.

(** X14. What a forced call fetched is what later calls get: if the forced
    call returns a snapshot with a non-empty list, a call without [force]
    made less than 60 s after the forced call began returns the same
    snapshot and changes nothing. *)
Theorem getFactionDirectory_serves_what_it_fetched (w w1 : World) (d : directory) (dt : Z) :
  getFactionDirectory true w = (Return d, w1) ->
  dir_list d <> [] ->
  dt < 60000 ->
  getFactionDirectory false (withClock (clock w + dt) w1)
  = (Return d, withClock (clock w + dt) w1).
Proof.
  intros Hget Hne Hdt.
  destruct (getFactionDirectory_forced_result w d w1 Hget) as (Hc & l & Hd).
  unfold getFactionDirectory, bind, gets, ret, isFresh. simpl. rewrite Hc.
  destruct (dir_list d) as [| x xs] eqn:Hl; [congruence |]. simpl.
  assert (Hts : timestamp d = clock w) by (rewrite Hd; reflexivity).
  rewrite Hts. rewrite (proj2 (Z.ltb_lt _ _)) by lia. reflexivity.
Qed.

Lemma indices_untouched (l : list (option faction)) acc n :
  (forall g, In (Some g) l -> faction_name g <> n) ->
  fst (fold_left indexStep l acc) !! n = fst acc !! n.
Proof.
  revert acc. induction l as [| item l IH]; intros acc Hl; simpl; [reflexivity |].
  rewrite IH by (intros g Hg; apply Hl; right; exact Hg).
  destruct item as [g |]; simpl; [| reflexivity].
  destruct (nonEmpty (faction_name g)); [| reflexivity]. simpl.
  apply lookup_insert_ne. apply Hl. left. reflexivity.
Qed.

(** X15. In the by-name index of a snapshot a later entry replaces an
    earlier one of the same name: the entry found under a name is the last
    entry of the list with that name. *)
Theorem snapshotOf_last_duplicate_wins before f later now :
  faction_name f <> "" ->
  (forall g, In (Some g) later -> faction_name g <> faction_name f) ->
  byName (snapshotOf (before ++ Some f :: later) now) !! faction_name f = Some f.
Proof.
  intros Hne Hlater. unfold snapshotOf, buildIndices. simpl.
  rewrite fold_left_app. simpl. rewrite indices_untouched by exact Hlater.
  unfold indexStep. rewrite (proj2 (nonEmpty_true _) Hne). simpl.
  apply lookup_insert_eq.
Qed.

Lemma scanLabels_some lower l label :
  scanLabels lower l = Some label ->
  toLowerCase label = lower /\ exists item, In item l /\ labelOf item = label.
Proof.
  induction l as [| item l IH]; simpl; [discriminate |].
  destruct (String.eqb (toLowerCase (labelOf item)) lower) eqn:Heq.
  - intros [= <-]. apply String.eqb_eq in Heq. split; [exact Heq | eauto].
  - intros Hs. destruct (IH Hs) as (Hl & item' & Hin & Hlab). split; [exact Hl | eauto].
Qed.

(** X16. Against a snapshot built by [getFactionDirectory] or the empty
    one, and for any [trim] and [toLowerCase] of the host,
    [resolveFactionName] never throws and changes nothing; what it returns
    equals the trimmed input under [toLowerCase]; it is the trimmed input
    itself or the label of an entry of the list (its name, or the empty
    string for an entry without one), and it is the trimmed input itself
    when an entry has exactly that name. *)
Theorem resolveFactionName_on_fetched_directory (value : string) (w : World) l now :
  factionDirectoryCache w = snapshotOf l now ->
  exists r,
    resolveFactionName value w = (Return r, w)
    /\ toLowerCase r = toLowerCase (trim value)
    /\ (r = trim value \/ exists item, In item l /\ labelOf item = r)
    /\ (forall f, In (Some f) l -> faction_name f = trim value -> trim value <> "" ->
                  r = trim value).
Proof.
  intros Hcache. unfold resolveFactionName.
  destruct (nonEmpty (trim value)) eqn:Hname.
  - apply nonEmpty_true in Hname. unfold bind, gets, ret. simpl. rewrite Hcache.
    destruct (byName (snapshotOf l now) !! trim value) as [exact |] eqn:Hexact.
    + unfold snapshotOf, buildIndices in Hexact. simpl in Hexact.
      destruct (indices_sound l (∅, ∅) (trim value) exact) as [Hs _].
      destruct (Hs Hexact) as [He | (Hin & Hn & _)];
        [simpl in He; rewrite lookup_empty in He; discriminate |].
      rewrite (proj2 (nonEmpty_true (faction_name exact))) by congruence.
      eexists. split; [reflexivity |]. rewrite Hn. repeat split; auto.
    + simpl.
      destruct (scanLabels (toLowerCase (trim value)) l) as [label |] eqn:Hscan; simpl.
      * destruct (scanLabels_some _ _ _ Hscan) as (Hlow & item & Hin & Hlab).
        eexists. split; [reflexivity |]. split; [exact Hlow |]. split.
        -- right. exists item. split; assumption.
        -- intros f Hf Hfn Hne. exfalso.
           destruct (indices_complete l (∅, ∅) f Hf) as [[g Hg] _]; [congruence |].
           unfold snapshotOf, buildIndices in Hexact. simpl in Hexact.
           rewrite Hfn in Hg. congruence.
      * eexists. split; [reflexivity |]. repeat split; auto.
  - apply nonEmpty_false in Hname. rewrite Hname. exists "". repeat split; auto.
Qed.
End MoreDirectoryFacts.

(** ** The roster dialog, continued *)

Lemma offered_set_same k e e' (m : list (Z * entry)) c :
  Map_get k m = Some e -> isRemoved e' = isRemoved e ->
  offered (Map_set k e' m) c = offered m c.
Proof.
  intros Hget Hrem. unfold offered.
  destruct (decide (k = cand_profile_id c)) as [<- | Hne].
  - rewrite Map_get_set_eq, Hget. exact Hrem.
  - rewrite Map_get_set_ne by exact Hne. reflexivity.
Qed.

Lemma offered_set_other k e (m : list (Z * entry)) c :
  cand_profile_id c <> k -> offered (Map_set k e m) c = offered m c.
Proof.
  intros Hne. unfold offered. rewrite Map_get_set_ne by congruence. reflexivity.
Qed.

Lemma offered_set_removed k e (m : list (Z * entry)) c :
  isRemoved e = true -> offered m c = true -> offered (Map_set k e m) c = true.
Proof.
  intros Hrem Hoff. unfold offered.
  destruct (decide (k = cand_profile_id c)) as [<- | Hne].
  - rewrite Map_get_set_eq. exact Hrem.
  - rewrite Map_get_set_ne by exact Hne. exact Hoff.
Qed.

Lemma offered_delete k (m : list (Z * entry)) c :
  NoDup (map fst m) -> offered m c = true -> offered (Map_delete k m) c = true.
Proof.
  intros Hnd Hoff. unfold offered.
  destruct (decide (k = cand_profile_id c)) as [<- | Hne].
  - rewrite Map_get_delete_eq by exact Hnd. reflexivity.
  - rewrite Map_get_delete_ne by exact Hne. exact Hoff.
Qed.

Lemma setCandidateAff_offered id v (m : list (Z * entry)) l :
  Forall (fun c => offered m c = true) l ->
  Forall (fun c => offered m c = true) (setCandidateAff id v l).
Proof.
  induction 1 as [| c l Hc Hl IH]; simpl; [constructor |].
  destruct (cand_profile_id c =? id); constructor; auto.
Qed.

Lemma step_candidatesOffered st a :
  wellFormed st -> candidatesOffered st -> candidatesOffered (step st a).
Proof.
  intros [Hnd _] Hoff. unfold candidatesOffered in *.
  destruct a as [d | term answer | id v | id | id v | id sel]; simpl.
  - constructor.
  - unfold loadCandidates. destruct (nonEmpty term); [| constructor].
    destruct answer as [incoming |]; simpl; [| exact Hoff].
    apply List.Forall_forall. intros c Hc. apply filter_In in Hc. tauto.
  - unfold memberAffChange. destruct (Map_get id (rosterState st)) as [e |] eqn:Hget;
      [| exact Hoff]. simpl.
    eapply Forall_impl; [exact Hoff |]. intros c Hc. simpl in Hc.
    rewrite (offered_set_same id e) by (exact Hget || reflexivity). exact Hc.
  - unfold memberRemove. destruct (Map_get id (rosterState st)) as [e |] eqn:Hget;
      [| exact Hoff]. simpl.
    eapply Forall_impl; [exact Hoff |]. intros c Hc. simpl in Hc.
    destruct (isNew e).
    + apply offered_delete; assumption.
    + apply offered_set_removed; [reflexivity | exact Hc].
  - apply setCandidateAff_offered. exact Hoff.
  - unfold candidateAdd.
    destruct (findCandidate id (candidateCache st)) as [cand |]; [| exact Hoff].
    destruct (nonEmpty _); [| exact Hoff]. simpl.
    apply List.Forall_forall. intros c Hc. apply filter_In in Hc. destruct Hc as [Hin Hne].
    apply negb_true_iff, Z.eqb_neq in Hne.
    rewrite List.Forall_forall in Hoff.
    destruct (Map_get id (rosterState st)); rewrite offered_set_other by exact Hne;
      apply Hoff; exact Hin.
Qed.

(** X17. After any sequence of actions in the roster dialog, no candidate on
    offer is an active member: its id is absent from the roster or belongs
    to an entry marked removed. *)
Theorem roster_offers_no_active_member (acts : list action) (c : candidate) :
  In c (candidateCache (after acts)) ->
  match Map_get (cand_profile_id c) (rosterState (after acts)) with
  | Some existing => isRemoved existing = true
  | None => True
  end.
Proof.
  assert (Hall : forall acts, candidatesOffered (after acts)).
  { clear. intros acts. induction acts as [| a acts IH] using rev_ind.
    - constructor.
    - rewrite after_snoc. apply step_candidatesOffered; [apply after_wellFormed | exact IH]. }
  intros Hin. specialize (Hall acts). unfold candidatesOffered in Hall.
  rewrite List.Forall_forall in Hall. specialize (Hall c Hin). unfold offered in Hall.
  destruct (Map_get _ _); [exact Hall | exact I].
Qed.

(** X18. Right after the initial data is applied, whatever the server sent
    and whatever the dialog held before, the commit diff is empty,
    [hasChanges()] is false, the save button is disabled and no candidate
    is on offer. *)
Theorem roster_fresh_load_has_nothing_to_save (d : rosterData) (st : roster) :
  rosterDiff (applyInitialData d st) = noBuckets
  /\ hasChanges (applyInitialData d st) = false
  /\ saveDisabled (applyInitialData d st) = true
  /\ candidateCache (applyInitialData d st) = [].
Proof.
  assert (Hdiff : rosterDiff (applyInitialData d st) = noBuckets).
  { unfold rosterDiff. apply diff_pristine. apply applyInitialData_pristine. }
  assert (Hch : hasChanges (applyInitialData d st) = false).
  { pose proof (diff_anyChange (Map_values (rosterState (applyInitialData d st))) noBuckets
                  (pristine_consistent _ (applyInitialData_pristine d st))) as Hd.
    fold (rosterDiff (applyInitialData d st)) in Hd. rewrite Hdiff in Hd. simpl in Hd.
    unfold hasChanges. destruct (anyChange _); [discriminate | reflexivity]. }
  repeat split; try assumption.
  change (saveDisabled (applyInitialData d st))
    with (negb (hasChanges (applyInitialData d st))).
  rewrite Hch. reflexivity.
Qed.

Lemma Map_delete_set_absent {K V} `{EqDecision K} (k : K) (v : V) (m : list (K * V)) :
  Map_get k m = None -> Map_delete k (Map_set k v m) = m.
Proof.
  induction m as [| [k' v'] m IH]; simpl.
  - destruct (decide (k = k)); congruence.
  - destruct (decide (k = k')); [discriminate |]. intros Hget. simpl.
    destruct (decide (k = k')); [congruence |]. rewrite IH by exact Hget. reflexivity.
Qed.

Lemma findCandidate_filtered id (l : list candidate) :
  findCandidate id (List.filter (fun c => negb (cand_profile_id c =? id)) l) = None.
Proof.
  unfold findCandidate. induction l as [| c l IH]; simpl; [reflexivity |].
  destruct (cand_profile_id c =? id) eqn:Heq; simpl; [exact IH |].
  rewrite Heq. exact IH.
Qed.

(** X19. Adding a candidate who is not in the roster and removing the new
    member again leaves the roster as it was, with no tombstone; the
    candidate, if it was added, is no longer on offer. *)
Theorem roster_add_then_remove_is_undone (id : Z) (selected : string) (st : roster) :
  Map_get id (rosterState st) = None ->
  let st' := memberRemove id (candidateAdd id selected st) in
  rosterState st' = rosterState st
  /\ (st' = st \/ findCandidate id (candidateCache st') = None).
Proof.
  intros Hget. unfold candidateAdd.
  destruct (findCandidate id (candidateCache st)) as [cand |].
  2:{ simpl. unfold memberRemove. rewrite Hget. auto. }
  destruct (nonEmpty _).
  2:{ simpl. unfold memberRemove. rewrite Hget. auto. }
  rewrite Hget. unfold memberRemove. simpl. rewrite Map_get_set_eq. simpl.
  rewrite Map_delete_set_absent by exact Hget. split; [reflexivity |].
  right. apply findCandidate_filtered.
Qed.

Lemma step_tracks st a :
  saveDisabled st = negb (hasChanges st) ->
  saveDisabled (step st a) = negb (hasChanges (step st a)).
Proof.
  intros Hst. destruct a as [d | term answer | id v | id | id v | id sel]; simpl.
  - reflexivity.
  - unfold loadCandidates. destruct (nonEmpty term); [destruct answer |]; exact Hst.
  - unfold memberAffChange. destruct (Map_get id (rosterState st)); [reflexivity | exact Hst].
  - unfold memberRemove. destruct (Map_get id (rosterState st)); [reflexivity | exact Hst].
  - exact Hst.
  - unfold candidateAdd. destruct (findCandidate id (candidateCache st)); [| exact Hst].
    destruct (nonEmpty _); [reflexivity | exact Hst].
Qed.

Lemma after_tracks acts : saveDisabled (after acts) = negb (hasChanges (after acts)).
Proof.
  induction acts as [| a acts IH] using rev_ind; [reflexivity |].
  rewrite after_snoc. apply step_tracks. exact IH.
Qed.

Lemma step_resyncs st a :
  rosterState (step st a) <> rosterState st ->
  saveDisabled (step st a) = negb (hasChanges (step st a)).
Proof.
  destruct a as [d | term answer | id v | id | id v | id sel]; simpl.
  - reflexivity.
  - unfold loadCandidates. destruct (nonEmpty term); [destruct answer |]; simpl; congruence.
  - unfold memberAffChange.
    destruct (Map_get id (rosterState st)); [reflexivity | congruence].
  - unfold memberRemove.
    destruct (Map_get id (rosterState st)); [reflexivity | congruence].
  - congruence.
  - unfold candidateAdd. destruct (findCandidate id (candidateCache st)); [| congruence].
    destruct (nonEmpty _); [reflexivity | congruence].
Qed.

Section MoreSaveFacts.
Context `{Platform}.

(** X20. With no save in flight, after any sequence of actions in the roster
    dialog the save button is disabled exactly when [hasChanges()] is false,
    and every action that changes the roster map sets the button so,
    whatever its state was. The save handler never throws; when it had
    something to send, it leaves the button enabled once the request is
    settled, over whatever the other handlers made of the dialog in the
    meantime. *)
Theorem roster_save_button_tracks_changes :
  (forall acts, saveDisabled (after acts) = negb (hasChanges (after acts)))
  /\ (forall st a,
        rosterState (step st a) <> rosterState st ->
        saveDisabled (step st a) = negb (hasChanges (step st a)))
  /\ (forall factionId meanwhile st w,
        nothingToSave (rosterDiff st) = false ->
        exists w',
          saveRosterThen factionId meanwhile st w
          = (Return (withSaveDisabled false (meanwhile (withSaveDisabled true st))), w')).
Proof.
  split; [apply after_tracks |]. split; [apply step_resyncs |].
  intros factionId meanwhile st w Hn. unfold saveRosterThen. rewrite Hn.
  assert (Hret : exists w', commitRoster factionId (rosterDiff st) w = (Return tt, w')).
  { unfold commitRoster, tryCatch.
    match goal with
    | |- context [bind ?m ?k w] => destruct (bind m k w) as [[[] | e] w1]
    end; eexists; reflexivity. }
  destruct Hret as (w' & Hret). unfold bind. rewrite Hret. eexists. reflexivity.
Qed.
End MoreSaveFacts.

Lemma Map_get_In {K V} `{EqDecision K} (k : K) (v : V) (m : list (K * V)) :
  Map_get k m = Some v -> In (k, v) m.
Proof.
  induction m as [| [k' v'] m IH]; simpl; [discriminate |].
  destruct (decide (k = k')) as [-> | Hne]; [intros [= ->]; auto | auto].
Qed.

Lemma Map_delete_Forall {K V} `{EqDecision K} (P : K * V -> Prop) (k : K)
    (m : list (K * V)) :
  Forall P m -> Forall P (Map_delete k m).
Proof.
  induction 1 as [| [k' v'] m Hx Hm IH]; simpl; [constructor |].
  destruct (decide (k = k')); [exact Hm | constructor; assumption].
Qed.

Lemma keyed_get k e (m : list (Z * entry)) :
  keyed m -> Map_get k m = Some e -> profile_id e = k.
Proof.
  intros Hk Hget. apply Map_get_In in Hget. unfold keyed in Hk.
  rewrite List.Forall_forall in Hk. exact (Hk _ Hget).
Qed.

Lemma step_keyed st a : keyed (rosterState st) -> keyed (rosterState (step st a)).
Proof.
  intros Hk. destruct a as [d | term answer | id v | id | id v | id sel]; simpl.
  - eapply Forall_impl; [apply (applyInitialData_pristine d st) |].
    intros ke Hp. apply Hp.
  - unfold loadCandidates. destruct (nonEmpty term); [destruct answer |]; exact Hk.
  - unfold memberAffChange.
    destruct (Map_get id (rosterState st)) as [e |] eqn:Hget; [| exact Hk]. simpl.
    apply Map_set_Forall; [exact Hk |]. simpl. eapply keyed_get; eassumption.
  - unfold memberRemove.
    destruct (Map_get id (rosterState st)) as [e |] eqn:Hget; [| exact Hk]. simpl.
    destruct (isNew e).
    + apply Map_delete_Forall. exact Hk.
    + apply Map_set_Forall; [exact Hk |]. simpl. eapply keyed_get; eassumption.
  - exact Hk.
  - unfold candidateAdd. destruct (findCandidate id (candidateCache st)); [| exact Hk].
    destruct (nonEmpty _); [| exact Hk]. simpl.
    destruct (Map_get id (rosterState st)) as [e |] eqn:Hget;
      (apply Map_set_Forall; [exact Hk |]); simpl; [| reflexivity].
    eapply keyed_get; eassumption.
Qed.

Lemma after_keyed acts : keyed (rosterState (after acts)).
Proof.
  induction acts as [| a acts IH] using rev_ind; [constructor |].
  rewrite after_snoc. apply step_keyed. exact IH.
Qed.

Lemma keyed_ids (m : list (Z * entry)) :
  keyed m -> map profile_id (Map_values m) = map fst m.
Proof.
  induction 1 as [| ke m Hke Hm IH]; simpl; [reflexivity |]. rewrite Hke, IH. reflexivity.
Qed.

Lemma diffStep_names acc e :
  exists sub, sublist sub [profile_id e]
              /\ Permutation (namedIn (diffStep acc e)) (namedIn acc ++ sub).
Proof.
  unfold diffStep, namedIn.
  destruct (isNew e && negb (isRemoved e)); [| destruct (isRemoved e && negb (isNew e));
    [| destruct (negb (String.eqb (affiliation e) (originalAffiliation e)))]]; simpl.
  - exists [profile_id e]. split; [reflexivity |].
    rewrite map_app. simpl. rewrite <- !app_assoc. simpl.
    apply Permutation_app_head. rewrite app_assoc. apply Permutation_cons_append.
  - exists [profile_id e]. split; [reflexivity |]. rewrite !app_assoc. reflexivity.
  - exists [profile_id e]. split; [reflexivity |].
    rewrite map_app. simpl. rewrite <- !app_assoc. simpl.
    do 2 apply Permutation_app_head. apply Permutation_cons_append.
  - exists []. split; [apply sublist_nil_l |]. rewrite !app_nil_r. reflexivity.
Qed.

Lemma diff_names (l : list entry) acc :
  exists sub, sublist sub (map profile_id l)
              /\ Permutation (namedIn (fold_left diffStep l acc)) (namedIn acc ++ sub).
Proof.
  revert acc. induction l as [| e l IH]; intros acc; simpl.
  - exists []. split; [constructor |]. rewrite app_nil_r. reflexivity.
  - destruct (diffStep_names acc e) as (s0 & Hs0 & Hp0).
    destruct (IH (diffStep acc e)) as (sub & Hsub & Hp).
    exists (s0 ++ sub). split.
    + change (profile_id e :: map profile_id l) with ([profile_id e] ++ map profile_id l).
      apply sublist_app; assumption.
    + rewrite Hp, Hp0, app_assoc. reflexivity.
Qed.

(** X21. After any sequence of actions in the roster dialog, the commit
    names no profile id twice, within a bucket or across [add], [updates]
    and [remove]. *)
Theorem roster_commit_names_each_member_once (acts : list action) :
  NoDup (namedIn (rosterDiff (after acts))).
Proof.
  unfold rosterDiff.
  destruct (diff_names (Map_values (rosterState (after acts))) noBuckets)
    as (sub & Hsub & Hp).
  rewrite Hp. simpl.
  eapply sublist_NoDup; [| exact Hsub].
  rewrite keyed_ids by apply after_keyed. apply after_wellFormed.
Qed.

(** ** The operation dialogs *)

Lemma loaded_agentKeyed (l : list agent) m :
  agentKeyed m -> agentKeyed (fold_left (fun m a => Map_set (agent_id a) a m) l m).
Proof.
  revert m. induction l as [| a l IH]; intros m Hm; simpl; [exact Hm |].
  apply IH. destruct Hm as [Hnd Hk]. split.
  - apply Map_set_NoDup. exact Hnd.
  - apply Map_set_Forall; [exact Hk | reflexivity].
Qed.

Lemma personnelStep_agentKeyed st a :
  agentKeyed (assigned st) -> agentKeyed (assigned (personnelStep st a)).
Proof.
  intros Hst. destruct a as [query l c | id v | id | id al]; simpl.
  - destruct (nonEmpty query); [exact Hst |].
    apply loaded_agentKeyed. split; constructor.
  - unfold roleInput. destruct (Map_get id (assigned st)) as [a |] eqn:Hget; [| exact Hst].
    simpl. destruct Hst as [Hnd Hk]. split.
    + apply Map_set_NoDup. exact Hnd.
    + apply Map_set_Forall; [exact Hk |]. simpl.
      apply Map_get_In in Hget. rewrite List.Forall_forall in Hk. exact (Hk _ Hget).
  - destruct Hst as [Hnd Hk]. split.
    + apply Map_delete_NoDup. exact Hnd.
    + apply Map_delete_Forall. exact Hk.
  - unfold addAgent. destruct (Map_has id (assigned st)); [exact Hst |]. simpl.
    destruct Hst as [Hnd Hk]. split.
    + apply Map_set_NoDup. exact Hnd.
    + apply Map_set_Forall; [exact Hk | reflexivity].
Qed.

(** X22. After any sequence of actions in the personnel dialog (answers of
    the server with numeric agent ids, role edits, removals, additions),
    the assignments that a commit would post name no agent twice. *)
Theorem personnel_assigns_each_agent_once (acts : list personnelAction) :
  NoDup (map agent_id (Map_values (assigned (personnelAfter acts)))).
Proof.
  assert (Hk : agentKeyed (assigned (personnelAfter acts))).
  { unfold personnelAfter. induction acts as [| a acts IH] using rev_ind.
    - split; constructor.
    - rewrite fold_left_app. simpl. apply personnelStep_agentKeyed. exact IH. }
  destruct Hk as [Hnd Hk].
  replace (map agent_id (Map_values (assigned (personnelAfter acts))))
    with (map fst (assigned (personnelAfter acts))); [exact Hnd |].
  clear Hnd. induction Hk as [| ka m Hka Hm IH]; simpl; [reflexivity |].
  rewrite Hka, IH. reflexivity.
Qed.

(** X23. Removing an assigned agent and adding the agent again from the
    candidates gives a fresh entry: the alias is the candidate's and the
    role is "Field Agent", whatever role the agent had. *)
Theorem personnel_readd_resets_role (agentId : Z) (alias_ : string) (st : personnel) :
  NoDup (map fst (assigned st)) ->
  Map_get agentId (assigned (addAgent agentId alias_ (removeAgent agentId st)))
  = Some {| agent_id := agentId; alias := alias_; role_in_op := "Field Agent" |}.
Proof.
  intros Hnd. unfold addAgent, removeAgent, Map_has. simpl.
  rewrite Map_get_delete_eq by exact Hnd. simpl. apply Map_get_set_eq.
Qed.

Lemma Map_values_set_absent {K V} `{EqDecision K} (k : K) (v : V) (m : list (K * V)) :
  Map_get k m = None -> Map_values (Map_set k v m) = Map_values m ++ [v].
Proof.
  unfold Map_values. induction m as [| [k' v'] m IH]; simpl; [reflexivity |].
  destruct (decide (k = k')); [discriminate |]. intros Hget. simpl.
  rewrite IH by exact Hget. reflexivity.
Qed.

Lemma idsOfType_snoc type l t :
  idsOfType type (l ++ [t])
  = idsOfType type l ++ (if String.eqb (target_type t) type then [target_id t] else []).
Proof.
  unfold idsOfType. rewrite List.filter_app, map_app. simpl.
  destruct (String.eqb (target_type t) type); reflexivity.
Qed.

(** X24. Adding a target that is not designated yet appends its id to
    [profile_ids] when its type is [profile], to [faction_ids] when it is
    [faction], and to neither for any other type: such a target is kept in
    the dialog but never posted. *)
Theorem addTarget_payload (id : Z) (name type : string) (m : list (string * target)) :
  Map_get (targetKey type id) m = None ->
  targetsPayload (addTarget id name type m)
  = JObj [("profile_ids",
           JArr (map JNum (idsOfType "profile" (Map_values m)
                           ++ (if String.eqb type "profile" then [id] else []))));
          ("faction_ids",
           JArr (map JNum (idsOfType "faction" (Map_values m)
                           ++ (if String.eqb type "faction" then [id] else []))))].
Proof.
  intros Hget. unfold addTarget, Map_has, targetsPayload. rewrite Hget.
  rewrite Map_values_set_absent by exact Hget. rewrite !idsOfType_snoc. reflexivity.
Qed.

(** ** [escapeHtml] *)

Lemma str_app_cons a (s t : string) : String a s +:+ t = String a (s +:+ t).
Proof. reflexivity. Qed.

Lemma str_app_assoc (a b c : string) : (a +:+ b) +:+ c = a +:+ (b +:+ c).
Proof.
  induction a as [| x a IH]; [reflexivity |]. rewrite !str_app_cons, IH. reflexivity.
Qed.

Lemma replaceAll_app c by_ s1 s2 :
  replaceAll c by_ (s1 +:+ s2) = replaceAll c by_ s1 +:+ replaceAll c by_ s2.
Proof.
  induction s1 as [| a s1 IH]; [reflexivity |]. rewrite str_app_cons. simpl.
  destruct (Ascii.eqb a c); rewrite IH; [rewrite str_app_assoc |]; reflexivity.
Qed.

Lemma escapeHtml_cons a s : escapeHtml (String a s) = escapeChar a +:+ escapeHtml s.
Proof.
  unfold escapeHtml, escapeChar. simpl.
  destruct (Ascii.eqb a "&") eqn:E1.
  { rewrite !replaceAll_app. reflexivity. }
  simpl. destruct (Ascii.eqb a "<") eqn:E2.
  { rewrite !replaceAll_app. reflexivity. }
  simpl. destruct (Ascii.eqb a ">") eqn:E3.
  { rewrite !replaceAll_app. reflexivity. }
  simpl. destruct (Ascii.eqb a dquote) eqn:E4.
  { rewrite !replaceAll_app. reflexivity. }
  simpl. destruct (Ascii.eqb a "'") eqn:E5; reflexivity.
Qed.

Lemma escapeHtml_each s : escapeHtml s = escapeEach s.
Proof.
  induction s as [| a s IH]; [reflexivity |].
  rewrite escapeHtml_cons, IH. reflexivity.
Qed.

Lemma occurs_app c s1 s2 : occurs c (s1 +:+ s2) = occurs c s1 || occurs c s2.
Proof.
  induction s1 as [| a s1 IH]; [reflexivity |]. rewrite str_app_cons. simpl.
  rewrite IH, orb_assoc. reflexivity.
Qed.

Lemma escapeChar_no_markup a c : markup c = true -> occurs c (escapeChar a) = false.
Proof.
  unfold markup, escapeChar. intros Hc.
  destruct (Ascii.eqb a "&") eqn:E1; [| destruct (Ascii.eqb a "<") eqn:E2;
    [| destruct (Ascii.eqb a ">") eqn:E3; [| destruct (Ascii.eqb a dquote) eqn:E4;
      [| destruct (Ascii.eqb a "'") eqn:E5]]]].
  1-5: repeat (apply orb_true_iff in Hc; destruct Hc as [Hc | Hc]);
       apply Ascii.eqb_eq in Hc; subst c; reflexivity.
  simpl. rewrite orb_false_r.
  repeat (apply orb_true_iff in Hc; destruct Hc as [Hc | Hc]);
    apply Ascii.eqb_eq in Hc; subst c; assumption.
Qed.

(** X25. The result of [escapeHtml] contains none of [<], [>], the double
    quote and the single quote, whatever the input. *)
Theorem escapeHtml_leaves_no_markup (s : string) (c : ascii) :
  markup c = true -> occurs c (escapeHtml s) = false.
Proof.
  intros Hc. rewrite escapeHtml_each.
  induction s as [| a s IH]; simpl; [reflexivity |].
  rewrite occurs_app, IH, (escapeChar_no_markup a c Hc). reflexivity.
Qed.

Lemma escapeChar_step a b x y :
  escapeChar a +:+ x = escapeChar b +:+ y -> a = b /\ x = y.
Proof.
  unfold escapeChar.
  destruct (Ascii.eqb a "&") eqn:A1; [| destruct (Ascii.eqb a "<") eqn:A2;
    [| destruct (Ascii.eqb a ">") eqn:A3; [| destruct (Ascii.eqb a dquote) eqn:A4;
      [| destruct (Ascii.eqb a "'") eqn:A5]]]];
  (destruct (Ascii.eqb b "&") eqn:B1; [| destruct (Ascii.eqb b "<") eqn:B2;
    [| destruct (Ascii.eqb b ">") eqn:B3; [| destruct (Ascii.eqb b dquote) eqn:B4;
      [| destruct (Ascii.eqb b "'") eqn:B5]]]]);
  repeat match goal with
         | E : Ascii.eqb _ _ = true |- _ => apply Ascii.eqb_eq in E; subst
         end;
  cbv [append]; intros Heq; try discriminate Heq;
  try (injection Heq as Heq; subst; split; reflexivity);
  try (injection Heq as Hc Heq; subst;
       first [ rewrite Ascii.eqb_refl in A1; discriminate
             | rewrite Ascii.eqb_refl in B1; discriminate
             | split; reflexivity ]).
Qed.

Lemma escapeEach_nil s : escapeEach s = "" -> s = "".
Proof.
  destruct s as [| a s]; [reflexivity |]. simpl. unfold escapeChar.
  destruct (Ascii.eqb a "&"); [discriminate |]. destruct (Ascii.eqb a "<"); [discriminate |].
  destruct (Ascii.eqb a ">"); [discriminate |].
  destruct (Ascii.eqb a dquote); [discriminate |].
  destruct (Ascii.eqb a "'"); discriminate.
Qed.

(** X26. [escapeHtml] loses nothing: two texts with the same escaped form
    are the same text. *)
Theorem escapeHtml_injective (s t : string) : escapeHtml s = escapeHtml t -> s = t.
Proof.
  rewrite !escapeHtml_each. revert t.
  induction s as [| a s IH]; intros t Heq.
  - symmetry. apply escapeEach_nil. symmetry. exact Heq.
  - destruct t as [| b t]; [apply escapeEach_nil in Heq; discriminate |].
    simpl in Heq. apply escapeChar_step in Heq. destruct Heq as [-> Heq].
    rewrite (IH t Heq). reflexivity.
Qed.

(** ** The tag editors *)

Section TagFacts.
Context `{Platform}.

Lemma distinctTags_snoc l value :
  distinctTags l -> value <> "" ->
  existsb (fun n => sameTag n value) l = false ->
  distinctTags (l ++ [value]).
Proof.
  intros [Hnd Hne] Hv Hex. split.
  - rewrite map_app. simpl. apply NoDup_app. split; [exact Hnd |]. split.
    + intros x Hx Hx'. apply list_elem_of_In in Hx, Hx'.
      destruct Hx' as [<- | []]. apply in_map_iff in Hx. destruct Hx as (n & Hn & Hin).
      assert (Ht : existsb (fun n => sameTag n value) l = true).
      { apply existsb_exists. exists n. split; [exact Hin |].
        unfold sameTag. apply String.eqb_eq. exact Hn. }
      congruence.
    + apply NoDup_singleton.
  - apply Forall_app. split; [exact Hne | constructor; [exact Hv | constructor]].
Qed.

Lemma without_sublist {A} (i : nat) (l : list A) :
  sublist (take i l ++ drop (S i) l) l.
Proof.
  revert i. induction l as [| x l IH]; intros [| i]; simpl.
  - constructor.
  - constructor.
  - rewrite drop_0. apply sublist_cons. reflexivity.
  - apply sublist_skip. apply IH.
Qed.

Lemma sublist_map {A B} (f : A -> B) (l k : list A) :
  sublist l k -> sublist (map f l) (map f k).
Proof. induction 1; simpl; constructor; assumption. Qed.

Lemma sublist_all {A} (P : A -> Prop) (l k : list A) :
  sublist l k -> Forall P k -> Forall P l.
Proof.
  induction 1 as [| x l k Hs IH | x l k Hs IH]; intros Hk; [constructor | |];
    inversion Hk; subst; [constructor |]; auto.
Qed.

Lemma distinctTags_without l i :
  distinctTags l -> distinctTags (take i l ++ drop (S i) l).
Proof.
  intros [Hnd Hne]. split.
  - eapply sublist_NoDup; [exact Hnd |]. apply sublist_map. apply without_sublist.
  - eapply sublist_all; [| exact Hne]. apply without_sublist.
Qed.

Lemma resolveFactionName_returns value w :
  exists r, resolveFactionName value w = (Return r, w).
Proof.
  unfold resolveFactionName, bind, gets, ret.
  destruct (nonEmpty (trim value)); [| eauto]. simpl.
  destruct (byName (factionDirectoryCache w) !! trim value) as [exact |]; [| eauto].
  destruct (nonEmpty (faction_name exact)); eauto.
Qed.

(** X27. Adding and removing tags never throws and leaves the world alone;
    if no two allies and no two rivals have the same [toLowerCase], none is
    empty, and the draft is the two lists, the same holds afterwards, for
    any [trim] and [toLowerCase] of the host. *)
Theorem tags_stay_distinct (a : tagAction) (e : diplomacy) (w : World) :
  tidy e ->
  exists e', tagStep a e w = (Return e', w) /\ tidy e'.
Proof.
  intros He. destruct a as [k raw | k index]; simpl.
  - unfold addTag, bind.
    destruct (resolveFactionName_returns raw w) as [value ->].
    destruct (nonEmpty value) eqn:Hv; [| eauto].
    destruct (existsb _ _) eqn:Hex; [eauto |].
    eexists. split; [reflexivity |]. apply nonEmpty_true in Hv.
    destruct He as (Ha & Hr & _ & _).
    destruct k; simpl; repeat split; simpl; try tauto;
      try (apply distinctTags_snoc; tauto); try apply Ha; try apply Hr;
      apply distinctTags_snoc; assumption.
  - unfold ret, removeTag. eexists. split; [reflexivity |].
    destruct (_ || _); [exact He |].
    destruct He as (Ha & Hr & _ & _).
    destruct k; simpl; repeat split; simpl; try apply Ha; try apply Hr;
      apply distinctTags_without; assumption.
Qed.

End TagFacts.

(** ** [decodeJwt] *)

Lemma split_no_separator c s : occurs c s = false -> split c s = [s].
Proof.
  induction s as [| a s IH]; simpl; [reflexivity |].
  destruct (Ascii.eqb a c); simpl; [discriminate |].
  intros Hs. rewrite (IH Hs). reflexivity.
Qed.

Lemma split_segment c s rest :
  occurs c s = false ->
  split c (s +:+ String c rest) = s :: split c rest.
Proof.
  induction s as [| a s IH].
  - intros _. change ("" +:+ String c rest) with (String c rest). simpl.
    rewrite Ascii.eqb_refl. reflexivity.
  - rewrite str_app_cons. simpl. destruct (Ascii.eqb a c); simpl; [discriminate |].
    intros Hs. rewrite (IH Hs). reflexivity.
Qed.

Section DecodeFacts.
Context `{Platform}.

(** X28. A token without a dot decodes to [null] on every host: there is
    no second segment to read. *)
Theorem decodeJwt_needs_two_segments (token : string) :
  occurs "." token = false -> decodeJwt token = JNull.
Proof.
  intros Hdot. unfold decodeJwt. rewrite (split_no_separator _ _ Hdot). reflexivity.
Qed.

(** X29. [decodeJwt] reads the second segment only: the header and the
    signature, present or not, play no part in what it returns. *)
Theorem decodeJwt_reads_only_the_payload (header header' payload signature signature' : string) :
  occurs "." header = false -> occurs "." header' = false -> occurs "." payload = false ->
  decodeJwt (header +:+ "." +:+ payload +:+ "." +:+ signature)
  = decodeJwt (header' +:+ "." +:+ payload +:+ "." +:+ signature')
  /\ decodeJwt (header +:+ "." +:+ payload +:+ "." +:+ signature)
     = decodeJwt (header +:+ "." +:+ payload).
Proof.
  intros Hh Hh' Hp. unfold decodeJwt.
  change ("." +:+ payload +:+ "." +:+ signature)
    with (String "." (payload +:+ String "." signature)).
  change ("." +:+ payload +:+ "." +:+ signature')
    with (String "." (payload +:+ String "." signature')).
  change ("." +:+ payload) with (String "." payload).
  rewrite !(split_segment "." _ _ Hh), !(split_segment "." _ _ Hh'),
    !(split_segment "." _ _ Hp), (split_no_separator _ _ Hp). split; reflexivity.
Qed.
End DecodeFacts.

(** ** More examples on the sample host *)

Lemma api_passes_through_witness :
  let w0 := sampleWorld "" "" 1000 [statusOnly 503; statusOnly 200] in
  @api sampleHost "/api/index/profiles/" noOptions w0
  = (Return {| status := 503; payload := None |},
     emit (EFetch Request
             (requestOf "/api/index/profiles/" noOptions
                (authHeaders noOptions (storedAccess w0)))
             (Some {| status := 503; payload := None |}))
       (withNetwork [statusOnly 200] w0)).
Proof.
  intros w0.
  apply (@api_passes_through sampleHost "/api/index/profiles/" noOptions w0
           {| status := 503; payload := None |} [statusOnly 200]).
  - vm_compute. reflexivity.
  - reflexivity.
  - simpl. lia.
Defined.

Lemma api_request_headers_witness :
  let w0 := sampleWorld "not-a-jwt" "refresh-1" 1000
              [statusOnly 401; okResponse (DataToken "fresh"); statusOnly 200] in
  let rq := requestOf "/api/index/profiles/" noOptions (authHeaders noOptions "fresh") in
  exists token,
    (Retry = Request ->
     (token = storedAccess w0
      /\ ~ In ProactiveRefresh
             (sitesOf (emittedBy (@api sampleHost "/api/index/profiles/" noOptions) w0)))
     \/ exists rq0 rf,
         In (EFetch ProactiveRefresh rq0 (Some rf))
            (emittedBy (@api sampleHost "/api/index/profiles/" noOptions) w0)
         /\ payload rf = Some (DataToken token) /\ nonEmpty token = true)
    /\ (Retry = Retry ->
        exists rq0 rf,
          In (EFetch ReactiveRefresh rq0 (Some rf))
             (emittedBy (@api sampleHost "/api/index/profiles/" noOptions) w0)
          /\ payload rf = Some (DataToken token) /\ nonEmpty token = true)
    /\ headers rq !! "Authorization"
       = (if nonEmpty token then Some ("Bearer " +:+ token)
          else opt_headers noOptions !! "Authorization")
    /\ headers rq !! "Content-Type"
       = Some (default "application/json" (opt_headers noOptions !! "Content-Type"))
    /\ (forall k, k <> "Content-Type" -> k <> "Authorization" ->
                  headers rq !! k = opt_headers noOptions !! k).
Proof.
  intros w0 rq.
  apply (@api_request_headers sampleHost "/api/index/profiles/" noOptions w0 Retry rq
           (statusOnly 200)).
  - vm_compute. right. right. left. reflexivity.
  - right. reflexivity.
Defined.

Lemma api_proactive_refresh_success_witness :
  let w0 := sampleWorld sampleToken "refresh-1" 1699999970000
              [okResponse (DataToken "fresh"); statusOnly 200] in
  let rf := {| status := 200; payload := Some (DataToken "fresh") |} in
  let w1 := withStorage (insert "abx_access" "fresh")
              (emit (EFetch ProactiveRefresh
                       (@refreshRequest sampleHost (storedRefresh w0)) (Some rf))
                 (withNetwork [statusOnly 200] w0)) in
  @api sampleHost "/api/index/profiles/" noOptions w0
  = @sendWithRetry sampleHost "/api/index/profiles/" noOptions "fresh" w1.
Proof.
  intros w0 rf w1.
  refine (proj1 (@api_proactive_refresh_success sampleHost "/api/index/profiles/" noOptions
                   w0 rf "fresh" [statusOnly 200] _ _ _ _ _ _)).
  all: vm_compute; reflexivity.
Defined.

Lemma api_refresh_failure_fails_closed_witness :
  let w0 := sampleWorld sampleToken "" 1700000000000 [statusOnly 200] in
  ~ In Request (sitesOf (emittedBy (@api sampleHost "/api/index/profiles/" noOptions) w0))
  /\ sessionInvalidated (snd (@api sampleHost "/api/index/profiles/" noOptions w0)) = true.
Proof.
  intros w0.
  destruct (@api_refresh_failure_fails_closed sampleHost "/api/index/profiles/" noOptions w0
              ltac:(vm_compute; reflexivity) ltac:(vm_compute; reflexivity))
    as (_ & Hno & _ & Hflag & _).
  split; [exact Hno | exact Hflag].
Defined.

Lemma api_reactive_refresh_retries_with_new_token_witness :
  let w0 := sampleWorld "not-a-jwt" "refresh-1" 1000
              [statusOnly 401; okResponse (DataToken "fresh"); statusOnly 200] in
  fst (@api sampleHost "/api/index/profiles/" noOptions w0)
  = Return {| status := 200; payload := None |}
  /\ storedAccess (snd (@api sampleHost "/api/index/profiles/" noOptions w0)) = "fresh".
Proof.
  intros w0.
  destruct (@api_reactive_refresh_retries_with_new_token sampleHost "/api/index/profiles/"
              noOptions w0 {| status := 401; payload := None |}
              {| status := 200; payload := Some (DataToken "fresh") |}
              {| status := 200; payload := None |} [] "fresh"
              ltac:(vm_compute; reflexivity) eq_refl eq_refl
              ltac:(vm_compute; reflexivity) eq_refl eq_refl eq_refl
              ltac:(simpl; lia))
    as (Hret & Hacc & _).
  split; [exact Hret | exact Hacc].
Defined.

Lemma api_without_tokens_witness :
  let w0 := @invalidated sampleHost "gone" (sampleWorld "a" "r" 5000 [statusOnly 401]) in
  exists ans ui,
    emittedBy (@api sampleHost "/api/index/profiles/" noOptions) w0
    = EFetch Request (requestOf "/api/index/profiles/" noOptions (jsonHeaders noOptions)) ans
        :: ui
    /\ sitesOf ui = []
    /\ match ans with
       | Some res =>
           fst (@api sampleHost "/api/index/profiles/" noOptions w0) = Return res
           /\ unauthorizedCalls (snd (@api sampleHost "/api/index/profiles/" noOptions w0))
              = if status res =? 401 then S (unauthorizedCalls w0)
                else unauthorizedCalls w0
       | None =>
           fst (@api sampleHost "/api/index/profiles/" noOptions w0) = Throw TypeError
           /\ unauthorizedCalls (snd (@api sampleHost "/api/index/profiles/" noOptions w0))
              = unauthorizedCalls w0
       end.
Proof.
  intros w0.
  apply (@api_without_tokens sampleHost "/api/index/profiles/" noOptions w0).
  - vm_compute. reflexivity.
  - vm_compute. reflexivity.
Defined.

Lemma handleUnauthorizedResponse_storage_witness :
  let w0 := sampleWorld "a" "r" 5000 [] in
  let w1 := @invalidated sampleHost "gone" w0 in
  (forall k, In k sessionKeys -> localStorage w1 !! k = None)
  /\ localStorage w1 !! "abx_tier" = Some (@JSON_stringify sampleHost (JStr "login"))
  /\ (forall k, ~ In k sessionKeys -> k <> "abx_tier" ->
                localStorage w1 !! k = localStorage w0 !! k).
Proof.
  intros w0.
  exact (@handleUnauthorizedResponse_storage sampleHost "gone" w0 eq_refl).
Defined.

Lemma handleUnauthorizedResponse_again_after_window_witness :
  let w0 := sampleWorld "a" "r" 5000 [] in
  let w1 := @invalidated sampleHost "gone" w0 in
  let w2 := @invalidated sampleHost "gone again" (advance 1500 w1) in
  trace w2
  = trace w0 ++ [ECloseModal; EHide "#shutdown-overlay"; ESwitchTier "login";
                 EMessage "gone" "error";
                 ECloseModal; EHide "#shutdown-overlay"; ESwitchTier "login";
                 EMessage "gone again" "error"]
  /\ sessionInvalidated w2 = true
  /\ timers w2 = [(clock w0 + 1500 + 1500, ResetSessionInvalidated)].
Proof.
  intros w0.
  exact (@handleUnauthorizedResponse_again_after_window sampleHost "gone" "gone again" w0
           1500 eq_refl eq_refl ltac:(lia)).
Defined.

Lemma directory_survives_logout_witness :
  let w0 := withDirectory staleDirectory (sampleWorld "a" "r" 2000 []) in
  let w1 := snd (@logoutAction sampleHost w0) in
  @getFactionDirectory sampleHost false w1 = (Return (factionDirectoryCache w0), w1).
Proof.
  intros w0.
  apply (@directory_survives_logout sampleHost w0).
  - discriminate.
  - vm_compute. reflexivity.
Defined.

Lemma getFactionDirectory_empty_cache_refetches_witness :
  let w0 := snd (invalidateFactionDirectory
                   (withDirectory staleDirectory
                      (sampleWorld "" "" 2000 [okResponse (DataFactions [])]))) in
  @getFactionDirectory sampleHost false w0 = @getFactionDirectory sampleHost true w0.
Proof.
  intros w0. apply (@getFactionDirectory_empty_cache_refetches sampleHost w0). reflexivity.
Defined.

Lemma getFactionDirectory_serves_what_it_fetched_witness :
  let crows := {| faction_id := 4; faction_name := "Crows" |} in
  let w0 := sampleWorld "" "" 2000 [okResponse (DataFactions [Some crows])] in
  let d := snapshotOf [Some crows] 2000 in
  let w1 := snd (@getFactionDirectory sampleHost true w0) in
  @getFactionDirectory sampleHost false (withClock (clock w0 + 59999) w1)
  = (Return d, withClock (clock w0 + 59999) w1).
Proof.
  intros crows w0 d w1.
  apply (@getFactionDirectory_serves_what_it_fetched sampleHost w0 w1 d 59999).
  - vm_compute. reflexivity.
  - discriminate.
  - lia.
Defined.

Lemma snapshotOf_last_duplicate_wins_witness :
  let old := {| faction_id := 4; faction_name := "Crows" |} in
  let new := {| faction_id := 9; faction_name := "Crows" |} in
  let rooks := {| faction_id := 5; faction_name := "Rooks" |} in
  byName (snapshotOf ([Some old] ++ Some new :: [Some rooks]) 100) !! faction_name new
  = Some new.
Proof.
  intros old new rooks.
  apply (snapshotOf_last_duplicate_wins [Some old] new [Some rooks] 100).
  - discriminate.
  - intros g [Hg | []]. injection Hg as <-. discriminate.
Defined.

Lemma resolveFactionName_on_fetched_directory_witness :
  let crows := {| faction_id := 4; faction_name := "Crows" |} in
  let w0 := withDirectory staleDirectory (sampleWorld "" "" 2000 []) in
  exists r,
    @resolveFactionName sampleHost " crows " w0 = (Return r, w0)
    /\ @toLowerCase sampleHost r = @toLowerCase sampleHost (@trim sampleHost " crows ")
    /\ (r = @trim sampleHost " crows "
        \/ exists item, In item [Some crows] /\ labelOf item = r)
    /\ (forall f, In (Some f) [Some crows] -> faction_name f = @trim sampleHost " crows " ->
                  @trim sampleHost " crows " <> "" -> r = @trim sampleHost " crows ").
Proof.
  intros crows w0.
  exact (@resolveFactionName_on_fetched_directory sampleHost " crows " w0 [Some crows] 100
           eq_refl).
Defined.

Lemma roster_offers_no_active_member_witness :
  let baseline := {| affiliation_options := [];
                     members := [{| row_profile_id := 1; row_full_name := "Ada";
                                    row_aliases := []; row_affiliation := "Member" |}] |} in
  let found := [{| row_profile_id := 2; row_full_name := "Bo";
                   row_aliases := []; row_affiliation := "" |}] in
  let acts := [Load baseline; Candidates "bo" (Some found)] in
  let c := {| cand_profile_id := 2; cand_full_name := "Bo"; cand_aliases := [];
              cand_affiliation := "Associate" |} in
  match Map_get (cand_profile_id c) (rosterState (after acts)) with
  | Some existing => isRemoved existing = true
  | None => True
  end.
Proof.
  intros baseline found acts c.
  apply (roster_offers_no_active_member acts c). vm_compute. left. reflexivity.
Defined.

Lemma roster_add_then_remove_is_undone_witness :
  let baseline := {| affiliation_options := [];
                     members := [{| row_profile_id := 1; row_full_name := "Ada";
                                    row_aliases := []; row_affiliation := "Member" |}] |} in
  let found := [{| row_profile_id := 2; row_full_name := "Bo";
                   row_aliases := []; row_affiliation := "" |}] in
  let st := loadCandidates "bo" (Some found) (applyInitialData baseline openedRoster) in
  let st' := memberRemove 2 (candidateAdd 2 "Leader" st) in
  rosterState st' = rosterState st
  /\ (st' = st \/ findCandidate 2 (candidateCache st') = None).
Proof.
  intros baseline found st.
  exact (roster_add_then_remove_is_undone 2 "Leader" st eq_refl).
Defined.

Lemma roster_save_button_tracks_changes_witness :
  let baseline := {| affiliation_options := [];
                     members := [{| row_profile_id := 1; row_full_name := "Ada";
                                    row_aliases := []; row_affiliation := "Member" |}] |} in
  let st := memberAffChange 1 "Leader" (applyInitialData baseline openedRoster) in
  let putBack := memberAffChange 1 "Member" in
  let st' := withSaveDisabled false (putBack (withSaveDisabled true st)) in
  let w0 := sampleWorld "" "" 1000 [statusOnly 500] in
  (exists w', @saveRosterThen sampleHost 5 putBack st w0 = (Return st', w'))
  /\ hasChanges st' = false /\ saveDisabled st' = false.
Proof.
  intros baseline st putBack st' w0. split.
  - apply (proj2 (proj2 (@roster_save_button_tracks_changes sampleHost)) 5 putBack st w0).
    reflexivity.
  - split; reflexivity.
Defined.

Lemma personnel_readd_resets_role_witness :
  let st := {| assigned := [(7, {| agent_id := 7; alias := "Kite";
                                   role_in_op := "Handler" |})];
               candidates := [] |} in
  Map_get 7 (assigned (addAgent 7 "Kite" (removeAgent 7 st)))
  = Some {| agent_id := 7; alias := "Kite"; role_in_op := "Field Agent" |}.
Proof.
  intros st. apply (personnel_readd_resets_role 7 "Kite" st).
  simpl. apply NoDup_singleton.
Defined.

Lemma addTarget_payload_witness :
  let m := [("profile-2", {| target_id := 2; target_name := "Ada";
                             target_type := "profile" |})] in
  targetsPayload (addTarget 5 "Depot" "location" m)
  = JObj [("profile_ids",
           JArr (map JNum (idsOfType "profile" (Map_values m)
                           ++ (if String.eqb "location" "profile" then [5] else []))));
          ("faction_ids",
           JArr (map JNum (idsOfType "faction" (Map_values m)
                           ++ (if String.eqb "location" "faction" then [5] else []))))].
Proof.
  intros m. apply (addTarget_payload 5 "Depot" "location" m). vm_compute. reflexivity.
Defined.

Lemma escapeHtml_leaves_no_markup_witness :
  occurs "<" (escapeHtml "<b title='x'>&</b>") = false.
Proof. apply (escapeHtml_leaves_no_markup "<b title='x'>&</b>" "<"). reflexivity. Defined.

Lemma escapeHtml_injective_witness : "&lt;" = "&lt;".
Proof. apply (escapeHtml_injective "&lt;" "&lt;"). reflexivity. Defined.

Lemma tags_stay_distinct_witness :
  let e := openedDiplomacy ["Crows"] ["Rooks"] in
  let w0 := withDirectory staleDirectory (sampleWorld "" "" 2000 []) in
  exists e',
    @tagStep sampleHost (AddTag Allies " crows ") e w0 = (Return e', w0)
    /\ @tidy sampleHost e'.
Proof.
  intros e w0. apply (@tags_stay_distinct sampleHost (AddTag Allies " crows ") e w0).
  repeat split; simpl; try apply NoDup_singleton; repeat constructor; discriminate.
Defined.

Lemma decodeJwt_needs_two_segments_witness : @decodeJwt sampleHost "not-a-jwt" = JNull.
Proof. apply (@decodeJwt_needs_two_segments sampleHost "not-a-jwt"). reflexivity. Defined.

Lemma decodeJwt_reads_only_the_payload_witness :
  @decodeJwt sampleHost ("h" +:+ "." +:+ "eyJleHAiOjE3MDAwMDAwMDB9" +:+ "." +:+ "s")
  = @decodeJwt sampleHost ("other" +:+ "." +:+ "eyJleHAiOjE3MDAwMDAwMDB9" +:+ "." +:+ "forged")
  /\ @decodeJwt sampleHost ("h" +:+ "." +:+ "eyJleHAiOjE3MDAwMDAwMDB9" +:+ "." +:+ "s")
     = @decodeJwt sampleHost ("h" +:+ "." +:+ "eyJleHAiOjE3MDAwMDAwMDB9").
Proof.
  apply (@decodeJwt_reads_only_the_payload sampleHost "h" "other" "eyJleHAiOjE3MDAwMDAwMDB9"
           "s" "forged"); reflexivity.
Defined.
